(** * The discrete-adjoint coupling layer of SU2

    A shallow embedding of [SU2_CFD/src/solver_adjoint_discrete.cpp]
    (class [CDiscAdjSolver]) and the properties of its seeding, objective
    registration, restart loading, recording, sensitivity extraction and
    reduction.

    Conventions of the embedding:
    - [su2double] values are IEEE binary64 numbers ([SpecFloat], precision 53,
      exponent bound 1024); arithmetic is the correctly rounded one;
    - C arrays are lists read with [!!] and written with [store]; an access
      outside the array yields the outcome [Undefined];
    - a member function is a function from the objects it reads to the
      objects it writes, wrapped in [outcome] when it can leave the normal
      control flow ([exit], undefined behaviour);
    - an SPMD run is the same function evaluated once per rank. *)

From Stdlib Require Import ZArith Lia Bool String SpecFloat.
From stdpp Require Import base list.

Local Open Scope nat_scope.

(** ** Double precision arithmetic *)

Module Double.

Definition prec : Z := 53%Z.
Definition emax : Z := 1024%Z.

Definition t : Type := spec_float.

Definition add : t -> t -> t := SFadd prec emax.
Definition mul : t -> t -> t := SFmul prec emax.
Definition div : t -> t -> t := SFdiv prec emax.
Definition sqrt : t -> t := SFsqrt prec emax.
Definition opp : t -> t := SFopp.
Definition ltb : t -> t -> bool := SFltb.

(** The double nearest to an integer literal such as [180.0]. *)
Definition of_Z (z : Z) : t := binary_normalize prec emax z 0%Z false.

Definition zero : t := S754_zero false.
Definition one : t := Eval vm_compute in of_Z 1.
(** The literal [1e-16], i.e. [0x1.cd2b297d889bcp-54]. *)
Definition lit_1e_16 : t := S754_finite false 8112963841460668%positive (-106)%Z.

Definition eq_dec (x y : t) : {x = y} + {x <> y}.
Proof. repeat decide equality. Defined.

End Double.

Abbreviation su2double := Double.t.

Arguments Double.add : simpl never.
Arguments Double.mul : simpl never.
Arguments Double.div : simpl never.
Arguments Double.sqrt : simpl never.
Arguments Double.opp : simpl never.
Arguments Double.ltb : simpl never.

Declare Scope double_scope.
Delimit Scope double_scope with D.
Infix "+" := Double.add : double_scope.
Infix "*" := Double.mul : double_scope.
Infix "/" := Double.div : double_scope.
Notation "- x" := (Double.opp x) : double_scope.
Infix "<?" := Double.ltb : double_scope.

(** ** Control flow: normal return, process exit, undefined behaviour *)

Inductive outcome (A : Type) : Type :=
| Returns (a : A)
    (* the call returns with [a] *)
| Exit_Failure (console : list string)
    (* [exit(EXIT_FAILURE)]; [console] is what the rank wrote to [cout] *)
| Undefined.
    (* an array is accessed outside its bounds or a null/uninitialised
       pointer is dereferenced *)

Arguments Returns {A} a.
Arguments Exit_Failure {A} console.
Arguments Undefined {A}.

#[global] Instance outcome_ret : MRet outcome := @Returns.

#[global] Instance outcome_bind : MBind outcome := fun A B k m =>
  match m with
  | Returns a => k a
  | Exit_Failure c => Exit_Failure c
  | Undefined => Undefined
  end.

(** Reading [a[i]] and writing [a[i] = x] on a C array. *)
Definition load {A} (a : list A) (i : nat) : outcome A :=
  match a !! i with
  | Some x => Returns x
  | None => Undefined
  end.

Definition store {A} (a : list A) (i : nat) (x : A) : outcome (list A) :=
  if decide (i < length a) then Returns (<[i := x]> a) else Undefined.

(** [for (i = lo; i < lo + n; i++) body] *)
Fixpoint for_loop {St} (n lo : nat) (body : nat -> St -> outcome St) (s : St)
  : outcome St :=
  match n with
  | 0 => Returns s
  | S n' => s' ← body lo s; for_loop n' (S lo) body s'
  end.

(** ** Ranks *)

Definition MASTER_NODE : nat := 0.

(** A build either has [HAVE_MPI] defined, and the job runs [size] processes,
    or it is serial.  [MPI_Comm_rank] overwrites the local [rank] only with
    [HAVE_MPI]; otherwise [rank] keeps its initial value [MASTER_NODE]. *)
Inductive build : Type :=
| Serial
| HAVE_MPI (size : nat).

Definition comm_size (b : build) : nat :=
  match b with
  | Serial => 1
  | HAVE_MPI size => size
  end.

Definition get_rank (b : build) (world_rank : nat) : nat :=
  match b with
  | Serial => MASTER_NODE
  | HAVE_MPI _ => world_rank
  end.

(** The processes of a job, by their world rank. *)
Definition processes (b : build) : list nat := seq 0 (comm_size b).

(** ** The tape of the AD engine *)

Module AD.

(** Modelled from the spec: the tape engine ([AD::] and [SU2_TYPE::] of
    [Common/include/ad_structure.inl] and [datatype_structure.inl], not among
    the sources) is consumed as a capability (section 9 of the
    specification): an active variable carries a value and the handle (tape
    index) under which the tape keeps its derivative. *)
Record var : Type := Var { value : su2double; index : nat }.

(** Modelled from the spec: the state of the tape, i.e. the derivative kept
    under every handle, the number of handles given to inputs and the
    handles registered as outputs. *)
Record tape : Type := Tape {
  adjoint : nat -> su2double;
  inputs : nat;
  outputs : list nat
}.

(** Modelled from the spec: the handle of a variable that is not on the
    tape. *)
Definition passive : nat := 0.

(** Modelled from the spec: [SU2_TYPE::GetDerivative], the [getDerivative]
    of the capability. *)
Definition GetDerivative (tp : tape) (x : var) : su2double :=
  adjoint tp (index x).

(** Modelled from the spec: [SU2_TYPE::SetDerivative], the seeding of a
    variable. *)
Definition SetDerivative (tp : tape) (x : var) (d : su2double) : tape :=
  Tape (fun i => if decide (i = index x) then d else adjoint tp i)
       (inputs tp) (outputs tp).

(** Modelled from the spec: [AD::RegisterInput], the [registerInput] of the
    capability; the variable receives the next free handle. *)
Definition RegisterInput (tp : tape) (x : var) : tape * var :=
  (Tape (adjoint tp) (S (inputs tp)) (outputs tp),
   Var (value x) (S (inputs tp))).

(** Modelled from the spec: [AD::ResetInput], the [resetInput] of the
    capability. *)
Definition ResetInput (x : var) : var := Var (value x) passive.

(** Modelled from the spec: [AD::RegisterOutput], the [registerOutput] of
    the capability. *)
Definition RegisterOutput (tp : tape) (x : var) : tape :=
  Tape (adjoint tp) (inputs tp) (outputs tp ++ [index x]).

End AD.

(** ** Enumerations of [option_structure.hpp] *)

(** The objective selector.  The twelve named values are the ones
    [RegisterObj_Func] switches on; the enumeration has further values
    (inverse-design pressure, total heat flux, ...), all of which are
    [OBJECTIVE_OTHER]. *)
Inductive ENUM_OBJECTIVE : Type :=
| DRAG_COEFFICIENT
| LIFT_COEFFICIENT
| SIDEFORCE_COEFFICIENT
| EFFICIENCY
| MOMENT_X_COEFFICIENT
| MOMENT_Y_COEFFICIENT
| MOMENT_Z_COEFFICIENT
| EQUIVALENT_AREA
| AVG_TOTAL_PRESSURE
| AVG_OUTLET_PRESSURE
| MASS_FLOW_RATE
| THRUST_NOZZLE
| OBJECTIVE_OTHER (code : nat).

(** Boundary-condition kinds of a marker; those the file does not name are
    [BC_OTHER] (far field, symmetry plane, inlet, outlet, send-receive...). *)
Inductive BC_TYPE : Type :=
| EULER_WALL
| HEAT_FLUX
| ISOTHERMAL
| BC_OTHER (code : nat).

Inductive ENUM_UNSTEADY : Type :=
| STEADY
| TIME_STEPPING
| DT_STEPPING_1ST
| DT_STEPPING_2ND
| ROTATIONAL_FRAME
| TIME_SPECTRAL.

Inductive ENUM_REGIME : Type :=
| COMPRESSIBLE
| INCOMPRESSIBLE
| FREESURFACE.

Inductive RUNTIME_TYPE : Type :=
| RUNTIME_FLOW_SYS
| RUNTIME_TURB_SYS
| RUNTIME_OTHER (code : nat).

#[global] Instance ENUM_OBJECTIVE_eq_dec : EqDecision ENUM_OBJECTIVE.
Proof. solve_decision. Defined.
#[global] Instance BC_TYPE_eq_dec : EqDecision BC_TYPE.
Proof. solve_decision. Defined.
#[global] Instance ENUM_UNSTEADY_eq_dec : EqDecision ENUM_UNSTEADY.
Proof. solve_decision. Defined.
#[global] Instance ENUM_REGIME_eq_dec : EqDecision ENUM_REGIME.
Proof. solve_decision. Defined.
#[global] Instance RUNTIME_TYPE_eq_dec : EqDecision RUNTIME_TYPE.
Proof. solve_decision. Defined.

Definition MESH_0 : nat := 0.

(** ** The collaborating objects *)

Module CConfig.

(** The options this file reads from [CConfig]; [nMarker_All] is the number
    of entries of [Marker_All_KindBC], and [ObjFunc_Extension] is what
    [GetObjFunc_Extension] makes of a file name. *)
Record t : Type := Build {
  Restart : bool;
  Solution_AdjFileName : string;
  ObjFunc_Extension : string -> string;
  Kind_ObjFunc : ENUM_OBJECTIVE;
  Kind_Regime : ENUM_REGIME;
  Unsteady_Simulation : ENUM_UNSTEADY;
  Marker_All_KindBC : list BC_TYPE;
  Sens_Remove_Sharp : bool;
  LimiterCoeff : su2double;
  RefElemLength : su2double;
  SharpEdgesCoeff : su2double;
  Velocity_Ref : su2double;
  AoA : su2double;
  AoS : su2double;
  Mach : su2double;
  Pressure_FreeStreamND : su2double;
  Temperature_FreeStreamND : su2double;
  Velocity_FreeStreamND : list su2double
}.

(** [set_m x s] is [s] after the assignment [m = x]. *)
Definition set_Velocity_FreeStreamND (x : list su2double) (s : t) : t :=
  Build (Restart s) (Solution_AdjFileName s) (ObjFunc_Extension s)
       (Kind_ObjFunc s) (Kind_Regime s) (Unsteady_Simulation s)
       (Marker_All_KindBC s) (Sens_Remove_Sharp s) (LimiterCoeff s)
       (RefElemLength s) (SharpEdgesCoeff s) (Velocity_Ref s) (AoA s) (AoS s)
       (Mach s) (Pressure_FreeStreamND s) (Temperature_FreeStreamND s) x.

Definition set_Pressure_FreeStreamND (x : su2double) (s : t) : t :=
  Build (Restart s) (Solution_AdjFileName s) (ObjFunc_Extension s)
       (Kind_ObjFunc s) (Kind_Regime s) (Unsteady_Simulation s)
       (Marker_All_KindBC s) (Sens_Remove_Sharp s) (LimiterCoeff s)
       (RefElemLength s) (SharpEdgesCoeff s) (Velocity_Ref s) (AoA s) (AoS s)
       (Mach s) x (Temperature_FreeStreamND s) (Velocity_FreeStreamND s).

Definition set_Temperature_FreeStreamND (x : su2double) (s : t) : t :=
  Build (Restart s) (Solution_AdjFileName s) (ObjFunc_Extension s)
       (Kind_ObjFunc s) (Kind_Regime s) (Unsteady_Simulation s)
       (Marker_All_KindBC s) (Sens_Remove_Sharp s) (LimiterCoeff s)
       (RefElemLength s) (SharpEdgesCoeff s) (Velocity_Ref s) (AoA s) (AoS s)
       (Mach s) (Pressure_FreeStreamND s) x (Velocity_FreeStreamND s).


End CConfig.

Definition GetnMarker_All (config : CConfig.t) : nat :=
  length (CConfig.Marker_All_KindBC config).

Module CPoint.

(** A mesh point of the geometry ([geometry->node[iPoint]]). *)
Record t : Type := Build {
  GlobalIndex : nat;
  Coord : list AD.var;
  SharpEdge_Distance : su2double;
  Flip_Orientation : bool;
  Domain : bool
}.

(** [set_m x s] is [s] after the assignment [m = x]. *)
Definition set_Coord (x : list AD.var) (s : t) : t :=
  Build (GlobalIndex s) x (SharpEdge_Distance s) (Flip_Orientation s)
       (Domain s).

End CPoint.

Module CVertex.

(** A boundary vertex ([geometry->vertex[iMarker][iVertex]]). *)
Record t : Type := Build {
  Node : nat;
  Normal : list su2double
}.

End CVertex.

Module CGeometry.

(** The mesh partition of a rank; [nVertex[iMarker]] is the number of
    entries of [vertex[iMarker]]. *)
Record t : Type := Build {
  nDim : nat;
  nPoint : nat;
  nPointDomain : nat;
  Global_nPointDomain : nat;
  node : list CPoint.t;
  vertex : list (list CVertex.t)
}.

(** [set_m x s] is [s] after the assignment [m = x]. *)
Definition set_node (x : list CPoint.t) (s : t) : t :=
  Build (nDim s) (nPoint s) (nPointDomain s) (Global_nPointDomain s) x
       (vertex s).

End CGeometry.

Module CDirectVariable.

(** A point of the primal solver ([direct_solver->node[iPoint]]): the state
    and its two time levels, as active variables. *)
Record t : Type := Build {
  Solution : list AD.var;
  Solution_time_n : list AD.var;
  Solution_time_n1 : list AD.var
}.

(** [set_m x s] is [s] after the assignment [m = x]. *)
Definition set_Solution (x : list AD.var) (s : t) : t :=
  Build x (Solution_time_n s) (Solution_time_n1 s).

Definition set_Solution_time_n (x : list AD.var) (s : t) : t :=
  Build (Solution s) x (Solution_time_n1 s).

Definition set_Solution_time_n1 (x : list AD.var) (s : t) : t :=
  Build (Solution s) (Solution_time_n s) x.

End CDirectVariable.

(** The scalar accessors of the primal solver that [RegisterObj_Func] can
    invoke. *)
Inductive accessor : Type :=
| GetTotal_CDrag
| GetTotal_CLift
| GetTotal_CSideForce
| GetTotal_CEff
| GetTotal_CMx
| GetTotal_CMy
| GetTotal_CMz
| GetTotal_CEquivArea
| GetOneD_TotalPress
| GetOneD_FluxAvgPress
| GetOneD_MassFlowRate
| GetThrust_Nozzle.

#[global] Instance accessor_eq_dec : EqDecision accessor.
Proof. solve_decision. Defined.

Module CSolver.

(** The primal solver as seen through [direct_solver]: its points, the value
    each scalar accessor returns, and the free-stream members that
    [RegisterVariables] sets. *)
Record t : Type := Build {
  nVar : nat;
  node : list CDirectVariable.t;
  scalar : accessor -> AD.var;
  Temperature_Inf : su2double;
  Pressure_Inf : su2double
}.

(** [set_m x s] is [s] after the assignment [m = x]. *)
Definition set_Temperature_Inf (x : su2double) (s : t) : t :=
  Build (nVar s) (node s) (scalar s) x (Pressure_Inf s).

Definition set_Pressure_Inf (x : su2double) (s : t) : t :=
  Build (nVar s) (node s) (scalar s) (Temperature_Inf s) x.

Definition set_node (x : list CDirectVariable.t) (s : t) : t :=
  Build (nVar s) x (scalar s) (Temperature_Inf s) (Pressure_Inf s).

End CSolver.

Module CVariable.

(** A point of the adjoint solver ([node[iPoint]], class
    [CDiscAdjVariable]).  Its per-variable arrays have [nVar] entries and
    [Sensitivity] has [nDim]; copying [nVar] entries into such an array is
    list assignment. *)
Record t : Type := Build {
  Solution : list su2double;
  Solution_Old : list su2double;
  Solution_time_n : list su2double;
  Solution_time_n1 : list su2double;
  Solution_Direct : list su2double;
  Sensitivity : list su2double
}.

(** [set_m x s] is [s] after the assignment [m = x]. *)
Definition set_Solution (x : list su2double) (s : t) : t :=
  Build x (Solution_Old s) (Solution_time_n s) (Solution_time_n1 s)
       (Solution_Direct s) (Sensitivity s).

Definition set_Solution_Old (x : list su2double) (s : t) : t :=
  Build (Solution s) x (Solution_time_n s) (Solution_time_n1 s)
       (Solution_Direct s) (Sensitivity s).

Definition set_Solution_time_n (x : list su2double) (s : t) : t :=
  Build (Solution s) (Solution_Old s) x (Solution_time_n1 s)
       (Solution_Direct s) (Sensitivity s).

Definition set_Solution_time_n1 (x : list su2double) (s : t) : t :=
  Build (Solution s) (Solution_Old s) (Solution_time_n s) x
       (Solution_Direct s) (Sensitivity s).

Definition set_Solution_Direct (x : list su2double) (s : t) : t :=
  Build (Solution s) (Solution_Old s) (Solution_time_n s) (Solution_time_n1 s)
       x (Sensitivity s).

Definition set_Sensitivity (x : list su2double) (s : t) : t :=
  Build (Solution s) (Solution_Old s) (Solution_time_n s) (Solution_time_n1 s)
       (Solution_Direct s) x.

End CVariable.

Module CDiscAdjSolver.

(** The members of [CDiscAdjSolver]. *)
Record t : Type := Build {
  nVar : nat;
  nDim : nat;
  nMarker : nat;
  nPoint : nat;
  nPointDomain : nat;
  KindDirect_Solver : RUNTIME_TYPE;
  node : list CVariable.t;
  Residual : list su2double;
  Residual_RMS : list su2double;
  Residual_Max : list su2double;
  Point_Max : list nat;
  Point_Max_Coord : list (list su2double);
  Solution : list su2double;
  CSensitivity : list (list su2double);
  Sens_Geo : list su2double;
  Sens_Mach : list su2double;
  Sens_AoA : list su2double;
  Sens_Press : list su2double;
  Sens_Temp : list su2double;
  Total_Sens_Geo : su2double;
  Mach : AD.var;
  Alpha : AD.var;
  Beta : AD.var;
  Pressure : AD.var;
  Temperature : AD.var;
  ObjFunc_Value : AD.var
}.

(** [set_m x s] is [s] after the assignment [m = x]. *)
Definition set_node (x : list CVariable.t) (s : t) : t :=
  Build (nVar s) (nDim s) (nMarker s) (nPoint s) (nPointDomain s)
       (KindDirect_Solver s) x (Residual s) (Residual_RMS s) (Residual_Max s)
       (Point_Max s) (Point_Max_Coord s) (Solution s) (CSensitivity s)
       (Sens_Geo s) (Sens_Mach s) (Sens_AoA s) (Sens_Press s) (Sens_Temp s)
       (Total_Sens_Geo s) (Mach s) (Alpha s) (Beta s) (Pressure s)
       (Temperature s) (ObjFunc_Value s).

Definition set_Residual_RMS (x : list su2double) (s : t) : t :=
  Build (nVar s) (nDim s) (nMarker s) (nPoint s) (nPointDomain s)
       (KindDirect_Solver s) (node s) (Residual s) x (Residual_Max s)
       (Point_Max s) (Point_Max_Coord s) (Solution s) (CSensitivity s)
       (Sens_Geo s) (Sens_Mach s) (Sens_AoA s) (Sens_Press s) (Sens_Temp s)
       (Total_Sens_Geo s) (Mach s) (Alpha s) (Beta s) (Pressure s)
       (Temperature s) (ObjFunc_Value s).

Definition set_Residual_Max (x : list su2double) (s : t) : t :=
  Build (nVar s) (nDim s) (nMarker s) (nPoint s) (nPointDomain s)
       (KindDirect_Solver s) (node s) (Residual s) (Residual_RMS s) x
       (Point_Max s) (Point_Max_Coord s) (Solution s) (CSensitivity s)
       (Sens_Geo s) (Sens_Mach s) (Sens_AoA s) (Sens_Press s) (Sens_Temp s)
       (Total_Sens_Geo s) (Mach s) (Alpha s) (Beta s) (Pressure s)
       (Temperature s) (ObjFunc_Value s).

Definition set_Point_Max (x : list nat) (s : t) : t :=
  Build (nVar s) (nDim s) (nMarker s) (nPoint s) (nPointDomain s)
       (KindDirect_Solver s) (node s) (Residual s) (Residual_RMS s)
       (Residual_Max s) x (Point_Max_Coord s) (Solution s) (CSensitivity s)
       (Sens_Geo s) (Sens_Mach s) (Sens_AoA s) (Sens_Press s) (Sens_Temp s)
       (Total_Sens_Geo s) (Mach s) (Alpha s) (Beta s) (Pressure s)
       (Temperature s) (ObjFunc_Value s).

Definition set_Point_Max_Coord (x : list (list su2double)) (s : t) : t :=
  Build (nVar s) (nDim s) (nMarker s) (nPoint s) (nPointDomain s)
       (KindDirect_Solver s) (node s) (Residual s) (Residual_RMS s)
       (Residual_Max s) (Point_Max s) x (Solution s) (CSensitivity s)
       (Sens_Geo s) (Sens_Mach s) (Sens_AoA s) (Sens_Press s) (Sens_Temp s)
       (Total_Sens_Geo s) (Mach s) (Alpha s) (Beta s) (Pressure s)
       (Temperature s) (ObjFunc_Value s).

Definition set_Solution (x : list su2double) (s : t) : t :=
  Build (nVar s) (nDim s) (nMarker s) (nPoint s) (nPointDomain s)
       (KindDirect_Solver s) (node s) (Residual s) (Residual_RMS s)
       (Residual_Max s) (Point_Max s) (Point_Max_Coord s) x (CSensitivity s)
       (Sens_Geo s) (Sens_Mach s) (Sens_AoA s) (Sens_Press s) (Sens_Temp s)
       (Total_Sens_Geo s) (Mach s) (Alpha s) (Beta s) (Pressure s)
       (Temperature s) (ObjFunc_Value s).

Definition set_CSensitivity (x : list (list su2double)) (s : t) : t :=
  Build (nVar s) (nDim s) (nMarker s) (nPoint s) (nPointDomain s)
       (KindDirect_Solver s) (node s) (Residual s) (Residual_RMS s)
       (Residual_Max s) (Point_Max s) (Point_Max_Coord s) (Solution s) x
       (Sens_Geo s) (Sens_Mach s) (Sens_AoA s) (Sens_Press s) (Sens_Temp s)
       (Total_Sens_Geo s) (Mach s) (Alpha s) (Beta s) (Pressure s)
       (Temperature s) (ObjFunc_Value s).

Definition set_Sens_Geo (x : list su2double) (s : t) : t :=
  Build (nVar s) (nDim s) (nMarker s) (nPoint s) (nPointDomain s)
       (KindDirect_Solver s) (node s) (Residual s) (Residual_RMS s)
       (Residual_Max s) (Point_Max s) (Point_Max_Coord s) (Solution s)
       (CSensitivity s) x (Sens_Mach s) (Sens_AoA s) (Sens_Press s)
       (Sens_Temp s) (Total_Sens_Geo s) (Mach s) (Alpha s) (Beta s)
       (Pressure s) (Temperature s) (ObjFunc_Value s).

Definition set_Total_Sens_Geo (x : su2double) (s : t) : t :=
  Build (nVar s) (nDim s) (nMarker s) (nPoint s) (nPointDomain s)
       (KindDirect_Solver s) (node s) (Residual s) (Residual_RMS s)
       (Residual_Max s) (Point_Max s) (Point_Max_Coord s) (Solution s)
       (CSensitivity s) (Sens_Geo s) (Sens_Mach s) (Sens_AoA s) (Sens_Press s)
       (Sens_Temp s) x (Mach s) (Alpha s) (Beta s) (Pressure s)
       (Temperature s) (ObjFunc_Value s).

Definition set_Mach (x : AD.var) (s : t) : t :=
  Build (nVar s) (nDim s) (nMarker s) (nPoint s) (nPointDomain s)
       (KindDirect_Solver s) (node s) (Residual s) (Residual_RMS s)
       (Residual_Max s) (Point_Max s) (Point_Max_Coord s) (Solution s)
       (CSensitivity s) (Sens_Geo s) (Sens_Mach s) (Sens_AoA s) (Sens_Press s)
       (Sens_Temp s) (Total_Sens_Geo s) x (Alpha s) (Beta s) (Pressure s)
       (Temperature s) (ObjFunc_Value s).

Definition set_Alpha (x : AD.var) (s : t) : t :=
  Build (nVar s) (nDim s) (nMarker s) (nPoint s) (nPointDomain s)
       (KindDirect_Solver s) (node s) (Residual s) (Residual_RMS s)
       (Residual_Max s) (Point_Max s) (Point_Max_Coord s) (Solution s)
       (CSensitivity s) (Sens_Geo s) (Sens_Mach s) (Sens_AoA s) (Sens_Press s)
       (Sens_Temp s) (Total_Sens_Geo s) (Mach s) x (Beta s) (Pressure s)
       (Temperature s) (ObjFunc_Value s).

Definition set_Beta (x : AD.var) (s : t) : t :=
  Build (nVar s) (nDim s) (nMarker s) (nPoint s) (nPointDomain s)
       (KindDirect_Solver s) (node s) (Residual s) (Residual_RMS s)
       (Residual_Max s) (Point_Max s) (Point_Max_Coord s) (Solution s)
       (CSensitivity s) (Sens_Geo s) (Sens_Mach s) (Sens_AoA s) (Sens_Press s)
       (Sens_Temp s) (Total_Sens_Geo s) (Mach s) (Alpha s) x (Pressure s)
       (Temperature s) (ObjFunc_Value s).

Definition set_Pressure (x : AD.var) (s : t) : t :=
  Build (nVar s) (nDim s) (nMarker s) (nPoint s) (nPointDomain s)
       (KindDirect_Solver s) (node s) (Residual s) (Residual_RMS s)
       (Residual_Max s) (Point_Max s) (Point_Max_Coord s) (Solution s)
       (CSensitivity s) (Sens_Geo s) (Sens_Mach s) (Sens_AoA s) (Sens_Press s)
       (Sens_Temp s) (Total_Sens_Geo s) (Mach s) (Alpha s) (Beta s) x
       (Temperature s) (ObjFunc_Value s).

Definition set_Temperature (x : AD.var) (s : t) : t :=
  Build (nVar s) (nDim s) (nMarker s) (nPoint s) (nPointDomain s)
       (KindDirect_Solver s) (node s) (Residual s) (Residual_RMS s)
       (Residual_Max s) (Point_Max s) (Point_Max_Coord s) (Solution s)
       (CSensitivity s) (Sens_Geo s) (Sens_Mach s) (Sens_AoA s) (Sens_Press s)
       (Sens_Temp s) (Total_Sens_Geo s) (Mach s) (Alpha s) (Beta s)
       (Pressure s) x (ObjFunc_Value s).

Definition set_ObjFunc_Value (x : AD.var) (s : t) : t :=
  Build (nVar s) (nDim s) (nMarker s) (nPoint s) (nPointDomain s)
       (KindDirect_Solver s) (node s) (Residual s) (Residual_RMS s)
       (Residual_Max s) (Point_Max s) (Point_Max_Coord s) (Solution s)
       (CSensitivity s) (Sens_Geo s) (Sens_Mach s) (Sens_AoA s) (Sens_Press s)
       (Sens_Temp s) (Total_Sens_Geo s) (Mach s) (Alpha s) (Beta s)
       (Pressure s) (Temperature s) x.

End CDiscAdjSolver.

(** ** Objective seeding and registration *)

(** [CDiscAdjSolver::SetAdj_ObjFunc] *)
Definition SetAdj_ObjFunc (b : build) (world_rank : nat)
    (solver : CDiscAdjSolver.t) (tp : AD.tape) : AD.tape :=
  let rank := get_rank b world_rank in
  if decide (rank = MASTER_NODE) then
    AD.SetDerivative tp (CDiscAdjSolver.ObjFunc_Value solver) Double.one
  else
    AD.SetDerivative tp (CDiscAdjSolver.ObjFunc_Value solver) Double.zero.

(** The seed a rank holds for the objective once [SetAdj_ObjFunc] has run. *)
Definition seed (b : build) (world_rank : nat)
    (solver : CDiscAdjSolver.t) (tp : AD.tape) : su2double :=
  AD.GetDerivative (SetAdj_ObjFunc b world_rank solver tp)
                   (CDiscAdjSolver.ObjFunc_Value solver).

(** The seeds of all the processes of a job; [solver r] and [tp r] are the
    solver and the tape of the process of rank [r]. *)
Definition seeds (b : build) (solver : nat -> CDiscAdjSolver.t)
    (tp : nat -> AD.tape) : list su2double :=
  (fun r => seed b r (solver r) (tp r)) <$> processes b.

Definition sum_doubles (l : list su2double) : su2double :=
  foldl Double.add Double.zero l.

(** [ObjFunc_Value = direct_solver->acc()], with the invocation logged. *)
Definition invoke (direct_solver : CSolver.t) (acc : accessor)
    (solver : CDiscAdjSolver.t) : list accessor * CDiscAdjSolver.t :=
  ([acc],
   CDiscAdjSolver.set_ObjFunc_Value (CSolver.scalar direct_solver acc) solver).

(** [CDiscAdjSolver::RegisterObj_Func]: the accessors invoked, the solver and
    the tape afterwards.  The [switch] has no [default]. *)
Definition RegisterObj_Func (b : build) (world_rank : nat)
    (config : CConfig.t) (direct_solver : CSolver.t)
    (solver : CDiscAdjSolver.t) (tp : AD.tape)
  : list accessor * CDiscAdjSolver.t * AD.tape :=
  let rank := get_rank b world_rank in
  let '(invoked, solver) :=
    match CConfig.Kind_ObjFunc config with
    | DRAG_COEFFICIENT => invoke direct_solver GetTotal_CDrag solver
    | LIFT_COEFFICIENT => invoke direct_solver GetTotal_CLift solver
    | SIDEFORCE_COEFFICIENT => invoke direct_solver GetTotal_CSideForce solver
    | EFFICIENCY => invoke direct_solver GetTotal_CEff solver
    | MOMENT_X_COEFFICIENT => invoke direct_solver GetTotal_CMx solver
    | MOMENT_Y_COEFFICIENT => invoke direct_solver GetTotal_CMy solver
    | MOMENT_Z_COEFFICIENT => invoke direct_solver GetTotal_CMz solver
    | EQUIVALENT_AREA => invoke direct_solver GetTotal_CEquivArea solver
    | AVG_TOTAL_PRESSURE => invoke direct_solver GetOneD_TotalPress solver
    | AVG_OUTLET_PRESSURE => invoke direct_solver GetOneD_FluxAvgPress solver
    | MASS_FLOW_RATE => invoke direct_solver GetOneD_MassFlowRate solver
    | THRUST_NOZZLE => invoke direct_solver GetThrust_Nozzle solver
    | OBJECTIVE_OTHER _ => ([], solver)
    end in
  let tp :=
    if decide (rank = MASTER_NODE) then
      AD.RegisterOutput tp (CDiscAdjSolver.ObjFunc_Value solver)
    else tp in
  (invoked, solver, tp).

(** The selectors of the registry's table. *)
Definition recognized (kind : ENUM_OBJECTIVE) : bool :=
  match kind with
  | OBJECTIVE_OTHER _ => false
  | _ => true
  end.

(** ** Construction and the adjoint restart file *)

(** Modelled from the spec: the constructor of [CDiscAdjVariable]
    ([variable_adjoint_discrete.cpp] is not among the sources).  The adjoint
    state of a point is created with the [nVar] values of [val_solution];
    its other arrays are allocated with their sizes, [nVar] entries for the
    old solution, the time levels and the stored direct solution and [nDim]
    entries for the sensitivities.  What these arrays hold before they are
    first written is not fixed by the sources: the zeros below stand for it.
    The statements about a constructed solver name a fresh point through
    this constructor; of its contents they use the solution, the direct
    solution that the constructor of the solver stores over it, and the
    sizes of the arrays. *)
Definition CDiscAdjVariable (val_solution : list su2double)
    (val_ndim val_nvar : nat) (config : CConfig.t) : CVariable.t :=
  CVariable.Build (take val_nvar val_solution)
                  (replicate val_nvar Double.zero)
                  (replicate val_nvar Double.zero)
                  (replicate val_nvar Double.zero)
                  (replicate val_nvar Double.zero)
                  (replicate val_ndim Double.zero).

(** A line of the restart file as the extraction operators see it: the
    leading global index, when one can be extracted; the numeric columns
    after it, up to the end of the line or to the first token that is not a
    number; and whether the columns stop at such a token.  An extraction
    that runs into the end of the line leaves its target alone; one that
    meets a token that is not a number stores 0 in its target; and once an
    extraction has failed the stream stays failed and the remaining targets
    keep their values. *)
Record text_line : Type := Line {
  index_column : option nat;
  value_columns : list su2double;
  unparsed : bool
}.

(** The files a rank can open: [None] when [open] fails. *)
Definition filesystem : Type := string -> option (list text_line).

(** [point_line >> index; skipVars times point_line >> dull_val;
     nVar times point_line >> Solution[iVar]] *)
Definition extract_point_line (skipVars nVar : nat) (line : text_line)
    (Solution : list su2double) : list su2double :=
  match index_column line with
  | None => Solution
  | Some _ =>
      foldl (fun Solution iVar =>
               match value_columns line !! (skipVars + iVar) with
               | Some v => <[iVar := v]> Solution
               | None =>
                   if unparsed line
                      && bool_decide (skipVars + iVar
                                      = length (value_columns line))
                   then <[iVar := Double.zero]> Solution
                   else Solution
               end)
            Solution (seq 0 nVar)
  end.

Definition skipVars_of (nDim : nat) (Kind_Solver : RUNTIME_TYPE) : nat :=
  let skipVars := nDim in
  if decide (Kind_Solver = RUNTIME_TURB_SYS) then skipVars + (nDim + 2)
  else skipVars.

(** The global-to-local index transformation: [-1] everywhere, then the
    local index at the global index of every point of the domain. *)
Definition build_Global2Local (geometry : CGeometry.t) : outcome (list Z) :=
  for_loop (CGeometry.nPointDomain geometry) 0
    (fun iPoint Global2Local =>
       p ← load (CGeometry.node geometry) iPoint;
       store Global2Local (CPoint.GlobalIndex p) (Z.of_nat iPoint))
    (replicate (CGeometry.Global_nPointDomain geometry) (-1)%Z).

(** [while (getline (restart_file, text_line)) { ... iPoint_Global++; }]
    over the lines after the header.  A slot of [node] is [None] while its
    pointer has not been assigned. *)
Fixpoint read_restart_lines (config : CConfig.t) (nDim nVar skipVars : nat)
    (Global2Local : list Z) (lines : list text_line) (iPoint_Global : nat)
    (Solution : list su2double) (node : list (option CVariable.t))
  : outcome (list su2double * list (option CVariable.t)) :=
  match lines with
  | [] => Returns (Solution, node)
  | line :: lines =>
      iPoint_Local ← load Global2Local iPoint_Global;
      '(Solution, node) ←
        (if decide (0 <= iPoint_Local)%Z then
           let Solution := extract_point_line skipVars nVar line Solution in
           node ← store node (Z.to_nat iPoint_Local)
                    (Some (CDiscAdjVariable Solution nDim nVar config));
           Returns (Solution, node)
         else Returns (Solution, node));
      read_restart_lines config nDim nVar skipVars Global2Local lines
                         (S iPoint_Global) Solution node
  end.

(** The [else] branch of the constructor: the nodes loaded from the file. *)
Definition load_restart (rank : nat) (fs : filesystem)
    (geometry : CGeometry.t) (config : CConfig.t) (Kind_Solver : RUNTIME_TYPE)
    (nDim nVar nPoint nPointDomain : nat) (Solution : list su2double)
  : outcome (list su2double * list (option CVariable.t)) :=
  let mesh_filename := CConfig.Solution_AdjFileName config in
  let filename := CConfig.ObjFunc_Extension config mesh_filename in
  match fs filename with
  | None =>
      Exit_Failure
        (if decide (rank = MASTER_NODE) then
           [("There is no adjoint restart file!! " ++ filename ++ ".")%string]
         else [])
  | Some restart_file =>
      Global2Local ← build_Global2Local geometry;
      let skipVars := skipVars_of nDim Kind_Solver in
      '(Solution, node) ←
        read_restart_lines config nDim nVar skipVars Global2Local
          (tail restart_file) 0 Solution (replicate nPoint None);
      node ← for_loop (nPoint - nPointDomain) nPointDomain
                (fun iPoint node =>
                   store node iPoint
                     (Some (CDiscAdjVariable Solution nDim nVar config)))
                node;
      Returns (Solution, node)
  end.

(** [node[iPoint]->SetSolution_Direct(direct_solver->node[iPoint]->GetSolution())]
    for every point. *)
Definition store_direct_solution (direct_solver : CSolver.t) (nPoint : nat)
    (node : list (option CVariable.t)) : outcome (list (option CVariable.t)) :=
  for_loop nPoint 0
    (fun iPoint node =>
       slot ← load node iPoint;
       match slot with
       | None => Undefined
       | Some v =>
           d ← load (CSolver.node direct_solver) iPoint;
           store node iPoint
             (Some (CVariable.set_Solution_Direct
                      (AD.value <$> CDirectVariable.Solution d) v))
       end)
    node.

(** [CSensitivity[iMarker] = new su2double[geometry->nVertex[iMarker]]],
    zeroed. *)
Definition alloc_CSensitivity (geometry : CGeometry.t) (nMarker : nat)
  : outcome (list (list su2double)) :=
  for_loop nMarker 0
    (fun iMarker CSensitivity =>
       vertices ← load (CGeometry.vertex geometry) iMarker;
       Returns (CSensitivity ++ [replicate (length vertices) Double.zero]))
    [].

(** The constructor [CDiscAdjSolver::CDiscAdjSolver(geometry, config,
    direct_solver, Kind_Solver, iMesh)] run by the process of rank
    [world_rank]; [this] is the storage of the object, whose members the
    constructor does not assign keep their content. *)
Definition CDiscAdjSolver_new (b : build) (world_rank : nat) (fs : filesystem)
    (this : CDiscAdjSolver.t)
    (geometry : CGeometry.t) (config : CConfig.t) (direct_solver : CSolver.t)
    (Kind_Solver : RUNTIME_TYPE) (iMesh : nat) : outcome CDiscAdjSolver.t :=
  let restart := CConfig.Restart config in
  let rank := get_rank b world_rank in
  let nVar := CSolver.nVar direct_solver in
  let nDim := CGeometry.nDim geometry in
  let nMarker := GetnMarker_All config in
  let nPoint := CGeometry.nPoint geometry in
  let nPointDomain := CGeometry.nPointDomain geometry in
  let Solution := replicate nVar Double.lit_1e_16 in
  CSensitivity ← alloc_CSensitivity geometry nMarker;
  '(Solution, node) ←
    (if negb restart || negb (bool_decide (iMesh = MESH_0)) then
       Returns (Solution,
                replicate nPoint
                  (Some (CDiscAdjVariable Solution nDim nVar config)))
     else
       load_restart rank fs geometry config Kind_Solver
                    nDim nVar nPoint nPointDomain Solution);
  node ← store_direct_solution direct_solver nPoint node;
  Returns
    (CDiscAdjSolver.Build nVar nDim nMarker nPoint nPointDomain Kind_Solver
       (omap id node)
       (replicate nVar Double.one) (replicate nVar Double.one)
       (replicate nVar Double.one)
       (replicate nVar 0) (replicate nVar (replicate nDim Double.zero))
       Solution CSensitivity
       (replicate nMarker Double.zero) (replicate nMarker Double.zero)
       (replicate nMarker Double.zero) (replicate nMarker Double.zero)
       (replicate nMarker Double.zero)
       (CDiscAdjSolver.Total_Sens_Geo this)
       (CDiscAdjSolver.Mach this) (CDiscAdjSolver.Alpha this)
       (CDiscAdjSolver.Beta this) (CDiscAdjSolver.Pressure this)
       (CDiscAdjSolver.Temperature this)
       (CDiscAdjSolver.ObjFunc_Value this)).

(** ** Registration of the farfield variables *)

Section RegisterVariables.

(** [cos] and [sin] of the C library and the constant [PI_NUMBER] of
    [option_structure.hpp]. *)
Variables (cos sin : su2double -> su2double) (PI_NUMBER : su2double).

Definition is_compressible_flow (config : CConfig.t)
    (solver : CDiscAdjSolver.t) : bool :=
  bool_decide (CConfig.Kind_Regime config = COMPRESSIBLE)
  && bool_decide (CDiscAdjSolver.KindDirect_Solver solver = RUNTIME_FLOW_SYS).

(** The sound speed recovered from the first velocity component. *)
Definition SoundSpeed_of (config : CConfig.t) (nDim : nat)
    (Alpha Beta Mach : su2double) : outcome su2double :=
  let Velocity_Ref := CConfig.Velocity_Ref config in
  let SoundSpeed := Double.zero in
  SoundSpeed ←
    (if decide (nDim = 2) then
       u ← load (CConfig.Velocity_FreeStreamND config) 0;
       Returns (u * Velocity_Ref / (cos Alpha * Mach))%D
     else Returns SoundSpeed);
  if decide (nDim = 3) then
    u ← load (CConfig.Velocity_FreeStreamND config) 0;
    Returns (u * Velocity_Ref / (cos Alpha * cos Beta * Mach))%D
  else Returns SoundSpeed.

(** "Recompute the free stream velocity" *)
Definition recompute_Velocity_FreeStreamND (nDim : nat)
    (Alpha Beta Mach SoundSpeed Velocity_Ref : su2double)
    (Velocity : list su2double) : outcome (list su2double) :=
  Velocity ←
    (if decide (nDim = 2) then
       Velocity ← store Velocity 0
                    (cos Alpha * Mach * SoundSpeed / Velocity_Ref)%D;
       store Velocity 1 (sin Alpha * Mach * SoundSpeed / Velocity_Ref)%D
     else Returns Velocity);
  if decide (nDim = 3) then
    Velocity ← store Velocity 0
      (cos Alpha * cos Beta * Mach * SoundSpeed / Velocity_Ref)%D;
    Velocity ← store Velocity 1
      (sin Beta * Mach * SoundSpeed / Velocity_Ref)%D;
    store Velocity 2
      (sin Alpha * cos Beta * Mach * SoundSpeed / Velocity_Ref)%D
  else Returns Velocity.

(** [CDiscAdjSolver::RegisterVariables] *)
Definition RegisterVariables (config : CConfig.t) (direct_solver : CSolver.t)
    (solver : CDiscAdjSolver.t) (tp : AD.tape) (reset : bool)
  : outcome (CConfig.t * CSolver.t * CDiscAdjSolver.t * AD.tape) :=
  if is_compressible_flow config solver then
    let nDim := CDiscAdjSolver.nDim solver in
    let Velocity_Ref := CConfig.Velocity_Ref config in
    let Alpha := AD.Var (CConfig.AoA config * PI_NUMBER / Double.of_Z 180)%D
                        AD.passive in
    let Beta := AD.Var (CConfig.AoS config * PI_NUMBER / Double.of_Z 180)%D
                       AD.passive in
    let Mach := AD.Var (CConfig.Mach config) AD.passive in
    let Pressure := AD.Var (CConfig.Pressure_FreeStreamND config) AD.passive in
    let Temperature :=
      AD.Var (CConfig.Temperature_FreeStreamND config) AD.passive in
    SoundSpeed ← SoundSpeed_of config nDim (AD.value Alpha) (AD.value Beta)
                                (AD.value Mach);
    let '(tp, Mach, Alpha, Temperature, Pressure) :=
      if negb reset then
        let '(tp, Mach) := AD.RegisterInput tp Mach in
        let '(tp, Alpha) := AD.RegisterInput tp Alpha in
        let '(tp, Temperature) := AD.RegisterInput tp Temperature in
        let '(tp, Pressure) := AD.RegisterInput tp Pressure in
        (tp, Mach, Alpha, Temperature, Pressure)
      else (tp, Mach, Alpha, Temperature, Pressure) in
    Velocity ← recompute_Velocity_FreeStreamND nDim
                 (AD.value Alpha) (AD.value Beta) (AD.value Mach)
                 SoundSpeed Velocity_Ref
                 (CConfig.Velocity_FreeStreamND config);
    let config := CConfig.set_Velocity_FreeStreamND Velocity config in
    let config :=
      CConfig.set_Temperature_FreeStreamND (AD.value Temperature) config in
    let direct_solver :=
      CSolver.set_Temperature_Inf (AD.value Temperature) direct_solver in
    let config :=
      CConfig.set_Pressure_FreeStreamND (AD.value Pressure) config in
    let direct_solver :=
      CSolver.set_Pressure_Inf (AD.value Pressure) direct_solver in
    let solver :=
      CDiscAdjSolver.set_Temperature Temperature
        (CDiscAdjSolver.set_Pressure Pressure
           (CDiscAdjSolver.set_Mach Mach
              (CDiscAdjSolver.set_Beta Beta
                 (CDiscAdjSolver.set_Alpha Alpha solver)))) in
    Returns (config, direct_solver, solver, tp)
  else Returns (config, direct_solver, solver, tp).

End RegisterVariables.

(** ** Sensitivities *)

Definition is_wall_of_interest (kind : BC_TYPE) : bool :=
  bool_decide (kind = EULER_WALL)
  || bool_decide (kind = HEAT_FLUX)
  || bool_decide (kind = ISOTHERMAL).

(** [CSensitivity[iMarker][iVertex] = x] *)
Definition store_CSensitivity (iMarker iVertex : nat) (x : su2double)
    (solver : CDiscAdjSolver.t) : outcome CDiscAdjSolver.t :=
  row ← load (CDiscAdjSolver.CSensitivity solver) iMarker;
  row ← store row iVertex x;
  CSensitivity ← store (CDiscAdjSolver.CSensitivity solver) iMarker row;
  Returns (CDiscAdjSolver.set_CSensitivity CSensitivity solver).

Definition load_CSensitivity (iMarker iVertex : nat)
    (solver : CDiscAdjSolver.t) : outcome su2double :=
  row ← load (CDiscAdjSolver.CSensitivity solver) iMarker;
  load row iVertex.

(** The loop over [iDim] of [SetSurface_Sensitivity]: the scalar product of
    the normal with the sensitivity of the point, and the squared length of
    the normal. *)
Definition Prod_Area (solver : CDiscAdjSolver.t) (iPoint : nat)
    (Normal : list su2double) : outcome (su2double * su2double) :=
  for_loop (CDiscAdjSolver.nDim solver) 0
    (fun iDim '(Prod, Area) =>
       v ← load (CDiscAdjSolver.node solver) iPoint;
       SensDim ← load (CVariable.Sensitivity v) iDim;
       n ← load Normal iDim;
       Returns (Prod + n * SensDim, Area + n * n)%D)
    (Double.zero, Double.zero).

(** The body of the loop over the vertices of a marker. *)
Definition surface_vertex (geometry : CGeometry.t) (iMarker iVertex : nat)
    (solver : CDiscAdjSolver.t) : outcome CDiscAdjSolver.t :=
  vertices ← load (CGeometry.vertex geometry) iMarker;
  vertex ← load vertices iVertex;
  let iPoint := CVertex.Node vertex in
  let Normal := CVertex.Normal vertex in
  '(Prod, Area) ← Prod_Area solver iPoint Normal;
  let Area := Double.sqrt Area in
  let Sens := (Prod / Area)%D in
  solver ← store_CSensitivity iMarker iVertex (- Sens)%D solver;
  p ← load (CGeometry.node geometry) iPoint;
  solver ←
    (if CPoint.Flip_Orientation p then
       c ← load_CSensitivity iMarker iVertex solver;
       store_CSensitivity iMarker iVertex (- c)%D solver
     else Returns solver);
  if CPoint.Domain p then
    g ← load (CDiscAdjSolver.Sens_Geo solver) iMarker;
    Sens_Geo ← store (CDiscAdjSolver.Sens_Geo solver) iMarker
                 (g + Sens * Sens)%D;
    Returns (CDiscAdjSolver.set_Sens_Geo Sens_Geo solver)
  else Returns solver.

(** The body of the loop over the markers; the state is the solver and
    [Total_Sens_Geo_local]. *)
Definition surface_marker (geometry : CGeometry.t) (config : CConfig.t)
    (iMarker : nat) (st : CDiscAdjSolver.t * su2double)
  : outcome (CDiscAdjSolver.t * su2double) :=
  let '(solver, Total_Sens_Geo_local) := st in
  Sens_Geo ← store (CDiscAdjSolver.Sens_Geo solver) iMarker Double.zero;
  let solver := CDiscAdjSolver.set_Sens_Geo Sens_Geo solver in
  kind ← load (CConfig.Marker_All_KindBC config) iMarker;
  if is_wall_of_interest kind then
    vertices ← load (CGeometry.vertex geometry) iMarker;
    solver ← for_loop (length vertices) 0
               (surface_vertex geometry iMarker) solver;
    g ← load (CDiscAdjSolver.Sens_Geo solver) iMarker;
    Returns (solver, (Total_Sens_Geo_local + Double.sqrt g)%D)
  else Returns (solver, Total_Sens_Geo_local).

(** [SetSurface_Sensitivity] up to the collective: the solver and
    [Total_Sens_Geo_local]. *)
Definition SetSurface_Sensitivity_local (geometry : CGeometry.t)
    (config : CConfig.t) (solver : CDiscAdjSolver.t)
  : outcome (CDiscAdjSolver.t * su2double) :=
  let Total_Sens_Geo_local := Double.zero in
  let solver := CDiscAdjSolver.set_Total_Sens_Geo Double.zero solver in
  for_loop (CDiscAdjSolver.nMarker solver) 0
    (surface_marker geometry config) (solver, Total_Sens_Geo_local).

(** [CDiscAdjSolver::SetSurface_Sensitivity].  [Allreduce sendbuf] is what
    [SU2_MPI::Allreduce(&sendbuf, &recvbuf, 1, MPI_DOUBLE, MPI_SUM,
    MPI_COMM_WORLD)] leaves in [recvbuf] on this rank. *)
Definition SetSurface_Sensitivity (b : build)
    (Allreduce : su2double -> su2double)
    (geometry : CGeometry.t) (config : CConfig.t) (solver : CDiscAdjSolver.t)
  : outcome CDiscAdjSolver.t :=
  '(solver, Total_Sens_Geo_local) ←
    SetSurface_Sensitivity_local geometry config solver;
  Returns
    (CDiscAdjSolver.set_Total_Sens_Geo
       match b with
       | HAVE_MPI _ => Allreduce Total_Sens_Geo_local
       | Serial => Total_Sens_Geo_local
       end
       solver).

(** The decision of "If sharp edge, set the sensitivity to 0 on that
    region". *)
Definition sharp_edge_filter (config : CConfig.t) (p : CPoint.t)
    (Sensitivity : su2double) : su2double :=
  if CConfig.Sens_Remove_Sharp config then
    let eps := (CConfig.LimiterCoeff config * CConfig.RefElemLength config)%D in
    if (CPoint.SharpEdge_Distance p <? CConfig.SharpEdgesCoeff config * eps)%D
    then Double.zero
    else Sensitivity
  else Sensitivity.

(** The body of the loop over [iDim] of [SetSensitivity]. *)
Definition sensitivity_component (config : CConfig.t) (tp : AD.tape)
    (iPoint iDim : nat) (st : CGeometry.t * CDiscAdjSolver.t)
  : outcome (CGeometry.t * CDiscAdjSolver.t) :=
  let '(geometry, solver) := st in
  p ← load (CGeometry.node geometry) iPoint;
  let Coord := CPoint.Coord p in
  c ← load Coord iDim;
  let Sensitivity := AD.GetDerivative tp c in
  Coord ← store Coord iDim (AD.ResetInput c);
  let p := CPoint.set_Coord Coord p in
  node ← store (CGeometry.node geometry) iPoint p;
  let geometry := CGeometry.set_node node geometry in
  let Sensitivity := sharp_edge_filter config p Sensitivity in
  v ← load (CDiscAdjSolver.node solver) iPoint;
  sens ← store (CVariable.Sensitivity v) iDim Sensitivity;
  node ← store (CDiscAdjSolver.node solver) iPoint
           (CVariable.set_Sensitivity sens v);
  Returns (geometry, CDiscAdjSolver.set_node node solver).

(** The loops of [SetSensitivity] over the points and the dimensions. *)
Definition SetSensitivity_points (config : CConfig.t) (tp : AD.tape)
    (geometry : CGeometry.t) (solver : CDiscAdjSolver.t)
  : outcome (CGeometry.t * CDiscAdjSolver.t) :=
  for_loop (CDiscAdjSolver.nPoint solver) 0
    (fun iPoint st =>
       for_loop (CDiscAdjSolver.nDim solver) 0
         (sensitivity_component config tp iPoint) st)
    (geometry, solver).

(** [CDiscAdjSolver::SetSensitivity] *)
Definition SetSensitivity (b : build) (Allreduce : su2double -> su2double)
    (tp : AD.tape) (geometry : CGeometry.t) (config : CConfig.t)
    (solver : CDiscAdjSolver.t) : outcome (CGeometry.t * CDiscAdjSolver.t) :=
  '(geometry, solver) ← SetSensitivity_points config tp geometry solver;
  solver ← SetSurface_Sensitivity b Allreduce geometry config solver;
  Returns (geometry, solver).

(** [x] is a sum of the entries of [l]: what adding them up gives, in some
    order and with some association. *)
Inductive sum_of : list su2double -> su2double -> Prop :=
| sum_of_one (x : su2double) : sum_of [x] x
| sum_of_add (l1 l2 : list su2double) (x1 x2 : su2double) :
    sum_of l1 x1 -> sum_of l2 x2 -> sum_of (l1 ++ l2) (x1 + x2)%D
| sum_of_perm (l l' : list su2double) (x : su2double) :
    l ≡ₚ l' -> sum_of l x -> sum_of l' x.

(** The reduction across the job.  The processes, in rank order, each hold a
    geometry, a configuration and a solver. *)
Section Collective.

(** What [MPI_SUM] makes of the contributions of the ranks, listed in rank
    order; the order and the association of the additions are the MPI
    library's, see [sum_of]. *)
Variable MPI_SUM : list su2double -> su2double.

Definition job : Type := list (CGeometry.t * CConfig.t * CDiscAdjSolver.t).

(** The send buffer of a rank: what its call of [SU2_MPI::Allreduce] is
    given.  It is read off a run of the rank in which the collective hands
    the send buffer back, so that the receive buffer [Total_Sens_Geo] holds
    it. *)
Definition sendbuf_of (b : build)
    (rank : CGeometry.t * CConfig.t * CDiscAdjSolver.t) : outcome su2double :=
  let '(geometry, config, solver) := rank in
  solver ← SetSurface_Sensitivity b id geometry config solver;
  Returns (CDiscAdjSolver.Total_Sens_Geo solver).

(** Every rank runs [SetSurface_Sensitivity]; in the receive buffer of the
    rank [r] the collective leaves the reduction of what the rank passes to
    it and of the send buffers of the other ranks. *)
Definition SPMD_SetSurface_Sensitivity (b : build) (ranks : job)
  : outcome (list CDiscAdjSolver.t) :=
  sendbufs ← mapM (sendbuf_of b) ranks;
  mapM (fun '(r, (geometry, config, solver)) =>
          SetSurface_Sensitivity b
            (fun sendbuf => MPI_SUM (<[r := sendbuf]> sendbufs))
            geometry config solver)
       (imap pair ranks).

End Collective.

(** ** Extraction of the adjoint solution *)

(** Modelled from the spec: [CVariable::GetAdjointSolution] and its
    time-level variants ([variable_structure.inl] is not among the sources)
    copy the adjoint value of every solution variable of the point. *)
Definition GetAdjointSolution (tp : AD.tape) (d : CDirectVariable.t)
  : list su2double :=
  AD.GetDerivative tp <$> CDirectVariable.Solution d.

(** Modelled from the spec: [CVariable::GetAdjointSolution_time_n], the
    adjoint values of the solution at time level n. *)
Definition GetAdjointSolution_time_n (tp : AD.tape) (d : CDirectVariable.t)
  : list su2double :=
  AD.GetDerivative tp <$> CDirectVariable.Solution_time_n d.

(** Modelled from the spec: [CVariable::GetAdjointSolution_time_n1], the
    adjoint values of the solution at time level n-1. *)
Definition GetAdjointSolution_time_n1 (tp : AD.tape) (d : CDirectVariable.t)
  : list su2double :=
  AD.GetDerivative tp <$> CDirectVariable.Solution_time_n1 d.

Definition time_n_needed (config : CConfig.t) : bool :=
  bool_decide (CConfig.Unsteady_Simulation config = DT_STEPPING_1ST)
  || bool_decide (CConfig.Unsteady_Simulation config = DT_STEPPING_2ND).

Definition time_n1_needed (config : CConfig.t) : bool :=
  bool_decide (CConfig.Unsteady_Simulation config = DT_STEPPING_2ND).

(** One of the three loops over the points: extract with [get] into the
    buffer [Solution], then store the buffer in the node with [set]. *)
Definition extract_points (tp : AD.tape) (direct_solver : CSolver.t)
    (get : AD.tape -> CDirectVariable.t -> list su2double)
    (set : list su2double -> CVariable.t -> CVariable.t)
    (old : CVariable.t -> CVariable.t)
    (solver : CDiscAdjSolver.t) : outcome CDiscAdjSolver.t :=
  for_loop (CDiscAdjSolver.nPoint solver) 0
    (fun iPoint solver =>
       v ← load (CDiscAdjSolver.node solver) iPoint;
       let v := old v in
       d ← load (CSolver.node direct_solver) iPoint;
       let Solution := get tp d in
       node ← store (CDiscAdjSolver.node solver) iPoint (set Solution v);
       Returns (CDiscAdjSolver.set_node node
                  (CDiscAdjSolver.set_Solution Solution solver)))
    solver.

(** [node[iPoint]->Set_OldSolution()] *)
Definition Set_OldSolution (v : CVariable.t) : CVariable.t :=
  CVariable.set_Solution_Old (CVariable.Solution v) v.

Section ExtractAdjoint.

(** The residual members after the bookkeeping of the base class [CSolver]
    ([SetRes_RMS], [SetRes_Max], [AddRes_RMS], [AddRes_Max],
    [SetResidual_RMS]; [solver_structure] is not among the sources): it
    reads the nodes and writes [Residual_RMS], [Residual_Max], [Point_Max]
    and [Point_Max_Coord] only, and [SetResidual_RMS] may end the run. *)
Variable residuals :
  CGeometry.t -> CConfig.t -> CDiscAdjSolver.t ->
  outcome (list su2double * list su2double * list nat * list (list su2double)).

(** [CDiscAdjSolver::ExtractAdjoint_Solution] *)
Definition ExtractAdjoint_Solution (tp : AD.tape) (direct_solver : CSolver.t)
    (geometry : CGeometry.t) (config : CConfig.t) (solver : CDiscAdjSolver.t)
  : outcome CDiscAdjSolver.t :=
  solver ← extract_points tp direct_solver GetAdjointSolution
             CVariable.set_Solution Set_OldSolution solver;
  solver ←
    (if time_n_needed config then
       extract_points tp direct_solver GetAdjointSolution_time_n
         CVariable.set_Solution_time_n id solver
     else Returns solver);
  solver ←
    (if time_n1_needed config then
       extract_points tp direct_solver GetAdjointSolution_time_n1
         CVariable.set_Solution_time_n1 id solver
     else Returns solver);
  '(rms, max, point, coord) ← residuals geometry config solver;
  Returns
    (CDiscAdjSolver.set_Point_Max_Coord coord
       (CDiscAdjSolver.set_Point_Max point
          (CDiscAdjSolver.set_Residual_Max max
             (CDiscAdjSolver.set_Residual_RMS rms solver)))).

End ExtractAdjoint.

(** The accessor the table of [RegisterObj_Func] gives for a selector. *)
Definition accessor_of (kind : ENUM_OBJECTIVE) : option accessor :=
  match kind with
  | DRAG_COEFFICIENT => Some GetTotal_CDrag
  | LIFT_COEFFICIENT => Some GetTotal_CLift
  | SIDEFORCE_COEFFICIENT => Some GetTotal_CSideForce
  | EFFICIENCY => Some GetTotal_CEff
  | MOMENT_X_COEFFICIENT => Some GetTotal_CMx
  | MOMENT_Y_COEFFICIENT => Some GetTotal_CMy
  | MOMENT_Z_COEFFICIENT => Some GetTotal_CMz
  | EQUIVALENT_AREA => Some GetTotal_CEquivArea
  | AVG_TOTAL_PRESSURE => Some GetOneD_TotalPress
  | AVG_OUTLET_PRESSURE => Some GetOneD_FluxAvgPress
  | MASS_FLOW_RATE => Some GetOneD_MassFlowRate
  | THRUST_NOZZLE => Some GetThrust_Nozzle
  | OBJECTIVE_OTHER _ => None
  end.

(** The same line with its index column rewritten by [f]. *)
Definition reindex (f : nat -> nat) (line : text_line) : text_line :=
  Line (f <$> index_column line) (value_columns line) (unparsed line).

(** Every non-negative entry of [Global2Local] is the local index of a point
    of the domain whose global index is the position of the entry. *)
Definition Global2Local_ok (geometry : CGeometry.t) (i : nat)
    (Global2Local : list Z) : Prop :=
  forall g z, Global2Local !! g = Some z -> (0 <= z)%Z ->
    exists j p, z = Z.of_nat j /\ j < i /\
                CGeometry.node geometry !! j = Some p /\
                CPoint.GlobalIndex p = g.

(** ** The surface sensitivity in the words of the specification *)

(** The coordinate-derivative vector the solver holds for a point. *)
Definition point_Sensitivity (solver : CDiscAdjSolver.t) (iPoint : nat)
  : list su2double :=
  default [] (CVariable.Sensitivity <$> CDiscAdjSolver.node solver !! iPoint).

(** The dot product of the first [nDim] components. *)
Definition dot (nDim : nat) (x y : list su2double) : su2double :=
  foldl (fun acc xy => acc + xy.1 * xy.2)%D Double.zero
        (zip (take nDim x) (take nDim y)).

(** The projection of [v] onto the unit vector along [Normal]: the dot
    product divided by the magnitude of the normal. *)
Definition projection (nDim : nat) (Normal v : list su2double) : su2double :=
  (dot nDim Normal v / Double.sqrt (dot nDim Normal Normal))%D.

Definition vertex_Sens (solver : CDiscAdjSolver.t) (vertex : CVertex.t)
  : su2double :=
  projection (CDiscAdjSolver.nDim solver) (CVertex.Normal vertex)
             (point_Sensitivity solver (CVertex.Node vertex)).

Definition flipped (geometry : CGeometry.t) (vertex : CVertex.t) : bool :=
  default false
    (CPoint.Flip_Orientation <$> CGeometry.node geometry !! CVertex.Node vertex).

(** The vertex is at a point the partition owns (not a halo point). *)
Definition owned (geometry : CGeometry.t) (vertex : CVertex.t) : bool :=
  default false
    (CPoint.Domain <$> CGeometry.node geometry !! CVertex.Node vertex).

Definition vertices_of (geometry : CGeometry.t) (iMarker : nat)
  : list CVertex.t :=
  default [] (CGeometry.vertex geometry !! iMarker).

Definition selected (config : CConfig.t) (iMarker : nat) : bool :=
  default false
    (is_wall_of_interest <$> CConfig.Marker_All_KindBC config !! iMarker).

(** The per-vertex surface sensitivity: the projection, with the sign the
    code gives it (see [surface_vertex]). *)
Definition vertex_CSensitivity (geometry : CGeometry.t)
    (solver : CDiscAdjSolver.t) (vertex : CVertex.t) : su2double :=
  if flipped geometry vertex then vertex_Sens solver vertex
  else (- vertex_Sens solver vertex)%D.

(** The sum of the squares of the per-vertex sensitivities over the owned
    vertices. *)
Definition sum_of_squares (geometry : CGeometry.t) (solver : CDiscAdjSolver.t)
    (vertices : list CVertex.t) : su2double :=
  sum_doubles
    ((fun vertex => vertex_CSensitivity geometry solver vertex
                    * vertex_CSensitivity geometry solver vertex)%D
       <$> filter (fun vertex => owned geometry vertex = true) vertices).

(** The sum, over the selected markers, of the square roots of their sums of
    squares. *)
Definition local_Total_Sens_Geo (geometry : CGeometry.t) (config : CConfig.t)
    (solver : CDiscAdjSolver.t) : su2double :=
  sum_doubles
    ((fun iMarker =>
        Double.sqrt
          (sum_of_squares geometry solver (vertices_of geometry iMarker)))
       <$> filter (fun iMarker => selected config iMarker = true)
                  (seq 0 (CDiscAdjSolver.nMarker solver))).

(** ** Well-formed inputs

    The sizes under which the loops stay inside their arrays. *)

(** The point of the vertex exists in the mesh and in the solver, and its
    normal and its sensitivities have a component per dimension. *)
Definition wf_vertex (geometry : CGeometry.t) (solver : CDiscAdjSolver.t)
    (vertex : CVertex.t) : Prop :=
  CVertex.Node vertex < length (CGeometry.node geometry) /\
  CDiscAdjSolver.nDim solver <= length (CVertex.Normal vertex) /\
  exists v,
    CDiscAdjSolver.node solver !! CVertex.Node vertex = Some v /\
    CDiscAdjSolver.nDim solver <= length (CVariable.Sensitivity v).

(** [Sens_Geo] and the marker kinds have an entry per marker, and every
    selected marker has its vertices and a row of [CSensitivity] that holds
    them. *)
Definition wf_surface (geometry : CGeometry.t) (config : CConfig.t)
    (solver : CDiscAdjSolver.t) : Prop :=
  CDiscAdjSolver.nMarker solver <= length (CDiscAdjSolver.Sens_Geo solver) /\
  CDiscAdjSolver.nMarker solver <= length (CConfig.Marker_All_KindBC config) /\
  forall m, m < CDiscAdjSolver.nMarker solver -> selected config m = true ->
    exists vertices row,
      CGeometry.vertex geometry !! m = Some vertices /\
      CDiscAdjSolver.CSensitivity solver !! m = Some row /\
      length vertices <= length row /\
      Forall (wf_vertex geometry solver) vertices.

(** The mesh and the solver hold [nPoint] points with a coordinate and a
    sensitivity per dimension. *)
Definition wf_points (geometry : CGeometry.t) (solver : CDiscAdjSolver.t)
  : Prop :=
  CDiscAdjSolver.nPoint solver <= length (CGeometry.node geometry) /\
  CDiscAdjSolver.nPoint solver <= length (CDiscAdjSolver.node solver) /\
  Forall (fun p => CDiscAdjSolver.nDim solver <= length (CPoint.Coord p))
         (CGeometry.node geometry) /\
  Forall (fun v => CDiscAdjSolver.nDim solver
                   <= length (CVariable.Sensitivity v))
         (CDiscAdjSolver.node solver).

(** The surface loops change the content of [CSensitivity] and [Sens_Geo]
    but no size, and leave the points alone. *)
Definition same_shape (solver solver' : CDiscAdjSolver.t) : Prop :=
  CDiscAdjSolver.node solver' = CDiscAdjSolver.node solver /\
  CDiscAdjSolver.nDim solver' = CDiscAdjSolver.nDim solver /\
  CDiscAdjSolver.nMarker solver' = CDiscAdjSolver.nMarker solver /\
  length (CDiscAdjSolver.Sens_Geo solver')
  = length (CDiscAdjSolver.Sens_Geo solver) /\
  forall m row,
    CDiscAdjSolver.CSensitivity solver !! m = Some row ->
    exists row',
      CDiscAdjSolver.CSensitivity solver' !! m = Some row' /\
      length row' = length row.

(** The loops of [SetSensitivity] over the points reset the handles of the
    coordinates and write the sensitivities of the points: they change no
    size and touch nothing the surface loops depend on but the
    sensitivities. *)
Definition points_shape (st st' : CGeometry.t * CDiscAdjSolver.t) : Prop :=
  CGeometry.vertex st'.1 = CGeometry.vertex st.1 /\
  Forall2 (fun p p' => length (CPoint.Coord p') = length (CPoint.Coord p))
          (CGeometry.node st.1) (CGeometry.node st'.1) /\
  Forall2 (fun v v' => length (CVariable.Sensitivity v')
                       = length (CVariable.Sensitivity v))
          (CDiscAdjSolver.node st.2) (CDiscAdjSolver.node st'.2) /\
  CDiscAdjSolver.nPoint st'.2 = CDiscAdjSolver.nPoint st.2 /\
  CDiscAdjSolver.nDim st'.2 = CDiscAdjSolver.nDim st.2 /\
  CDiscAdjSolver.nMarker st'.2 = CDiscAdjSolver.nMarker st.2 /\
  CDiscAdjSolver.CSensitivity st'.2 = CDiscAdjSolver.CSensitivity st.2 /\
  CDiscAdjSolver.Sens_Geo st'.2 = CDiscAdjSolver.Sens_Geo st.2.

(** A restart file that fits the partition: the mesh has the markers of the
    configuration, the points of the domain come first among the points of
    the mesh and of the primal solver, they have distinct global indices,
    and the [lines] after the header are as many as the global points at
    most and reach the global index of every point of the domain. *)
Definition wf_restart (geometry : CGeometry.t) (config : CConfig.t)
    (direct_solver : CSolver.t) (lines : list text_line) : Prop :=
  GetnMarker_All config <= length (CGeometry.vertex geometry) /\
  CGeometry.nPointDomain geometry <= CGeometry.nPoint geometry /\
  CGeometry.nPointDomain geometry <= length (CGeometry.node geometry) /\
  CGeometry.nPoint geometry <= length (CSolver.node direct_solver) /\
  length lines <= CGeometry.Global_nPointDomain geometry /\
  (forall i p, i < CGeometry.nPointDomain geometry ->
     CGeometry.node geometry !! i = Some p ->
     CPoint.GlobalIndex p < length lines) /\
  (forall i j p q,
     i < CGeometry.nPointDomain geometry ->
     j < CGeometry.nPointDomain geometry ->
     CGeometry.node geometry !! i = Some p ->
     CGeometry.node geometry !! j = Some q ->
     CPoint.GlobalIndex p = CPoint.GlobalIndex q -> i = j).

(** ** Recording: the primal state, its registration and its seeding *)

(** Modelled from the spec: [CVariable::SetSolution(val_solution)]
    ([variable_structure.inl] is not among the sources) assigns the [nVar]
    values to the solution of the point.  The adjoint solver keeps the
    direct solution by value (see [CVariable.t]), so the variables assigned
    are not on the tape. *)
Definition SetSolution (val_solution : list su2double)
    (d : CDirectVariable.t) : CDirectVariable.t :=
  CDirectVariable.set_Solution
    ((fun x => AD.Var x AD.passive) <$> val_solution) d.

(** Modelled from the spec: [CSysMatrix::SetValZero]
    ([matrix_structure.cpp] is not among the sources); the implicit Jacobian
    is seen as the array of its stored entries. *)
Definition SetValZero (Jacobian : list su2double) : list su2double :=
  replicate (length Jacobian) Double.zero.

(** [AD::RegisterInput] on the entries of an array, from the first. *)
Fixpoint RegisterInputs (tp : AD.tape) (xs : list AD.var)
  : AD.tape * list AD.var :=
  match xs with
  | [] => (tp, [])
  | x :: xs =>
      let '(tp, x) := AD.RegisterInput tp x in
      let '(tp, xs) := RegisterInputs tp xs in
      (tp, x :: xs)
  end.

(** Registration as input of the array of a point that [get] reads and
    [set] writes. *)
Definition register_as_input
    (get : CDirectVariable.t -> list AD.var)
    (set : list AD.var -> CDirectVariable.t -> CDirectVariable.t)
    (tp : AD.tape) (d : CDirectVariable.t) : AD.tape * CDirectVariable.t :=
  let '(tp, xs) := RegisterInputs tp (get d) in (tp, set xs d).

(** Modelled from the spec: [CVariable::RegisterSolution(input)] registers
    every solution variable of the point, as input or as output. *)
Definition CVariable_RegisterSolution (input : bool) (tp : AD.tape)
    (d : CDirectVariable.t) : AD.tape * CDirectVariable.t :=
  if input then
    register_as_input CDirectVariable.Solution CDirectVariable.set_Solution
                      tp d
  else (foldl AD.RegisterOutput tp (CDirectVariable.Solution d), d).

(** Modelled from the spec: [CVariable::RegisterSolution_time_n] registers
    the solution at time level n as input. *)
Definition RegisterSolution_time_n (tp : AD.tape) (d : CDirectVariable.t)
  : AD.tape * CDirectVariable.t :=
  register_as_input CDirectVariable.Solution_time_n
                    CDirectVariable.set_Solution_time_n tp d.

(** Modelled from the spec: [CVariable::RegisterSolution_time_n1] registers
    the solution at time level n-1 as input. *)
Definition RegisterSolution_time_n1 (tp : AD.tape) (d : CDirectVariable.t)
  : AD.tape * CDirectVariable.t :=
  register_as_input CDirectVariable.Solution_time_n1
                    CDirectVariable.set_Solution_time_n1 tp d.

(** Modelled from the spec: [CVariable::SetAdjointSolution(adj_sol)] seeds
    every solution variable of the point with the entry of [adj_sol] at its
    position. *)
Definition SetAdjointSolution (tp : AD.tape) (adj_sol : list su2double)
    (d : CDirectVariable.t) : AD.tape :=
  foldl (fun tp xa => AD.SetDerivative tp xa.1 xa.2) tp
        (zip (CDirectVariable.Solution d) adj_sol).

(** One of the loops over the points of [RegisterSolution] and
    [RegisterOutput]: [direct_solver->node[iPoint]->register()]. *)
Definition register_points (nPoint : nat)
    (register : AD.tape -> CDirectVariable.t -> AD.tape * CDirectVariable.t)
    (st : CSolver.t * AD.tape) : outcome (CSolver.t * AD.tape) :=
  for_loop nPoint 0
    (fun iPoint '(direct_solver, tp) =>
       d ← load (CSolver.node direct_solver) iPoint;
       let '(tp, d) := register tp d in
       node ← store (CSolver.node direct_solver) iPoint d;
       Returns (CSolver.set_node node direct_solver, tp))
    st.

(** [CDiscAdjSolver::RegisterSolution] *)
Definition RegisterSolution (geometry : CGeometry.t) (config : CConfig.t)
    (direct_solver : CSolver.t) (tp : AD.tape)
  : outcome (CSolver.t * AD.tape) :=
  let nPoint := CGeometry.nPoint geometry in
  let input := true in
  st ← register_points nPoint (CVariable_RegisterSolution input)
         (direct_solver, tp);
  st ← (if time_n_needed config then
          register_points nPoint RegisterSolution_time_n st
        else Returns st);
  if time_n1_needed config then
    register_points nPoint RegisterSolution_time_n1 st
  else Returns st.

(** [CDiscAdjSolver::RegisterOutput] *)
Definition RegisterOutput (geometry : CGeometry.t) (config : CConfig.t)
    (direct_solver : CSolver.t) (tp : AD.tape)
  : outcome (CSolver.t * AD.tape) :=
  let nPoint := CGeometry.nPoint geometry in
  let input := false in
  register_points nPoint (CVariable_RegisterSolution input)
    (direct_solver, tp).

Section Recording.

Variables (cos sin : su2double -> su2double) (PI_NUMBER : su2double).

(** [CDiscAdjSolver::SetRecording]; [Jacobian] is [direct_solver->Jacobian],
    which [CSolver.t] does not list. *)
Definition SetRecording (config : CConfig.t) (direct_solver : CSolver.t)
    (Jacobian : list su2double) (solver : CDiscAdjSolver.t) (tp : AD.tape)
  : outcome (CConfig.t * CSolver.t * list su2double * CDiscAdjSolver.t
             * AD.tape) :=
  node ← for_loop (CDiscAdjSolver.nPoint solver) 0
            (fun iPoint node =>
               v ← load (CDiscAdjSolver.node solver) iPoint;
               d ← load node iPoint;
               store node iPoint (SetSolution (CVariable.Solution_Direct v) d))
            (CSolver.node direct_solver);
  let direct_solver := CSolver.set_node node direct_solver in
  let Jacobian := SetValZero Jacobian in
  '(config, direct_solver, solver, tp) ←
    RegisterVariables cos sin PI_NUMBER config direct_solver solver tp true;
  Returns (config, direct_solver, Jacobian, solver, tp).

End Recording.

(** The members [Total_Sens_Mach], [Total_Sens_AoA], [Total_Sens_Temp] and
    [Total_Sens_Press] of the solver, which [CDiscAdjSolver.t] does not
    list. *)
Record Total_Sens : Type := Build_Total_Sens {
  Total_Sens_Mach : su2double;
  Total_Sens_AoA : su2double;
  Total_Sens_Temp : su2double;
  Total_Sens_Press : su2double
}.

(** [CDiscAdjSolver::ExtractAdjoint_Variables].  [Allreduce k sendbuf] is
    what the [k]-th of the four collectives leaves in its receive buffer on
    this rank. *)
Definition ExtractAdjoint_Variables (b : build)
    (Allreduce : nat -> su2double -> su2double) (tp : AD.tape)
    (config : CConfig.t) (solver : CDiscAdjSolver.t) (totals : Total_Sens)
  : Total_Sens :=
  if is_compressible_flow config solver then
    let Local_Sens_Mach := AD.GetDerivative tp (CDiscAdjSolver.Mach solver) in
    let Local_Sens_AoA := AD.GetDerivative tp (CDiscAdjSolver.Alpha solver) in
    let Local_Sens_Temp :=
      AD.GetDerivative tp (CDiscAdjSolver.Temperature solver) in
    let Local_Sens_Press :=
      AD.GetDerivative tp (CDiscAdjSolver.Pressure solver) in
    match b with
    | HAVE_MPI _ =>
        Build_Total_Sens (Allreduce 0 Local_Sens_Mach)
                         (Allreduce 1 Local_Sens_AoA)
                         (Allreduce 2 Local_Sens_Temp)
                         (Allreduce 3 Local_Sens_Press)
    | Serial =>
        Build_Total_Sens Local_Sens_Mach Local_Sens_AoA Local_Sens_Temp
                         Local_Sens_Press
    end
  else totals.

(** [CDiscAdjSolver::SetAdjoint_Output].  [Dual_Time_Derivative] holds, for
    every point, the array [GetDual_Time_Derivative] reads, which
    [CVariable.t] does not list. *)
Definition SetAdjoint_Output (Dual_Time_Derivative : list (list su2double))
    (direct_solver : CSolver.t) (config : CConfig.t)
    (solver : CDiscAdjSolver.t) (tp : AD.tape)
  : outcome (CDiscAdjSolver.t * AD.tape) :=
  let dual_time :=
    bool_decide (CConfig.Unsteady_Simulation config = DT_STEPPING_1ST)
    || bool_decide (CConfig.Unsteady_Simulation config = DT_STEPPING_2ND) in
  let nVar := CDiscAdjSolver.nVar solver in
  for_loop (CDiscAdjSolver.nPoint solver) 0
    (fun iPoint '(solver, tp) =>
       v ← load (CDiscAdjSolver.node solver) iPoint;
       Solution ← for_loop nVar 0
                    (fun iVar Solution =>
                       x ← load (CVariable.Solution v) iVar;
                       store Solution iVar x)
                    (CDiscAdjSolver.Solution solver);
       Solution ←
         (if dual_time then
            derivative ← load Dual_Time_Derivative iPoint;
            for_loop nVar 0
              (fun iVar Solution =>
                 s ← load Solution iVar;
                 x ← load derivative iVar;
                 store Solution iVar (s + x)%D)
              Solution
          else Returns Solution);
       d ← load (CSolver.node direct_solver) iPoint;
       Returns (CDiscAdjSolver.set_Solution Solution solver,
                SetAdjointSolution tp Solution d))
    (solver, tp).

(** ** The coordinates after the extraction of their derivatives *)

(** The point [p'] is the point [p] with the handles of its first [n]
    coordinates reset: the values of the coordinates and everything else in
    the point are the same. *)
Definition coordinates_reset (n : nat) (p p' : CPoint.t) : Prop :=
  CPoint.GlobalIndex p' = CPoint.GlobalIndex p /\
  CPoint.SharpEdge_Distance p' = CPoint.SharpEdge_Distance p /\
  CPoint.Flip_Orientation p' = CPoint.Flip_Orientation p /\
  CPoint.Domain p' = CPoint.Domain p /\
  forall iDim,
    CPoint.Coord p' !! iDim
    = if decide (iDim < n) then AD.ResetInput <$> CPoint.Coord p !! iDim
      else CPoint.Coord p !! iDim.

(** A double that is neither an infinity nor a NaN. *)
Definition is_finite (x : su2double) : bool :=
  match x with
  | S754_zero _ | S754_finite _ _ _ => true
  | _ => false
  end.

(** A double that is a zero of either sign. *)
Definition is_zero (x : su2double) : bool :=
  match x with
  | S754_zero _ => true
  | _ => false
  end.

(** ** The outward normal, in the words of the specification *)

(** Two doubles that are the same number: they are equal, or they are zeros
    that differ in their sign only. *)
Definition same_number (x y : su2double) : Prop :=
  x = y \/ (is_zero x = true /\ is_zero y = true).

(** The outward normal of a boundary vertex.  The vertex normal the mesh
    stores points into the domain, and the repository negates it to obtain
    the outward one ([solver_direct_heat.cpp], "Normal vector for this
    vertex (negate for outward convention)"). *)
Definition outward_normal (vertex : CVertex.t) : list su2double :=
  Double.opp <$> CVertex.Normal vertex.

(** The projection of the coordinate-derivative vector of the point of the
    vertex onto the outward unit normal: the dot product with the outward
    normal divided by its magnitude. *)
Definition outward_projection (solver : CDiscAdjSolver.t)
    (vertex : CVertex.t) : su2double :=
  projection (CDiscAdjSolver.nDim solver) (outward_normal vertex)
             (point_Sensitivity solver (CVertex.Node vertex)).

(** The wall kinds the specification lists: the no-slip walls, adiabatic or
    with a prescribed heat flux ([HEAT_FLUX]) and isothermal
    ([ISOTHERMAL]). *)
Definition no_slip_wall (kind : BC_TYPE) : bool :=
  bool_decide (kind = HEAT_FLUX) || bool_decide (kind = ISOTHERMAL).

(** ** Concrete inputs *)

Module Example.

Definition two : su2double := Eval vm_compute in Double.of_Z 2.
Definition three : su2double := Eval vm_compute in Double.of_Z 3.

(** A tape that holds the derivative [i] under the handle [i]. *)
Definition tape0 : AD.tape :=
  AD.Tape (fun i => Double.of_Z (Z.of_nat i)) 0 [].

Definition config0 : CConfig.t :=
  CConfig.Build false "solution_adj.dat" (fun s => (s ++ "_cd")%string)
    DRAG_COEFFICIENT COMPRESSIBLE STEADY [EULER_WALL; BC_OTHER 0]
    true Double.one Double.one Double.one
    Double.one Double.zero Double.zero Double.one Double.one Double.one
    [Double.one; Double.zero; Double.zero].

(** A primal solver with one variable per point and two points; every
    scalar accessor returns an active variable of value 2 and handle 7. *)
Definition direct0 : CSolver.t :=
  CSolver.Build 1
    [CDirectVariable.Build [AD.Var Double.one 1] [AD.Var Double.one 2]
                           [AD.Var Double.one 3];
     CDirectVariable.Build [AD.Var two 4] [AD.Var two 5] [AD.Var two 6]]
    (fun _ => AD.Var two 7) Double.one Double.one.

Definition node0 : CVariable.t :=
  CVariable.Build [Double.zero] [Double.zero] [Double.zero] [Double.zero]
                  [Double.zero] [Double.one; Double.zero].

Definition solver0 : CDiscAdjSolver.t :=
  CDiscAdjSolver.Build 1 2 2 2 2 RUNTIME_FLOW_SYS [node0; node0]
    [Double.one] [Double.one] [Double.one] [0] [[Double.zero; Double.zero]]
    [Double.lit_1e_16] [[Double.zero]; []]
    [Double.zero; Double.zero] [Double.zero; Double.zero]
    [Double.zero; Double.zero] [Double.zero; Double.zero]
    [Double.zero; Double.zero]
    Double.zero
    (AD.Var Double.zero 0) (AD.Var Double.zero 0) (AD.Var Double.zero 0)
    (AD.Var Double.zero 0) (AD.Var Double.zero 0)
    (AD.Var Double.zero 9).


(** A partition of two points, both owned; the local points 0 and 1 are the
    global points 1 and 0.  Two markers, the first with one vertex at local
    point 0 and normal (2, 0). *)
Definition geometry0 : CGeometry.t :=
  CGeometry.Build 2 2 2 2
    [CPoint.Build 1 [AD.Var Double.zero 11; AD.Var Double.zero 12]
                  Double.zero false true;
     CPoint.Build 0 [AD.Var Double.one 13; AD.Var Double.one 14]
                  three true true]
    [[CVertex.Build 0 [two; Double.zero]]; []].

Definition no_files : filesystem := fun _ => None.

(** A restart of the finest mesh. *)
Definition config_restart : CConfig.t :=
  CConfig.Build true "solution_adj.dat" (fun s => (s ++ "_cd")%string)
    DRAG_COEFFICIENT COMPRESSIBLE STEADY [EULER_WALL; BC_OTHER 0]
    true Double.one Double.one Double.one
    Double.one Double.zero Double.zero Double.one Double.one Double.one
    [Double.one; Double.zero; Double.zero].

(** A restart file for two global points, two coordinates and one variable:
    the header, then a line holding the value 2 and a line holding the
    value 3.  The index columns say 1 and 0, against the line positions. *)
Definition restart_lines : list text_line :=
  [Line None [] false;
   Line (Some 1) [Double.zero; Double.zero; two] false;
   Line (Some 0) [Double.one; Double.one; three] false].

Definition with_file : filesystem :=
  fun name => if String.eqb name "solution_adj.dat_cd"
              then Some restart_lines else None.

(** The solver rank 0 constructs from [restart_lines]. *)
Definition restarted : CDiscAdjSolver.t :=
  Eval vm_compute in
    match CDiscAdjSolver_new (HAVE_MPI 2) 0 with_file solver0 geometry0
            config_restart direct0 RUNTIME_FLOW_SYS MESH_0 with
    | Returns solver => solver
    | _ => solver0
    end.

(** The reduction of a job, rank after rank from the left. *)
Definition sum_in_rank_order (l : list su2double) : su2double :=
  match l with
  | [] => Double.zero
  | x :: l => foldl Double.add x l
  end.

(** The solver of rank 0 after the surface sensitivities are set in a serial
    run. *)
Definition surfaced : CDiscAdjSolver.t :=
  Eval vm_compute in
    match SetSurface_Sensitivity Serial id geometry0 config0 solver0 with
    | Returns solver => solver
    | _ => solver0
    end.

(** A second partition: a wall marker with two vertices at the local points
    0 (owned) and 1 (a halo point), normals (0, 3) and (2, 0). *)
Definition geometry1 : CGeometry.t :=
  CGeometry.Build 2 2 1 2
    [CPoint.Build 0 [AD.Var Double.zero 11; AD.Var Double.zero 12]
                  Double.zero true true;
     CPoint.Build 1 [AD.Var Double.one 13; AD.Var Double.one 14]
                  three false false]
    [[CVertex.Build 0 [Double.zero; three];
      CVertex.Build 1 [two; Double.zero]]; []].

Definition node1 : CVariable.t :=
  CVariable.Build [Double.zero] [Double.zero] [Double.zero] [Double.zero]
                  [Double.zero] [Double.one; two].

Definition solver1 : CDiscAdjSolver.t :=
  CDiscAdjSolver.set_CSensitivity [[Double.zero; Double.zero]; []]
    (CDiscAdjSolver.set_node [node1; node0] solver0).

Definition two_ranks : job :=
  [(geometry0, config0, solver0); (geometry1, config0, solver1)].

Definition reduced : list CDiscAdjSolver.t :=
  Eval vm_compute in
    match SPMD_SetSurface_Sensitivity sum_in_rank_order (HAVE_MPI 2)
            two_ranks with
    | Returns solvers => solvers
    | _ => []
    end.

(** The geometry and the solver after [SetSensitivity] with [tape0]. *)
Definition sensitized : CGeometry.t * CDiscAdjSolver.t :=
  Eval vm_compute in
    match SetSensitivity Serial id tape0 geometry0 config0 solver0 with
    | Returns r => r
    | _ => (geometry0, solver0)
    end.

(** [PI_NUMBER] as the double nearest to pi, and stand-ins for [cos] and
    [sin] that are exact at the angle 0, the only angle of [config0]. *)
Definition PI_NUMBER : su2double :=
  S754_finite false 7074237752028440%positive (-51)%Z.
Definition cos_at_0 : su2double -> su2double := fun _ => Double.one.
Definition sin_at_0 : su2double -> su2double := fun _ => Double.zero.

Definition registered
  : CConfig.t * CSolver.t * CDiscAdjSolver.t * AD.tape :=
  Eval vm_compute in
    match RegisterVariables cos_at_0 sin_at_0 PI_NUMBER config0 direct0
            solver0 tape0 false with
    | Returns r => r
    | _ => (config0, direct0, solver0, tape0)
    end.

(** The residual bookkeeping that leaves the residual members alone. *)
Definition keep_residuals (geometry : CGeometry.t) (config : CConfig.t)
    (solver : CDiscAdjSolver.t)
  : outcome (list su2double * list su2double * list nat
             * list (list su2double)) :=
  Returns (CDiscAdjSolver.Residual_RMS solver,
           CDiscAdjSolver.Residual_Max solver,
           CDiscAdjSolver.Point_Max solver,
           CDiscAdjSolver.Point_Max_Coord solver).

(** Second-order dual time stepping. *)
Definition config_dt2 : CConfig.t :=
  CConfig.Build false "solution_adj.dat" (fun s => (s ++ "_cd")%string)
    DRAG_COEFFICIENT COMPRESSIBLE DT_STEPPING_2ND [EULER_WALL; BC_OTHER 0]
    true Double.one Double.one Double.one
    Double.one Double.zero Double.zero Double.one Double.one Double.one
    [Double.one; Double.zero; Double.zero].

Definition extracted : CDiscAdjSolver.t :=
  Eval vm_compute in
    match ExtractAdjoint_Solution keep_residuals tape0 direct0 geometry0
            config_dt2 solver0 with
    | Returns solver => solver
    | _ => solver0
    end.

(** The solver of a coarse mesh level: the restart option is on, no file
    can be opened. *)
Definition coarse : CDiscAdjSolver.t :=
  Eval vm_compute in
    match CDiscAdjSolver_new Serial 0 no_files solver0 geometry0
            config_restart direct0 RUNTIME_FLOW_SYS 1 with
    | Returns solver => solver
    | _ => solver0
    end.

(** A restart file with the header and one data line, for a mesh of two
    global points. *)
Definition short_lines : list text_line :=
  [Line None [] false;
   Line (Some 0) [Double.zero; Double.zero; two] false].

Definition with_short_file : filesystem :=
  fun name => if String.eqb name "solution_adj.dat_cd"
              then Some short_lines else None.

(** [restart_lines] with its second data line, the line of global point 1,
    replaced by a line that holds nothing. *)
Definition other_lines : list text_line :=
  [Line None [] false;
   Line (Some 1) [Double.zero; Double.zero; two] false;
   Line None [] false].

Definition with_other_file : filesystem :=
  fun name => if String.eqb name "solution_adj.dat_cd"
              then Some other_lines else None.

(** The solver rank 1 constructs from [restart_lines] on [geometry1], whose
    second point is a halo point. *)
Definition restarted_halo : CDiscAdjSolver.t :=
  Eval vm_compute in
    match CDiscAdjSolver_new (HAVE_MPI 2) 1 with_file solver0 geometry1
            config_restart direct0 RUNTIME_FLOW_SYS MESH_0 with
    | Returns solver => solver
    | _ => solver0
    end.

(** The primal solver later in the run: the solution of both points has
    moved to 3. *)
Definition direct_later : CSolver.t :=
  CSolver.Build 1
    [CDirectVariable.Build [AD.Var three 21] [AD.Var Double.one 2]
                           [AD.Var Double.one 3];
     CDirectVariable.Build [AD.Var three 22] [AD.Var two 5] [AD.Var two 6]]
    (fun _ => AD.Var two 7) Double.one Double.one.

(** The dual-time derivatives of the two points. *)
Definition dual_time_derivatives : list (list su2double) :=
  [[Double.one]; [two]].

(** [geometry0] with the normal of its wall vertex shrunk to zero. *)
Definition geometry_flat : CGeometry.t :=
  CGeometry.Build 2 2 2 2
    [CPoint.Build 1 [AD.Var Double.zero 11; AD.Var Double.zero 12]
                  Double.zero false true;
     CPoint.Build 0 [AD.Var Double.one 13; AD.Var Double.one 14]
                  three true true]
    [[CVertex.Build 0 [Double.zero; Double.zero]]; []].

(** [config0] with the free-stream velocity (1, 1, 0), which the angle of
    attack 0 would not give. *)
Definition config_skewed : CConfig.t :=
  CConfig.set_Velocity_FreeStreamND [Double.one; Double.one; Double.zero]
                                    config0.

(** The same configuration for the incompressible regime. *)
Definition config_incompressible : CConfig.t :=
  CConfig.Build false "solution_adj.dat" (fun s => (s ++ "_cd")%string)
    DRAG_COEFFICIENT INCOMPRESSIBLE STEADY [EULER_WALL; BC_OTHER 0]
    true Double.one Double.one Double.one
    Double.one Double.zero Double.zero Double.one Double.one Double.one
    [Double.one; Double.one; Double.zero].

End Example.

(** * Properties *)

(** ** Facts about the arithmetic *)

Lemma add_zero_one : (Double.zero + Double.one)%D = Double.one.
Proof. reflexivity. Qed.

Lemma add_one_zero : (Double.one + Double.zero)%D = Double.one.
Proof. reflexivity. Qed.

Lemma one_neq_zero : Double.one <> Double.zero.
Proof. discriminate. Qed.

Lemma mul_opp_opp (x : su2double) : (- x * - x)%D = (x * x)%D.
Proof. destruct x as [[]| [] | |[] m e]; reflexivity. Qed.

Lemma opp_involutive (x : su2double) : (- - x)%D = x.
Proof. destruct x as [[]| [] | |[] m e]; reflexivity. Qed.

(** ** Inversion of the control-flow monad *)

Lemma bind_Returns {A B} (m : outcome A) (k : A -> outcome B) (r : B) :
  m ≫= k = Returns r -> exists a, m = Returns a /\ k a = Returns r.
Proof. destruct m; simpl; try discriminate. eauto. Qed.

Lemma load_Returns {A} (a : list A) (i : nat) (x : A) :
  load a i = Returns x <-> a !! i = Some x.
Proof.
  unfold load. destruct (a !! i); split; intros H; try discriminate;
    congruence.
Qed.

Lemma store_Returns {A} (a : list A) (i : nat) (x : A) (a' : list A) :
  store a i x = Returns a' <-> i < length a /\ a' = <[i := x]> a.
Proof.
  unfold store. destruct (decide (i < length a)); split.
  - intros [= <-]. auto.
  - intros [_ ->]. reflexivity.
  - discriminate.
  - intros [? _]. lia.
Qed.

Ltac inv_outcome :=
  repeat match goal with
    | H : _ ≫= _ = Returns _ |- _ =>
        let a := fresh "a" in
        let Ha := fresh "Ha" in
        apply bind_Returns in H; destruct H as (a & Ha & H)
    | H : Returns _ = Returns _ |- _ => injection H as H; try subst
    | H : (let '(_, _) := ?p in _) = Returns _ |- _ =>
        is_var p; destruct p
    | H : load _ _ = Returns _ |- _ => apply load_Returns in H
    | H : store _ _ _ = Returns _ |- _ =>
        let Hl := fresh "Hlen" in
        apply store_Returns in H; destruct H as [Hl H]; try subst
    | H : Undefined = Returns _ |- _ => discriminate H
    | H : Exit_Failure _ = Returns _ |- _ => discriminate H
    end.

(** A loop establishes an invariant that every iteration which returns
    carries one step further. *)
Lemma for_loop_inv {St} (I : nat -> St -> Prop) (n lo : nat)
    (body : nat -> St -> outcome St) (s s' : St) :
  I lo s ->
  (forall i s1 s2, lo <= i < lo + n -> I i s1 -> body i s1 = Returns s2 ->
                   I (S i) s2) ->
  for_loop n lo body s = Returns s' ->
  I (lo + n) s'.
Proof.
  revert lo s. induction n as [|n IH]; intros lo s H0 Hstep Hrun; simpl in Hrun.
  - injection Hrun as <-. by rewrite Nat.add_0_r.
  - inv_outcome. replace (lo + S n) with (S lo + n) by lia.
    apply (IH (S lo) a); [|intros; eapply Hstep; eauto; lia|done].
    eapply Hstep; eauto. lia.
Qed.

(** A loop returns when every iteration returns under an invariant that it
    carries one step further. *)
Lemma for_loop_total {St} (I : nat -> St -> Prop) (n lo : nat)
    (body : nat -> St -> outcome St) (s : St) :
  I lo s ->
  (forall i s1, lo <= i < lo + n -> I i s1 ->
                exists s2, body i s1 = Returns s2 /\ I (S i) s2) ->
  exists s', for_loop n lo body s = Returns s' /\ I (lo + n) s'.
Proof.
  revert lo s. induction n as [|n IH]; intros lo s H0 Hstep; simpl.
  - exists s. by rewrite Nat.add_0_r.
  - destruct (Hstep lo s ltac:(lia) H0) as (s1 & -> & H1). simpl.
    replace (lo + S n) with (S lo + n) by lia.
    apply IH; [done|]. intros i s2 Hi. apply Hstep. lia.
Qed.

Lemma load_lt {A} (a : list A) (i : nat) :
  i < length a -> exists x, load a i = Returns x /\ a !! i = Some x.
Proof.
  intros Hi. destruct (lookup_lt_is_Some_2 a i Hi) as [x Hx].
  exists x. unfold load. by rewrite Hx.
Qed.

Lemma store_lt {A} (a : list A) (i : nat) (x : A) :
  i < length a -> store a i x = Returns (<[i := x]> a).
Proof. intros Hi. unfold store. by destruct (decide (i < length a)). Qed.

(** ** The tape *)

Lemma GetDerivative_SetDerivative (tp : AD.tape) (x : AD.var) (d : su2double) :
  AD.GetDerivative (AD.SetDerivative tp x d) x = d.
Proof.
  unfold AD.GetDerivative, AD.SetDerivative; simpl.
  destruct (decide (AD.index x = AD.index x)); congruence.
Qed.

(** ** Seeding *)

Lemma seed_master (b : build) (r : nat) solver tp :
  get_rank b r = MASTER_NODE -> seed b r solver tp = Double.one.
Proof.
  intros Hr. unfold seed, SetAdj_ObjFunc. rewrite Hr.
  destruct (decide (MASTER_NODE = MASTER_NODE)) as [_|Hn]; [|congruence].
  apply GetDerivative_SetDerivative.
Qed.

Lemma seed_other (b : build) (r : nat) solver tp :
  get_rank b r <> MASTER_NODE -> seed b r solver tp = Double.zero.
Proof.
  intros Hr. unfold seed, SetAdj_ObjFunc.
  destruct (decide (get_rank b r = MASTER_NODE)) as [He|_]; [congruence|].
  apply GetDerivative_SetDerivative.
Qed.

Lemma foldl_add_zeros (f : nat -> su2double) (l : list nat) :
  (forall r, r ∈ l -> f r = Double.zero) ->
  foldl Double.add Double.one (f <$> l) = Double.one.
Proof.
  induction l as [|r l IH]; intros Hz; [reflexivity|].
  simpl. rewrite (Hz r) by left. rewrite add_one_zero.
  apply IH. intros r' Hr'. apply Hz. by right.
Qed.

(** C1. Whatever the state of the solvers and tapes (so at every outer
    iteration) and whatever the number of ranks, [SetAdj_ObjFunc] seeds the
    objective with 1 on the master rank and with 0 on every other rank, and
    the seeds of all the ranks add up to exactly 1. *)
Theorem SetAdj_ObjFunc_seeds_sum_to_one
    (b : build) (solver : nat -> CDiscAdjSolver.t) (tp : nat -> AD.tape) :
  0 < comm_size b ->
  (forall r, r < comm_size b ->
     (r = MASTER_NODE -> seed b r (solver r) (tp r) = Double.one) /\
     (r <> MASTER_NODE -> seed b r (solver r) (tp r) = Double.zero)) /\
  sum_doubles (seeds b solver tp) = Double.one.
Proof.
  intros Hsize. split.
  - intros r Hr. split; intros Hm.
    + apply seed_master. destruct b; [reflexivity | exact Hm].
    + apply seed_other. destruct b; unfold MASTER_NODE in *; simpl in *;
        [lia | exact Hm].
  - unfold sum_doubles, seeds, processes.
    destruct (comm_size b) as [|n] eqn:Hn; [lia|].
    simpl. rewrite seed_master by (destruct b; reflexivity).
    rewrite add_zero_one.
    apply (foldl_add_zeros (fun r => seed b r (solver r) (tp r))).
    intros r Hr. apply elem_of_seq in Hr.
    apply seed_other. destruct b; simpl in *.
    + assert (n = 0) by lia. subst. lia.
    + unfold MASTER_NODE. lia.
Qed.

(** Four ranks. *)
Lemma SetAdj_ObjFunc_seeds_sum_to_one_witness :
  0 < comm_size (HAVE_MPI 4) /\
  sum_doubles (seeds (HAVE_MPI 4) (fun _ => Example.solver0)
                     (fun _ => Example.tape0)) = Double.one.
Proof.
  assert (H : 0 < comm_size (HAVE_MPI 4)) by (simpl; lia).
  split; [exact H|].
  exact (proj2 (SetAdj_ObjFunc_seeds_sum_to_one (HAVE_MPI 4)
                  (fun _ => Example.solver0) (fun _ => Example.tape0) H)).
Defined.

(** ** Objective registration *)

Lemma RegisterObj_Func_invoked b r config direct_solver solver tp :
  (RegisterObj_Func b r config direct_solver solver tp).1.1
  = match accessor_of (CConfig.Kind_ObjFunc config) with
    | Some acc => [acc]
    | None => []
    end.
Proof.
  unfold RegisterObj_Func.
  destruct (CConfig.Kind_ObjFunc config); reflexivity.
Qed.

Lemma RegisterObj_Func_tape b r config direct_solver solver tp :
  let '(_, solver', tp') :=
    RegisterObj_Func b r config direct_solver solver tp in
  tp' = if decide (get_rank b r = MASTER_NODE)
        then AD.RegisterOutput tp (CDiscAdjSolver.ObjFunc_Value solver')
        else tp.
Proof.
  unfold RegisterObj_Func.
  destruct (CConfig.Kind_ObjFunc config); reflexivity.
Qed.

(** C2, as the code has it.  On every rank, master or not,
    [RegisterObj_Func] invokes exactly one accessor when the selector is one
    of the twelve recognized ones and none otherwise; what is restricted to
    the master rank is the registration of the objective as an output of the
    tape. *)
Theorem RegisterObj_Func_invokes_on_every_rank
    (b : build) (r : nat) (config : CConfig.t) (direct_solver : CSolver.t)
    (solver : CDiscAdjSolver.t) (tp : AD.tape) :
  let '(invoked, solver', tp') :=
    RegisterObj_Func b r config direct_solver solver tp in
  length invoked = (if recognized (CConfig.Kind_ObjFunc config) then 1 else 0)
  /\ AD.outputs tp'
     = if decide (get_rank b r = MASTER_NODE)
       then AD.outputs tp ++ [AD.index (CDiscAdjSolver.ObjFunc_Value solver')]
       else AD.outputs tp.
Proof.
  unfold RegisterObj_Func.
  destruct (CConfig.Kind_ObjFunc config); simpl;
    (split; [reflexivity|]);
    destruct (decide (get_rank b r = MASTER_NODE)); reflexivity.
Qed.

(** C2 as stated fails: on rank 1 of a two-rank job, which is not the master
    rank, the drag accessor is invoked. *)
Lemma RegisterObj_Func_invokes_off_master :
  get_rank (HAVE_MPI 2) 1 <> MASTER_NODE /\
  (RegisterObj_Func (HAVE_MPI 2) 1 Example.config0 Example.direct0
                    Example.solver0 Example.tape0).1.1
  = [GetTotal_CDrag].
Proof. split; [discriminate | reflexivity]. Qed.

(** ** The constructor does not look at the selector *)






(** ** The restart file: a missing file *)

(** When the adjoint restart file of a rank is missing, that rank leaves by
    [exit] without communicating, and only the master rank reports. *)
Lemma restart_missing_exits b r fs this geometry config direct_solver
    Kind_Solver CSensitivity :
  CConfig.Restart config = true ->
  fs (CConfig.ObjFunc_Extension config (CConfig.Solution_AdjFileName config))
    = None ->
  alloc_CSensitivity geometry (GetnMarker_All config) = Returns CSensitivity ->
  exists console,
    CDiscAdjSolver_new b r fs this geometry config direct_solver
                       Kind_Solver MESH_0 = Exit_Failure console
    /\ (get_rank b r <> MASTER_NODE -> console = []).
Proof.
  intros Hrestart Hfile Halloc.
  unfold CDiscAdjSolver_new, load_restart.
  rewrite Halloc, Hrestart, Hfile. simpl.
  eexists. split; [reflexivity|].
  intros Hr. destruct (decide (get_rank b r = MASTER_NODE)); congruence.
Qed.

(** C4 fails on the code.  In a two-rank job where the restart file opens on
    rank 0 and not on rank 1, rank 1 exits on its own, silently and without
    any collective, while rank 0 returns from the constructor and goes on. *)
Theorem restart_missing_exit_is_rank_local :
  (exists solver,
     CDiscAdjSolver_new (HAVE_MPI 2) 0 Example.with_file Example.solver0
       Example.geometry0 Example.config_restart Example.direct0
       RUNTIME_FLOW_SYS MESH_0 = Returns solver) /\
  CDiscAdjSolver_new (HAVE_MPI 2) 1 Example.no_files Example.solver0
    Example.geometry0 Example.config_restart Example.direct0
    RUNTIME_FLOW_SYS MESH_0 = Exit_Failure [].
Proof.
  split; [eexists|]; vm_compute; reflexivity.
Qed.

(** ** The restart file: lines are assigned by position *)

Lemma extract_point_line_reindex f skipVars nVar line Solution :
  extract_point_line skipVars nVar (reindex f line) Solution
  = extract_point_line skipVars nVar line Solution.
Proof.
  unfold extract_point_line, reindex; simpl.
  destruct (index_column line); reflexivity.
Qed.

Lemma read_restart_lines_reindex f config nDim nVar skipVars Global2Local
    lines iPoint_Global Solution node :
  read_restart_lines config nDim nVar skipVars Global2Local
    (reindex f <$> lines) iPoint_Global Solution node
  = read_restart_lines config nDim nVar skipVars Global2Local lines
      iPoint_Global Solution node.
Proof.
  revert iPoint_Global Solution node.
  induction lines as [|line lines IH]; intros; [reflexivity|].
  simpl. rewrite extract_point_line_reindex.
  destruct (load Global2Local iPoint_Global); try reflexivity.
  simpl. destruct (decide (0 <= a)%Z); simpl.
  - destruct (store node (Z.to_nat a) _) as [node'| |]; simpl;
      [apply IH | reflexivity | reflexivity].
  - apply IH.
Qed.

Lemma extract_columns (cols : list su2double) (stops : bool)
    (skipVars n : nat) (Solution : list su2double) :
  n <= length Solution -> skipVars + n <= length cols ->
  foldl (fun Solution iVar =>
           match cols !! (skipVars + iVar) with
           | Some v => <[iVar := v]> Solution
           | None =>
               if stops && bool_decide (skipVars + iVar = length cols)
               then <[iVar := Double.zero]> Solution
               else Solution
           end) Solution (seq 0 n)
  = take n (drop skipVars cols) ++ drop n Solution.
Proof.
  induction n as [|n IH]; intros Hs Hc; [reflexivity|].
  rewrite seq_S, foldl_app, IH by lia. simpl.
  destruct (lookup_lt_is_Some_2 cols (skipVars + n)) as [v Hv]; [lia|].
  destruct (lookup_lt_is_Some_2 Solution n) as [y Hy]; [lia|].
  rewrite Hv.
  rewrite insert_app_r_alt by (rewrite length_take, length_drop; lia).
  rewrite length_take, length_drop.
  replace (n - n `min` (length cols - skipVars)) with 0 by lia.
  rewrite (drop_S _ _ _ Hy). simpl.
  rewrite (take_S_r _ _ v) by (by rewrite lookup_drop).
  by rewrite <- app_assoc.
Qed.

Lemma extract_point_line_well_formed skipVars nVar line Solution :
  is_Some (index_column line) ->
  skipVars + nVar <= length (value_columns line) ->
  length Solution = nVar ->
  extract_point_line skipVars nVar line Solution
  = take nVar (drop skipVars (value_columns line)).
Proof.
  intros [i Hi] Hc Hs. unfold extract_point_line. rewrite Hi.
  rewrite extract_columns by lia.
  rewrite (drop_ge Solution) by lia. apply app_nil_r.
Qed.

Lemma length_extract_point_line skipVars nVar line Solution :
  length (extract_point_line skipVars nVar line Solution) = length Solution.
Proof.
  unfold extract_point_line. destruct (index_column line); [|reflexivity].
  generalize (seq 0 nVar). intros l. revert Solution.
  induction l as [|i l IH]; intros; [reflexivity|].
  simpl. rewrite IH. destruct (_ !! _); [apply length_insert|].
  destruct (_ && _); [apply length_insert | reflexivity].
Qed.

Lemma build_Global2Local_ok geometry Global2Local :
  build_Global2Local geometry = Returns Global2Local ->
  Global2Local_ok geometry (CGeometry.nPointDomain geometry) Global2Local.
Proof.
  unfold build_Global2Local. intros Hrun.
  apply (for_loop_inv (Global2Local_ok geometry)) in Hrun; [exact Hrun| |].
  - intros g z Hz Hpos. apply lookup_replicate in Hz as [-> _]. lia.
  - intros i G1 G2 _ IH Hbody. inv_outcome.
    intros g z Hz Hpos.
    destruct (decide (CPoint.GlobalIndex a = g)) as [<-|Hne].
    + rewrite list_lookup_insert_eq in Hz by done. injection Hz as <-.
      exists i, a. auto.
    + rewrite list_lookup_insert_ne in Hz by done.
      destruct (IH g z Hz Hpos) as (j & p & ? & ? & ? & ?).
      exists j, p. repeat split; auto.
Qed.

Lemma Global2Local_ok_inj geometry i Global2Local g1 g2 z :
  Global2Local_ok geometry i Global2Local ->
  Global2Local !! g1 = Some z -> Global2Local !! g2 = Some z ->
  (0 <= z)%Z -> g1 = g2.
Proof.
  intros Hok H1 H2 Hz.
  destruct (Hok g1 z H1 Hz) as (j1 & p1 & -> & _ & Hp1 & <-).
  destruct (Hok g2 _ H2 Hz) as (j2 & p2 & Hj & _ & Hp2 & <-).
  apply Nat2Z.inj in Hj. subst j2. congruence.
Qed.

Lemma read_restart_lines_frame config nDim nVar skipVars Global2Local lines
    iPoint_Global Solution node Solution' node' (l : nat) :
  read_restart_lines config nDim nVar skipVars Global2Local lines
    iPoint_Global Solution node = Returns (Solution', node') ->
  (forall k z, k < length lines ->
     Global2Local !! (iPoint_Global + k) = Some z -> (0 <= z)%Z ->
     Z.to_nat z <> l) ->
  node' !! l = node !! l.
Proof.
  revert iPoint_Global Solution node.
  induction lines as [|line lines IH]; intros k0 Sol nd Hrun Hfree;
    simpl in Hrun.
  - by injection Hrun as _ <-.
  - inv_outcome.
    erewrite (IH _ _ _ Hrun).
    + destruct (decide (0 <= a)%Z) as [Hpos|Hneg]; inv_outcome; [|done].
      apply list_lookup_insert_ne.
      apply (Hfree 0 a); [simpl; lia | by rewrite Nat.add_0_r | done].
    + intros k z Hk Hz. apply (Hfree (S k) z); [simpl; lia|].
      by replace (k0 + S k) with (S k0 + k) by lia.
Qed.

Lemma read_restart_lines_length config nDim nVar skipVars Global2Local lines
    iPoint_Global Solution node Solution' node' :
  read_restart_lines config nDim nVar skipVars Global2Local lines
    iPoint_Global Solution node = Returns (Solution', node') ->
  length Solution' = length Solution /\ length node' = length node.
Proof.
  revert iPoint_Global Solution node.
  induction lines as [|line lines IH]; intros k0 Sol nd Hrun; simpl in Hrun.
  - by injection Hrun as <- <-.
  - inv_outcome.
    destruct (IH _ _ _ Hrun) as [-> ->].
    destruct (decide (0 <= a)%Z); inv_outcome; [|done].
    by rewrite length_extract_point_line, length_insert.
Qed.

(** The line at position [k] lands in the slot [Global2Local[k]]. *)
Lemma read_restart_lines_at geometry config nDim nVar skipVars Global2Local
    lines iPoint_Global Solution node Solution' node' k line iPoint :
  Global2Local_ok geometry (CGeometry.nPointDomain geometry) Global2Local ->
  read_restart_lines config nDim nVar skipVars Global2Local lines
    iPoint_Global Solution node = Returns (Solution', node') ->
  length Solution = nVar ->
  lines !! k = Some line ->
  Global2Local !! (iPoint_Global + k) = Some (Z.of_nat iPoint) ->
  is_Some (index_column line) ->
  skipVars + nVar <= length (value_columns line) ->
  node' !! iPoint
  = Some (Some (CDiscAdjVariable
                  (take nVar (drop skipVars (value_columns line)))
                  nDim nVar config)).
Proof.
  intros Hok. revert iPoint_Global Solution node k.
  induction lines as [|line0 lines IH];
    intros k0 Sol nd k Hrun HSol Hline HG Hidx Hcols; [done|].
  simpl in Hrun. inv_outcome.
  destruct k as [|k]; simpl in Hline.
  - injection Hline as ->. rewrite Nat.add_0_r in HG.
    rewrite HG in Ha. injection Ha as <-.
    destruct (decide (0 <= Z.of_nat iPoint)%Z); [|lia]. inv_outcome.
    rewrite Nat2Z.id in *.
    erewrite read_restart_lines_frame; [|exact Hrun|].
    + rewrite list_lookup_insert_eq by done.
      by rewrite extract_point_line_well_formed.
    + intros k z Hk Hz Hpos Heq.
      assert (z = Z.of_nat iPoint) by lia. subst z.
      pose proof (Global2Local_ok_inj _ _ _ _ _ _ Hok HG Hz Hpos). lia.
  - eapply (IH (S k0) _ _ k); eauto.
    + destruct (decide (0 <= a)%Z); inv_outcome; [|done].
      by rewrite length_extract_point_line.
    + by replace (S k0 + k) with (k0 + S k) by lia.
Qed.

Lemma halo_loop_frame (x : option CVariable.t) (n lo : nat)
    (node node' : list (option CVariable.t)) :
  for_loop n lo (fun iPoint node => store node iPoint x) node = Returns node' ->
  length node' = length node /\
  forall l, l < lo -> node' !! l = node !! l.
Proof.
  intros Hrun.
  apply (for_loop_inv
           (fun i nd => lo <= i /\ length nd = length node /\
                        forall l, l < lo -> nd !! l = node !! l))
    in Hrun; [tauto|auto|].
  intros i nd1 nd2 _ (Hi & Hlen & IH) Hbody. inv_outcome.
  split; [lia|]. split; [by rewrite length_insert|].
  intros l Hl. rewrite list_lookup_insert_ne by lia. auto.
Qed.

Lemma store_direct_solution_spec direct_solver nPoint node node' :
  store_direct_solution direct_solver nPoint node = Returns node' ->
  length node' = length node /\
  (forall j, j < nPoint -> exists v, node' !! j = Some (Some v)) /\
  (forall l v, node !! l = Some (Some v) ->
     exists v', node' !! l = Some (Some v') /\
                CVariable.Solution v' = CVariable.Solution v).
Proof.
  intros Hrun. unfold store_direct_solution in Hrun.
  apply (for_loop_inv
           (fun i nd =>
              length nd = length node /\
              (forall j, j < i -> exists v, nd !! j = Some (Some v)) /\
              (forall l v, node !! l = Some (Some v) ->
                 exists v', nd !! l = Some (Some v') /\
                            CVariable.Solution v' = CVariable.Solution v)))
    in Hrun; [exact Hrun| |].
  - split; [done|]. split; [intros; lia|]. eauto.
  - intros i nd1 nd2 _ (Hlen & Hdone & Hkeep) Hbody. inv_outcome.
    destruct a as [v|]; [|done]. inv_outcome.
    split; [by rewrite length_insert|]. split.
    + intros j Hj. destruct (decide (j = i)) as [->|Hne].
      * rewrite list_lookup_insert_eq by done. eauto.
      * rewrite list_lookup_insert_ne by done. apply Hdone. lia.
    + intros l w Hw. destruct (Hkeep l w Hw) as (w' & Hw' & Heq).
      destruct (decide (l = i)) as [->|Hne].
      * rewrite list_lookup_insert_eq by done.
        rewrite Ha in Hw'. injection Hw' as <-. eauto.
      * rewrite list_lookup_insert_ne by done. eauto.
Qed.

Lemma omap_id_lookup {A} (l : list (option A)) (i : nat) (x : A) :
  (forall j, j < i -> exists y, l !! j = Some (Some y)) ->
  l !! i = Some (Some x) ->
  omap id l !! i = Some x.
Proof.
  revert i. induction l as [|o l IH]; intros i Hpre Hi; [done|].
  destruct i as [|i]; simpl in Hi.
  - injection Hi as ->. reflexivity.
  - destruct (Hpre 0) as [y Hy]; [lia|]. injection Hy as ->. simpl.
    apply IH; [|done]. intros j Hj. apply (Hpre (S j)). lia.
Qed.

Lemma alloc_CSensitivity_total geometry nMarker :
  nMarker <= length (CGeometry.vertex geometry) ->
  exists CSensitivity,
    alloc_CSensitivity geometry nMarker = Returns CSensitivity.
Proof.
  intros Hlen. unfold alloc_CSensitivity.
  destruct (for_loop_total (fun _ _ => True) nMarker 0
              (fun iMarker (CSensitivity : list (list su2double)) =>
                 vertices ← load (CGeometry.vertex geometry) iMarker;
                 Returns (CSensitivity
                            ++ [replicate (length vertices) Double.zero]))
              [] I) as (CS & HCS & _); [|eauto].
  intros m CS [_ Hm] _. simpl in Hm.
  destruct (load_lt (CGeometry.vertex geometry) m) as (vs & -> & _); [lia|].
  simpl. eauto.
Qed.

Lemma build_Global2Local_total geometry config direct_solver lines :
  wf_restart geometry config direct_solver lines ->
  exists Global2Local,
    build_Global2Local geometry = Returns Global2Local /\
    length Global2Local = CGeometry.Global_nPointDomain geometry /\
    forall i p, i < CGeometry.nPointDomain geometry ->
      CGeometry.node geometry !! i = Some p ->
      Global2Local !! CPoint.GlobalIndex p = Some (Z.of_nat i).
Proof.
  intros (_ & _ & HnG & _ & Hlines & Hreach & Hinj).
  unfold build_Global2Local.
  destruct (for_loop_total
    (fun i (G : list Z) =>
       length G = CGeometry.Global_nPointDomain geometry /\
       forall j p, j < i ->
         CGeometry.node geometry !! j = Some p ->
         G !! CPoint.GlobalIndex p = Some (Z.of_nat j))
    (CGeometry.nPointDomain geometry) 0
    (fun iPoint Global2Local =>
       p ← load (CGeometry.node geometry) iPoint;
       store Global2Local (CPoint.GlobalIndex p) (Z.of_nat iPoint))
    (replicate (CGeometry.Global_nPointDomain geometry) (-1)%Z))
    as (G & HG & Hlen & Hall).
  - split; [apply length_replicate | intros; lia].
  - intros i G [_ Hi] [Hlen IH]. simpl in Hi.
    destruct (load_lt (CGeometry.node geometry) i) as (p & -> & Hp); [lia|].
    simpl. pose proof (Hreach i p Hi Hp) as Hgi.
    rewrite store_lt by lia. eexists. split; [reflexivity|].
    split; [by rewrite length_insert|].
    intros j q Hj Hq. destruct (decide (j = i)) as [->|Hne].
    + rewrite Hp in Hq. injection Hq as <-.
      apply list_lookup_insert_eq. lia.
    + rewrite list_lookup_insert_ne; [apply IH; [lia|done]|].
      intros Heq. apply Hne. symmetry. by apply (Hinj i j p q); try lia.
  - exists G. simpl in Hall. auto.
Qed.

Lemma read_restart_lines_total geometry config nDim nVar skipVars
    Global2Local lines iPoint_Global Solution node :
  Global2Local_ok geometry (CGeometry.nPointDomain geometry) Global2Local ->
  CGeometry.nPointDomain geometry <= length node ->
  iPoint_Global + length lines <= length Global2Local ->
  exists Solution' node',
    read_restart_lines config nDim nVar skipVars Global2Local lines
      iPoint_Global Solution node = Returns (Solution', node').
Proof.
  intros Hok. revert iPoint_Global Solution node.
  induction lines as [|line lines IH]; intros k0 Sol nd Hnd Hlen; simpl.
  - eauto.
  - simpl in Hlen.
    destruct (load_lt Global2Local k0) as (z & -> & Hz); [lia|]. simpl.
    destruct (decide (0 <= z)%Z) as [Hpos|Hneg]; simpl.
    + destruct (Hok k0 z Hz Hpos) as (j & p & -> & Hj & _).
      rewrite Nat2Z.id. rewrite store_lt by lia. simpl.
      apply IH; [rewrite length_insert|]; lia.
    + apply IH; lia.
Qed.

Lemma read_restart_lines_keeps config nDim nVar skipVars Global2Local lines
    iPoint_Global Solution node Solution' node' (l : nat) (v : CVariable.t) :
  read_restart_lines config nDim nVar skipVars Global2Local lines
    iPoint_Global Solution node = Returns (Solution', node') ->
  node !! l = Some (Some v) ->
  exists v', node' !! l = Some (Some v').
Proof.
  revert iPoint_Global Solution node v.
  induction lines as [|line lines IH]; intros k0 Sol nd v Hrun Hv;
    simpl in Hrun.
  - injection Hrun as _ <-. eauto.
  - inv_outcome. destruct (decide (0 <= a)%Z); inv_outcome.
    + destruct (decide (Z.to_nat a = l)) as [<-|Hne].
      * eapply IH; [exact Hrun|]. by apply list_lookup_insert_eq.
      * eapply IH; [exact Hrun|]. by rewrite list_lookup_insert_ne.
    + eapply IH; eauto.
Qed.

(** Every line whose global index is local assigns its slot. *)
Lemma read_restart_lines_covers config nDim nVar skipVars Global2Local lines
    iPoint_Global Solution node Solution' node' (k l : nat) :
  read_restart_lines config nDim nVar skipVars Global2Local lines
    iPoint_Global Solution node = Returns (Solution', node') ->
  k < length lines ->
  Global2Local !! (iPoint_Global + k) = Some (Z.of_nat l) ->
  exists v, node' !! l = Some (Some v).
Proof.
  revert iPoint_Global Solution node k.
  induction lines as [|line lines IH]; intros k0 Sol nd k Hrun Hk HG;
    simpl in Hk; [lia|].
  simpl in Hrun. inv_outcome. destruct k as [|k].
  - rewrite Nat.add_0_r in HG. rewrite HG in Ha. injection Ha as <-.
    destruct (decide (0 <= Z.of_nat l)%Z); [|lia]. inv_outcome.
    rewrite Nat2Z.id in *.
    eapply read_restart_lines_keeps; [exact Hrun|].
    by apply list_lookup_insert_eq.
  - eapply (IH (S k0) _ _ k); [exact Hrun | lia|].
    by replace (S k0 + k) with (k0 + S k) by lia.
Qed.

Lemma halo_loop_total (x : option CVariable.t) (n lo : nat)
    (node : list (option CVariable.t)) :
  lo + n <= length node ->
  exists node',
    for_loop n lo (fun iPoint node => store node iPoint x) node
    = Returns node' /\
    forall l, lo <= l < lo + n -> node' !! l = Some x.
Proof.
  intros Hlen.
  destruct (for_loop_total
    (fun i (nd : list (option CVariable.t)) =>
       length nd = length node /\
       forall l, lo <= l < i -> nd !! l = Some x)
    n lo (fun iPoint node => store node iPoint x) node)
    as (node' & Hrun & _ & Hall); [split; [done | intros; lia] | |eauto].
  intros i nd Hi [Hl IH]. rewrite store_lt by lia.
  eexists. split; [reflexivity|]. split; [by rewrite length_insert|].
  intros l Hl'. destruct (decide (l = i)) as [->|Hne].
  - apply list_lookup_insert_eq. lia.
  - rewrite list_lookup_insert_ne by done. apply IH. lia.
Qed.

Lemma store_direct_solution_total direct_solver nPoint node :
  nPoint <= length (CSolver.node direct_solver) ->
  (forall i, i < nPoint -> exists v, node !! i = Some (Some v)) ->
  exists node', store_direct_solution direct_solver nPoint node
                = Returns node'.
Proof.
  intros Hdirect Hall. unfold store_direct_solution.
  destruct (for_loop_total
    (fun _ (nd : list (option CVariable.t)) =>
       forall i, i < nPoint -> exists v, nd !! i = Some (Some v))
    nPoint 0
    (fun iPoint node =>
       slot ← load node iPoint;
       match slot with
       | None => Undefined
       | Some v =>
           d ← load (CSolver.node direct_solver) iPoint;
           store node iPoint
             (Some (CVariable.set_Solution_Direct
                      (AD.value <$> CDirectVariable.Solution d) v))
       end)
    node Hall) as (node' & Hrun & _); [|eauto].
  intros i nd [_ Hi] IH. simpl in Hi.
  destruct (IH i Hi) as (v & Hv).
  pose proof (lookup_lt_Some _ _ _ Hv) as Hlen.
  apply load_Returns in Hv. rewrite Hv. simpl.
  destruct (load_lt (CSolver.node direct_solver) i) as (d & -> & _); [lia|].
  simpl. rewrite store_lt by done. eexists. split; [reflexivity|].
  intros j Hj. destruct (decide (j = i)) as [->|Hne].
  - rewrite list_lookup_insert_eq by done. eauto.
  - rewrite list_lookup_insert_ne by done. auto.
Qed.

(** The constructor returns when the restart file fits the partition. *)
Lemma CDiscAdjSolver_new_restart_total b r fs this geometry config
    direct_solver Kind_Solver file :
  CConfig.Restart config = true ->
  fs (CConfig.ObjFunc_Extension config (CConfig.Solution_AdjFileName config))
    = Some file ->
  wf_restart geometry config direct_solver (tail file) ->
  exists solver,
    CDiscAdjSolver_new b r fs this geometry config direct_solver
                       Kind_Solver MESH_0 = Returns solver.
Proof.
  intros Hrestart Hfile Hwf.
  pose proof Hwf as (Hmark & HnP & HnG & Hdirect & Hlines & Hreach & Hinj).
  unfold CDiscAdjSolver_new, load_restart.
  destruct (alloc_CSensitivity_total geometry _ Hmark) as (CS & ->). simpl.
  rewrite Hrestart, Hfile. simpl.
  destruct (build_Global2Local_total _ _ _ _ Hwf) as (G & HG & HlenG & Hmap).
  rewrite HG. simpl.
  pose proof (build_Global2Local_ok _ _ HG) as Hok.
  destruct (read_restart_lines_total geometry config (CGeometry.nDim geometry)
              (CSolver.nVar direct_solver)
              (skipVars_of (CGeometry.nDim geometry) Kind_Solver) G
              (tail file) 0
              (replicate (CSolver.nVar direct_solver) Double.lit_1e_16)
              (replicate (CGeometry.nPoint geometry) None) Hok)
    as (Sol & nd & Hread); [rewrite length_replicate; lia | simpl; lia|].
  rewrite Hread. simpl.
  destruct (read_restart_lines_length _ _ _ _ _ _ _ _ _ _ _ Hread)
    as [_ Hlen]. rewrite length_replicate in Hlen.
  destruct (halo_loop_total
              (Some (CDiscAdjVariable Sol (CGeometry.nDim geometry)
                       (CSolver.nVar direct_solver) config))
              (CGeometry.nPoint geometry - CGeometry.nPointDomain geometry)
              (CGeometry.nPointDomain geometry) nd)
    as (nd' & Hhalo & Hnew); [lia|].
  rewrite Hhalo. simpl.
  destruct (halo_loop_frame _ _ _ _ _ Hhalo) as [_ Hframe].
  destruct (store_direct_solution_total direct_solver
              (CGeometry.nPoint geometry) nd' Hdirect) as (nd'' & ->);
    [|simpl; eauto].
  intros i Hi.
  destruct (decide (i < CGeometry.nPointDomain geometry)) as [Hdom|Hhalo'].
  - rewrite Hframe by done.
    destruct (lookup_lt_is_Some_2 (CGeometry.node geometry) i) as [p Hp];
      [lia|].
    eapply (read_restart_lines_covers _ _ _ _ _ _ _ _ _ _ _
              (CPoint.GlobalIndex p)); [exact Hread | by eapply Hreach|].
    simpl. by apply Hmap.
  - rewrite Hnew by lia. eauto.
Qed.

(** C10. When the constructor loads a restart file that fits the partition
    it returns, and the data line at position [k] after the header is stored
    at the local point that [Global2Local] gives for the global index [k]:
    the index column of the line is extracted and dropped.  So the state of
    that point holds the [nVar] values of line [k] whatever its index column
    says, and rewriting the index columns of the file in any way leaves the
    constructed solver unchanged. *)
Theorem restart_lines_are_positional
    (b : build) (r : nat) (fs : filesystem) (this : CDiscAdjSolver.t)
    (geometry : CGeometry.t) (config : CConfig.t) (direct_solver : CSolver.t)
    (Kind_Solver : RUNTIME_TYPE) (file : list text_line) :
  let filename :=
    CConfig.ObjFunc_Extension config (CConfig.Solution_AdjFileName config) in
  let nVar := CSolver.nVar direct_solver in
  let skipVars := skipVars_of (CGeometry.nDim geometry) Kind_Solver in
  CConfig.Restart config = true ->
  fs filename = Some file ->
  wf_restart geometry config direct_solver (tail file) ->
  exists solver,
  CDiscAdjSolver_new b r fs this geometry config direct_solver
                     Kind_Solver MESH_0 = Returns solver /\
  (forall Global2Local k line iPoint,
     build_Global2Local geometry = Returns Global2Local ->
     tail file !! k = Some line ->
     Global2Local !! k = Some (Z.of_nat iPoint) ->
     is_Some (index_column line) ->
     skipVars + nVar <= length (value_columns line) ->
     exists v,
       CDiscAdjSolver.node solver !! iPoint = Some v /\
       CVariable.Solution v
       = take nVar (drop skipVars (value_columns line))) /\
  (forall (f : nat -> nat) (fs' : filesystem),
     fs' filename = Some (reindex f <$> file) ->
     CDiscAdjSolver_new b r fs' this geometry config direct_solver
                        Kind_Solver MESH_0 = Returns solver).
Proof.
  intros filename nVar skipVars Hrestart Hfile Hwf.
  destruct (CDiscAdjSolver_new_restart_total b r fs this geometry config
              direct_solver Kind_Solver file Hrestart Hfile Hwf)
    as (solver & Hnew).
  exists solver. split; [exact Hnew|]. split.
  - intros G k line iPoint HG Hline Hk Hidx Hcols.
    unfold CDiscAdjSolver_new, load_restart in Hnew.
    rewrite Hrestart in Hnew. simpl in Hnew.
    fold filename in Hnew. rewrite Hfile in Hnew.
    inv_outcome.
    match goal with
    | Hb : build_Global2Local _ = Returns ?x |- _ =>
        tryif constr_eq x G then fail
        else (assert (x = G) by congruence; subst x; clear Hb)
    end.
    lazymatch goal with
    | Hr : read_restart_lines _ _ _ _ _ _ _ _ _ = _,
      Hh : for_loop _ _ _ _ = _, Hd : store_direct_solution _ _ _ = _ |- _ =>
        rename Hr into Hread; rename Hh into Hhalo; rename Hd into Hdirect
    end.
    pose proof (build_Global2Local_ok _ _ HG) as Hok.
    assert (Hat := read_restart_lines_at geometry _ _ _ _ _ _ _ _ _ _ _ k
                     line iPoint Hok Hread (length_replicate _ _) Hline Hk
                     Hidx Hcols).
    destruct (Hok k _ Hk ltac:(lia)) as (j & p & Hj & Hdom & _).
    apply Nat2Z.inj in Hj. subst j.
    destruct (halo_loop_frame _ _ _ _ _ Hhalo) as [Hl1 Hframe].
    rewrite <- (Hframe iPoint Hdom) in Hat.
    destruct (store_direct_solution_spec _ _ _ _ Hdirect)
      as (Hlen & Hall & Hkeep).
    destruct (Hkeep _ _ Hat) as (v' & Hv' & HSol).
    exists v'. simpl. split.
    + apply omap_id_lookup; [|done].
      intros j Hj. apply Hall.
      apply lookup_lt_Some in Hv'.
      destruct (read_restart_lines_length _ _ _ _ _ _ _ _ _ _ _ Hread)
        as [_ Hl2].
      rewrite Hlen, Hl1, Hl2, length_replicate in Hv'. lia.
    + rewrite HSol. simpl. rewrite take_idemp. reflexivity.
  - intros f fs' Hfile'. rewrite <- Hnew.
    unfold CDiscAdjSolver_new, load_restart.
    rewrite Hrestart. simpl. fold filename. rewrite Hfile, Hfile'.
    destruct (alloc_CSensitivity _ _); [simpl|reflexivity..].
    destruct (build_Global2Local geometry); [simpl|reflexivity..].
    rewrite <- fmap_tail, read_restart_lines_reindex. reflexivity.
Qed.

Lemma wf_restart_example :
  wf_restart Example.geometry0 Example.config_restart Example.direct0
             (tail Example.restart_lines).
Proof.
  do 5 (split; [vm_compute; lia|]). split.
  - intros [|[|i]] p Hi Hp; simpl in *; try lia;
      injection Hp as <-; simpl; lia.
  - intros [|[|i]] [|[|j]] p q Hi Hj Hp Hq; simpl in *; try lia;
      injection Hp as <-; injection Hq as <-; discriminate.
Defined.

(** The first data line, whose index column says 1, is loaded as global
    point 0, which is the local point 1. *)
Lemma restart_lines_are_positional_witness :
  CDiscAdjSolver_new (HAVE_MPI 2) 0 Example.with_file Example.solver0
    Example.geometry0 Example.config_restart Example.direct0
    RUNTIME_FLOW_SYS MESH_0 = Returns Example.restarted /\
  exists v,
    CDiscAdjSolver.node Example.restarted !! 1 = Some v /\
    CVariable.Solution v = [Example.two].
Proof.
  destruct (restart_lines_are_positional (HAVE_MPI 2) 0
              Example.with_file Example.solver0 Example.geometry0
              Example.config_restart Example.direct0 RUNTIME_FLOW_SYS
              Example.restart_lines eq_refl eq_refl wf_restart_example)
    as (solver & Hnew & Hpos & _).
  assert (solver = Example.restarted) as ->
    by (vm_compute in Hnew; injection Hnew as <-; reflexivity).
  split; [exact Hnew|].
  refine (Hpos [1; 0]%Z 0
               (Line (Some 1) [Double.zero; Double.zero; Example.two] false)
               1
               _ eq_refl eq_refl _ _).
  - vm_compute; reflexivity.
  - exists 1. reflexivity.
  - vm_compute. lia.
Defined.

(** ** Extraction of the adjoint solution *)

Lemma extract_points_spec tp direct_solver get set old solver solver' :
  extract_points tp direct_solver get set old solver = Returns solver' ->
  CDiscAdjSolver.nPoint solver' = CDiscAdjSolver.nPoint solver /\
  forall j, j < CDiscAdjSolver.nPoint solver ->
    exists v d,
      CDiscAdjSolver.node solver !! j = Some v /\
      CSolver.node direct_solver !! j = Some d /\
      CDiscAdjSolver.node solver' !! j = Some (set (get tp d) (old v)).
Proof.
  unfold extract_points. intros Hrun.
  apply (for_loop_inv
           (fun i s =>
              CDiscAdjSolver.nPoint s = CDiscAdjSolver.nPoint solver /\
              (forall j, j < i ->
                 exists v d,
                   CDiscAdjSolver.node solver !! j = Some v /\
                   CSolver.node direct_solver !! j = Some d /\
                   CDiscAdjSolver.node s !! j = Some (set (get tp d) (old v)))
              /\
              (forall j, i <= j ->
                 CDiscAdjSolver.node s !! j = CDiscAdjSolver.node solver !! j)))
    in Hrun.
  - destruct Hrun as (Hn & Hdone & _). split; [done|].
    intros j Hj. apply Hdone. simpl. lia.
  - split; [done|]. split; [intros; lia | done].
  - intros i s1 s2 _ (Hn & Hdone & Hrest) Hbody. inv_outcome. simpl.
    split; [done|]. split.
    + intros j Hj. destruct (decide (j = i)) as [->|Hne].
      * rewrite list_lookup_insert_eq by done.
        rewrite Hrest in Ha by done. eauto.
      * rewrite list_lookup_insert_ne by done. apply Hdone. lia.
    + intros j Hj. rewrite list_lookup_insert_ne by lia. apply Hrest. lia.
Qed.

Lemma extract_points_if (cond : bool) tp direct_solver get set solver solver'
    (i : nat) (v : CVariable.t) (d : CDirectVariable.t) :
  (if cond then extract_points tp direct_solver get set id solver
   else Returns solver) = Returns solver' ->
  i < CDiscAdjSolver.nPoint solver ->
  CDiscAdjSolver.node solver !! i = Some v ->
  CSolver.node direct_solver !! i = Some d ->
  CDiscAdjSolver.nPoint solver' = CDiscAdjSolver.nPoint solver /\
  CDiscAdjSolver.node solver' !! i
  = Some (if cond then set (get tp d) v else v).
Proof.
  intros Hrun Hi Hv Hd. destruct cond.
  - apply extract_points_spec in Hrun as [Hn Hp]. split; [done|].
    destruct (Hp i Hi) as (v1 & d1 & Hv1 & Hd1 & ->). by simplify_eq.
  - by injection Hrun as <-.
Qed.

Lemma extract_points_returns tp direct_solver get set old solver :
  CDiscAdjSolver.nPoint solver <= length (CDiscAdjSolver.node solver) ->
  CDiscAdjSolver.nPoint solver <= length (CSolver.node direct_solver) ->
  exists solver',
    extract_points tp direct_solver get set old solver = Returns solver' /\
    CDiscAdjSolver.nPoint solver' = CDiscAdjSolver.nPoint solver /\
    length (CDiscAdjSolver.node solver')
    = length (CDiscAdjSolver.node solver).
Proof.
  intros Hnode Hdirect. unfold extract_points.
  apply (for_loop_total
           (fun _ s =>
              CDiscAdjSolver.nPoint s = CDiscAdjSolver.nPoint solver /\
              length (CDiscAdjSolver.node s)
              = length (CDiscAdjSolver.node solver))); [done|].
  intros i s1 [_ Hi] [Hn Hlen]. simpl in Hi.
  destruct (load_lt (CDiscAdjSolver.node s1) i) as (v & -> & _); [lia|].
  destruct (load_lt (CSolver.node direct_solver) i) as (d & -> & _); [lia|].
  simpl. rewrite store_lt by lia. simpl. eexists. split; [reflexivity|].
  simpl. by rewrite length_insert.
Qed.

(** C9. [ExtractAdjoint_Solution] returns when the solver and the primal
    solver hold [nPoint] points and the residual bookkeeping returns.  It
    copies, for every mesh point, the adjoint values the tape holds for the
    solution of that point into the adjoint state; the adjoint of time level
    n is copied when the unsteady scheme is first- or second-order dual time
    stepping and left alone otherwise, and the adjoint of time level n-1 is
    copied when the scheme is second-order dual time stepping and left alone
    otherwise. *)
Theorem ExtractAdjoint_Solution_copies
    (residuals : CGeometry.t -> CConfig.t -> CDiscAdjSolver.t ->
                 outcome (list su2double * list su2double * list nat
                          * list (list su2double)))
    (tp : AD.tape) (direct_solver : CSolver.t) (geometry : CGeometry.t)
    (config : CConfig.t) (solver : CDiscAdjSolver.t) :
  (CDiscAdjSolver.nPoint solver <= length (CDiscAdjSolver.node solver) ->
   CDiscAdjSolver.nPoint solver <= length (CSolver.node direct_solver) ->
   (forall s, exists r, residuals geometry config s = Returns r) ->
   exists solver',
     ExtractAdjoint_Solution residuals tp direct_solver geometry config solver
     = Returns solver') /\
  forall solver' iPoint,
    ExtractAdjoint_Solution residuals tp direct_solver geometry config solver
      = Returns solver' ->
    iPoint < CDiscAdjSolver.nPoint solver ->
    exists v d v',
      CDiscAdjSolver.node solver !! iPoint = Some v /\
      CSolver.node direct_solver !! iPoint = Some d /\
      CDiscAdjSolver.node solver' !! iPoint = Some v' /\
      CVariable.Solution v'
        = AD.GetDerivative tp <$> CDirectVariable.Solution d /\
      let scheme := CConfig.Unsteady_Simulation config in
      (scheme = DT_STEPPING_1ST \/ scheme = DT_STEPPING_2ND ->
       CVariable.Solution_time_n v'
         = AD.GetDerivative tp <$> CDirectVariable.Solution_time_n d) /\
      (~ (scheme = DT_STEPPING_1ST \/ scheme = DT_STEPPING_2ND) ->
       CVariable.Solution_time_n v' = CVariable.Solution_time_n v) /\
      (scheme = DT_STEPPING_2ND ->
       CVariable.Solution_time_n1 v'
         = AD.GetDerivative tp <$> CDirectVariable.Solution_time_n1 d) /\
      (scheme <> DT_STEPPING_2ND ->
       CVariable.Solution_time_n1 v' = CVariable.Solution_time_n1 v).
Proof.
  split.
  { intros Hnode Hdirect Hres. unfold ExtractAdjoint_Solution.
    destruct (extract_points_returns tp direct_solver GetAdjointSolution
                CVariable.set_Solution Set_OldSolution solver Hnode Hdirect)
      as (s1 & -> & Hn1 & Hl1). simpl.
    assert (H2 : exists s2,
      (if time_n_needed config then
         extract_points tp direct_solver GetAdjointSolution_time_n
           CVariable.set_Solution_time_n id s1
       else Returns s1) = Returns s2 /\
      CDiscAdjSolver.nPoint s2 = CDiscAdjSolver.nPoint solver /\
      length (CDiscAdjSolver.node s2) = length (CDiscAdjSolver.node solver)).
    { destruct (time_n_needed config); [|by exists s1].
      destruct (extract_points_returns tp direct_solver
                  GetAdjointSolution_time_n CVariable.set_Solution_time_n id
                  s1) as (s2 & ? & ? & ?); [lia..|].
      exists s2. repeat split; congruence. }
    destruct H2 as (s2 & -> & Hn2 & Hl2). simpl.
    assert (H3 : exists s3,
      (if time_n1_needed config then
         extract_points tp direct_solver GetAdjointSolution_time_n1
           CVariable.set_Solution_time_n1 id s2
       else Returns s2) = Returns s3).
    { destruct (time_n1_needed config); [|by exists s2].
      destruct (extract_points_returns tp direct_solver
                  GetAdjointSolution_time_n1 CVariable.set_Solution_time_n1 id
                  s2) as (s3 & ? & _); [lia..|].
      by exists s3. }
    destruct H3 as (s3 & ->). simpl.
    destruct (Hres s3) as ([[[rms max] point] coord] & ->). simpl. eauto. }
  intros solver' iPoint Hrun Hi. unfold ExtractAdjoint_Solution in Hrun.
  apply bind_Returns in Hrun as (s1 & H1 & Hrun).
  apply bind_Returns in Hrun as (s2 & H2 & Hrun).
  apply bind_Returns in Hrun as (s3 & H3 & Hrun).
  apply bind_Returns in Hrun as ([[[rms max] point] coord] & _ & Hrun).
  injection Hrun as <-. simpl.
  destruct (extract_points_spec _ _ _ _ _ _ _ H1) as [Hn1 Hp1].
  destruct (Hp1 iPoint Hi) as (v & d & Hv & Hd & Hv1).
  assert (Hi1 : iPoint < CDiscAdjSolver.nPoint s1) by lia.
  destruct (extract_points_if _ _ _ _ _ _ _ _ _ _ H2 Hi1 Hv1 Hd)
    as [Hn2 Hv2].
  assert (Hi2 : iPoint < CDiscAdjSolver.nPoint s2) by lia.
  destruct (extract_points_if _ _ _ _ _ _ _ _ _ _ H3 Hi2 Hv2 Hd)
    as [Hn3 Hv3].
  exists v, d. eexists. do 3 (split; [eassumption|]).
  unfold time_n_needed, time_n1_needed.
  destruct (CConfig.Unsteady_Simulation config); simpl;
    (split; [reflexivity|]);
    repeat split; intros; try reflexivity; try discriminate;
    exfalso; intuition discriminate.
Qed.

(** ** The surface sensitivity *)

Lemma Prod_Area_loop (solver : CDiscAdjSolver.t) (iPoint : nat)
    (Normal : list su2double) (n lo : nat) (P0 A0 P A : su2double) :
  for_loop n lo
    (fun iDim '(Prod, Area) =>
       v ← load (CDiscAdjSolver.node solver) iPoint;
       SensDim ← load (CVariable.Sensitivity v) iDim;
       n ← load Normal iDim;
       Returns (Prod + n * SensDim, Area + n * n)%D)
    (P0, A0) = Returns (P, A) ->
  P = foldl (fun acc xy => acc + xy.1 * xy.2)%D P0
        (zip (take n (drop lo Normal))
             (take n (drop lo (point_Sensitivity solver iPoint)))) /\
  A = foldl (fun acc xy => acc + xy.1 * xy.2)%D A0
        (zip (take n (drop lo Normal)) (take n (drop lo Normal))).
Proof.
  revert lo P0 A0. induction n as [|n IH]; intros lo P0 A0 Hrun;
    simpl in Hrun.
  - by injection Hrun as <- <-.
  - inv_outcome.
    match goal with
    | Hv : CDiscAdjSolver.node solver !! iPoint = Some ?v,
      Hs : CVariable.Sensitivity ?v !! lo = Some ?sd,
      Hn : Normal !! lo = Some ?nr |- _ =>
        assert (HS : point_Sensitivity solver iPoint !! lo = Some sd)
          by (unfold point_Sensitivity; rewrite Hv; exact Hs);
        rewrite (drop_S _ _ _ Hn), (drop_S _ _ _ HS)
    end.
    simpl. by apply IH.
Qed.

Lemma Prod_Area_spec solver iPoint Normal P A :
  Prod_Area solver iPoint Normal = Returns (P, A) ->
  (P / Double.sqrt A)%D
  = projection (CDiscAdjSolver.nDim solver) Normal
               (point_Sensitivity solver iPoint).
Proof.
  intros Hrun. apply Prod_Area_loop in Hrun as [-> ->].
  by rewrite !drop_0.
Qed.

(** One vertex: the row of the marker receives the signed projection at the
    position of the vertex, and the sum of squares of the marker grows when
    the point is owned. *)
Lemma surface_vertex_spec geometry iMarker iVertex solver solver'
    vertices vertex :
  CGeometry.vertex geometry !! iMarker = Some vertices ->
  vertices !! iVertex = Some vertex ->
  surface_vertex geometry iMarker iVertex solver = Returns solver' ->
  CDiscAdjSolver.node solver' = CDiscAdjSolver.node solver /\
  CDiscAdjSolver.nDim solver' = CDiscAdjSolver.nDim solver /\
  CDiscAdjSolver.nMarker solver' = CDiscAdjSolver.nMarker solver /\
  (exists row,
     CDiscAdjSolver.CSensitivity solver !! iMarker = Some row /\
     iVertex < length row /\
     CDiscAdjSolver.CSensitivity solver'
     = <[iMarker := <[iVertex := vertex_CSensitivity geometry solver vertex]>
                      row]>
         (CDiscAdjSolver.CSensitivity solver)) /\
  (if owned geometry vertex then
     exists g,
       CDiscAdjSolver.Sens_Geo solver !! iMarker = Some g /\
       CDiscAdjSolver.Sens_Geo solver'
       = <[iMarker := (g + vertex_Sens solver vertex
                           * vertex_Sens solver vertex)%D]>
           (CDiscAdjSolver.Sens_Geo solver)
   else CDiscAdjSolver.Sens_Geo solver' = CDiscAdjSolver.Sens_Geo solver).
Proof.
  intros Hvs Hv Hrun. unfold surface_vertex in Hrun.
  apply bind_Returns in Hrun as (vs & Hvs' & Hrun). apply load_Returns in Hvs'.
  rewrite Hvs in Hvs'. injection Hvs' as <-.
  apply bind_Returns in Hrun as (vx & Hvx & Hrun). apply load_Returns in Hvx.
  rewrite Hv in Hvx. injection Hvx as <-.
  apply bind_Returns in Hrun as ([P A] & HPA & Hrun).
  apply Prod_Area_spec in HPA. fold (vertex_Sens solver vertex) in HPA.
  rewrite HPA in Hrun. clear HPA P A.
  apply bind_Returns in Hrun as (s1 & Hs1 & Hrun).
  unfold store_CSensitivity in Hs1.
  apply bind_Returns in Hs1 as (row & Hrow & Hs1). apply load_Returns in Hrow.
  apply bind_Returns in Hs1 as (row1 & Hrow1 & Hs1).
  apply store_Returns in Hrow1 as [Hlen ->].
  apply bind_Returns in Hs1 as (CS1 & HCS1 & Hs1).
  apply store_Returns in HCS1 as [HlenM ->]. injection Hs1 as <-.
  apply bind_Returns in Hrun as (p & Hp & Hrun). apply load_Returns in Hp.
  apply bind_Returns in Hrun as (s2 & Hs2 & Hrun).
  assert (Hs2' :
    s2 = CDiscAdjSolver.set_CSensitivity
           (<[iMarker := <[iVertex := vertex_CSensitivity geometry solver vertex]>
                           row]> (CDiscAdjSolver.CSensitivity solver))
           solver).
  { unfold vertex_CSensitivity, flipped. rewrite Hp. simpl.
    destruct (CPoint.Flip_Orientation p).
    - unfold load_CSensitivity, store_CSensitivity in Hs2. simpl in Hs2.
      apply bind_Returns in Hs2 as (c & Hc & Hs2).
      apply bind_Returns in Hc as (row2 & Hrow2 & Hc).
      apply load_Returns in Hrow2, Hc.
      rewrite list_lookup_insert_eq in Hrow2 by done. injection Hrow2 as <-.
      rewrite list_lookup_insert_eq in Hc by done. injection Hc as <-.
      apply bind_Returns in Hs2 as (row3 & Hrow3 & Hs2).
      apply load_Returns in Hrow3.
      rewrite list_lookup_insert_eq in Hrow3 by done. injection Hrow3 as <-.
      inv_outcome.
      rewrite !list_insert_insert_eq, opp_involutive. reflexivity.
    - by injection Hs2 as <-. }
  subst s2. clear Hs2.
  unfold owned. rewrite Hp. simpl.
  destruct (CPoint.Domain p); simpl in Hrun.
  - inv_outcome. simpl. repeat split; eauto.
  - injection Hrun as <-. simpl. repeat split; eauto.
Qed.

Lemma vertex_Sens_frame solver solver' vertex :
  CDiscAdjSolver.node solver' = CDiscAdjSolver.node solver ->
  CDiscAdjSolver.nDim solver' = CDiscAdjSolver.nDim solver ->
  vertex_Sens solver' vertex = vertex_Sens solver vertex.
Proof.
  intros Hn Hd. unfold vertex_Sens, point_Sensitivity. by rewrite Hn, Hd.
Qed.

Lemma vertex_CSensitivity_frame geometry solver solver' vertex :
  CDiscAdjSolver.node solver' = CDiscAdjSolver.node solver ->
  CDiscAdjSolver.nDim solver' = CDiscAdjSolver.nDim solver ->
  vertex_CSensitivity geometry solver' vertex
  = vertex_CSensitivity geometry solver vertex.
Proof.
  intros Hn Hd. unfold vertex_CSensitivity.
  by rewrite (vertex_Sens_frame _ _ _ Hn Hd).
Qed.

(** The loop over the vertices of a marker. *)
Lemma surface_vertices_spec geometry iMarker solver solver' vertices g0 :
  CGeometry.vertex geometry !! iMarker = Some vertices ->
  for_loop (length vertices) 0 (surface_vertex geometry iMarker) solver
    = Returns solver' ->
  CDiscAdjSolver.Sens_Geo solver !! iMarker = Some g0 ->
  CDiscAdjSolver.node solver' = CDiscAdjSolver.node solver /\
  CDiscAdjSolver.nDim solver' = CDiscAdjSolver.nDim solver /\
  CDiscAdjSolver.nMarker solver' = CDiscAdjSolver.nMarker solver /\
  (forall m, m <> iMarker ->
     CDiscAdjSolver.CSensitivity solver' !! m
     = CDiscAdjSolver.CSensitivity solver !! m) /\
  (forall i vertex, vertices !! i = Some vertex ->
     exists row,
       CDiscAdjSolver.CSensitivity solver' !! iMarker = Some row /\
       row !! i = Some (vertex_CSensitivity geometry solver vertex)) /\
  (forall m, m <> iMarker ->
     CDiscAdjSolver.Sens_Geo solver' !! m
     = CDiscAdjSolver.Sens_Geo solver !! m) /\
  CDiscAdjSolver.Sens_Geo solver' !! iMarker
  = Some (foldl Double.add g0
            ((fun vertex =>
                vertex_Sens solver vertex * vertex_Sens solver vertex)%D
               <$> filter (fun vertex => owned geometry vertex = true)
                          vertices)).
Proof.
  intros Hvs Hrun Hg0.
  apply (for_loop_inv
    (fun j s =>
       CDiscAdjSolver.node s = CDiscAdjSolver.node solver /\
       CDiscAdjSolver.nDim s = CDiscAdjSolver.nDim solver /\
       CDiscAdjSolver.nMarker s = CDiscAdjSolver.nMarker solver /\
       (forall m, m <> iMarker ->
          CDiscAdjSolver.CSensitivity s !! m
          = CDiscAdjSolver.CSensitivity solver !! m) /\
       (forall i vertex, i < j -> vertices !! i = Some vertex ->
          exists row,
            CDiscAdjSolver.CSensitivity s !! iMarker = Some row /\
            row !! i = Some (vertex_CSensitivity geometry solver vertex)) /\
       (forall m, m <> iMarker ->
          CDiscAdjSolver.Sens_Geo s !! m
          = CDiscAdjSolver.Sens_Geo solver !! m) /\
       CDiscAdjSolver.Sens_Geo s !! iMarker
       = Some (foldl Double.add g0
                 ((fun vertex =>
                     vertex_Sens solver vertex * vertex_Sens solver vertex)%D
                    <$> filter (fun vertex => owned geometry vertex = true)
                               (take j vertices)))))
    in Hrun.
  - simpl in Hrun. rewrite take_ge in Hrun by lia.
    destruct Hrun as (? & ? & ? & ? & Hrows & ? & ?).
    repeat split; auto.
    intros i vertex Hi. apply Hrows; [|done]. by apply lookup_lt_Some in Hi.
  - rewrite take_0. repeat split; auto. intros; lia.
  - intros j s1 s2 [_ Hj] (Hnode & Hdim & Hmark & Hother & Hrows & HSGo & HSG)
      Hbody. simpl in Hj.
    destruct (lookup_lt_is_Some_2 vertices j Hj) as [vx Hvx].
    destruct (surface_vertex_spec _ _ _ _ _ _ _ Hvs Hvx Hbody)
      as (Hnode2 & Hdim2 & Hmark2 & (row & Hrow & Hlen & HCS) & HSG2).
    rewrite (vertex_CSensitivity_frame _ _ _ _ Hnode Hdim) in HCS.
    rewrite (vertex_Sens_frame _ _ _ Hnode Hdim) in HSG2.
    pose proof (lookup_lt_Some _ _ _ Hrow) as HlenM.
    split; [congruence|]. split; [congruence|]. split; [congruence|].
    split; [|split; [|split]].
    + intros m Hm. rewrite HCS, list_lookup_insert_ne by done. auto.
    + intros i vertex Hi Hvertex. rewrite HCS.
      rewrite list_lookup_insert_eq by done. eexists. split; [reflexivity|].
      destruct (decide (i = j)) as [->|Hne].
      * rewrite list_lookup_insert_eq by done. congruence.
      * rewrite list_lookup_insert_ne by done.
        destruct (Hrows i vertex ltac:(lia) Hvertex) as (row' & Hrow' & Hi').
        congruence.
    + intros m Hm. destruct (owned geometry vx).
      * destruct HSG2 as (g & _ & ->).
        rewrite list_lookup_insert_ne by done. auto.
      * rewrite HSG2. auto.
    + rewrite (take_S_r _ _ _ Hvx), filter_app, fmap_app, foldl_app.
      rewrite filter_singleton by exact [].
      destruct (owned geometry vx) eqn:Hown.
      * destruct HSG2 as (g & Hg & ->).
        rewrite list_lookup_insert_eq by (by apply lookup_lt_Some in Hg).
        rewrite HSG in Hg. injection Hg as <-. reflexivity.
      * rewrite HSG2, HSG. reflexivity.
Qed.

Lemma sum_of_squares_frame geometry solver solver' vertices :
  CDiscAdjSolver.node solver' = CDiscAdjSolver.node solver ->
  CDiscAdjSolver.nDim solver' = CDiscAdjSolver.nDim solver ->
  sum_of_squares geometry solver' vertices
  = sum_of_squares geometry solver vertices.
Proof.
  intros Hn Hd.
  unfold sum_of_squares, vertex_CSensitivity, vertex_Sens, point_Sensitivity.
  by rewrite Hn, Hd.
Qed.

(** The sign of a per-vertex sensitivity does not show in its square. *)
Lemma sum_of_squares_Sens geometry solver vertices :
  sum_of_squares geometry solver vertices
  = foldl Double.add Double.zero
      ((fun vertex => vertex_Sens solver vertex * vertex_Sens solver vertex)%D
         <$> filter (fun vertex => owned geometry vertex = true) vertices).
Proof.
  unfold sum_of_squares, sum_doubles. f_equal.
  apply list_fmap_ext. intros _ vertex _. unfold vertex_CSensitivity.
  destruct (flipped geometry vertex); [reflexivity | apply mul_opp_opp].
Qed.

(** One marker. *)
Lemma surface_marker_spec geometry config iMarker solver total solver' total' :
  surface_marker geometry config iMarker (solver, total)
    = Returns (solver', total') ->
  CDiscAdjSolver.node solver' = CDiscAdjSolver.node solver /\
  CDiscAdjSolver.nDim solver' = CDiscAdjSolver.nDim solver /\
  CDiscAdjSolver.nMarker solver' = CDiscAdjSolver.nMarker solver /\
  (forall m, m <> iMarker ->
     CDiscAdjSolver.CSensitivity solver' !! m
     = CDiscAdjSolver.CSensitivity solver !! m) /\
  if selected config iMarker then
    (forall i vertex, vertices_of geometry iMarker !! i = Some vertex ->
       exists row,
         CDiscAdjSolver.CSensitivity solver' !! iMarker = Some row /\
         row !! i = Some (vertex_CSensitivity geometry solver vertex)) /\
    total' = (total + Double.sqrt (sum_of_squares geometry solver
                                     (vertices_of geometry iMarker)))%D
  else
    CDiscAdjSolver.CSensitivity solver' = CDiscAdjSolver.CSensitivity solver /\
    total' = total.
Proof.
  intros Hrun. unfold surface_marker in Hrun.
  apply bind_Returns in Hrun as (SG1 & HSG1 & Hrun).
  apply store_Returns in HSG1 as [HlenSG ->].
  apply bind_Returns in Hrun as (kind & Hkind & Hrun).
  apply load_Returns in Hkind.
  unfold selected. rewrite Hkind. simpl.
  destruct (is_wall_of_interest kind).
  - apply bind_Returns in Hrun as (vertices & Hvs & Hrun).
    apply load_Returns in Hvs.
    apply bind_Returns in Hrun as (s2 & Hloop & Hrun).
    apply bind_Returns in Hrun as (g & Hg & Hrun). apply load_Returns in Hg.
    injection Hrun as <- <-.
    eapply surface_vertices_spec in Hloop; [|exact Hvs|];
      [|simpl; by apply list_lookup_insert_eq].
    destruct Hloop as (Hnode & Hdim & Hmark & Hother & Hrows & _ & HSG).
    simpl in *. rewrite HSG in Hg. injection Hg as <-.
    unfold vertices_of. rewrite Hvs. simpl. rewrite sum_of_squares_Sens.
    repeat split; auto.
  - injection Hrun as <- <-. simpl. repeat split; auto.
Qed.

(** The loop over the markers. *)
Lemma SetSurface_Sensitivity_local_spec geometry config solver solver' total :
  SetSurface_Sensitivity_local geometry config solver
    = Returns (solver', total) ->
  CDiscAdjSolver.node solver' = CDiscAdjSolver.node solver /\
  CDiscAdjSolver.nDim solver' = CDiscAdjSolver.nDim solver /\
  CDiscAdjSolver.nMarker solver' = CDiscAdjSolver.nMarker solver /\
  (forall m i vertex,
     m < CDiscAdjSolver.nMarker solver -> selected config m = true ->
     vertices_of geometry m !! i = Some vertex ->
     exists row,
       CDiscAdjSolver.CSensitivity solver' !! m = Some row /\
       row !! i = Some (vertex_CSensitivity geometry solver vertex)) /\
  (forall m,
     CDiscAdjSolver.nMarker solver <= m \/ selected config m = false ->
     CDiscAdjSolver.CSensitivity solver' !! m
     = CDiscAdjSolver.CSensitivity solver !! m) /\
  total = local_Total_Sens_Geo geometry config solver.
Proof.
  unfold SetSurface_Sensitivity_local. intros Hrun.
  apply (for_loop_inv
    (fun iMarker (st : CDiscAdjSolver.t * su2double) =>
       CDiscAdjSolver.node st.1 = CDiscAdjSolver.node solver /\
       CDiscAdjSolver.nDim st.1 = CDiscAdjSolver.nDim solver /\
       CDiscAdjSolver.nMarker st.1 = CDiscAdjSolver.nMarker solver /\
       (forall m i vertex,
          m < iMarker -> selected config m = true ->
          vertices_of geometry m !! i = Some vertex ->
          exists row,
            CDiscAdjSolver.CSensitivity st.1 !! m = Some row /\
            row !! i = Some (vertex_CSensitivity geometry solver vertex)) /\
       (forall m,
          iMarker <= m \/ selected config m = false ->
          CDiscAdjSolver.CSensitivity st.1 !! m
          = CDiscAdjSolver.CSensitivity solver !! m) /\
       st.2 = sum_doubles
                ((fun iMarker =>
                    Double.sqrt
                      (sum_of_squares geometry solver
                         (vertices_of geometry iMarker)))
                   <$> filter (fun iMarker => selected config iMarker = true)
                              (seq 0 iMarker))))
    in Hrun.
  - simpl in Hrun. exact Hrun.
  - simpl. repeat split; auto. intros; lia.
  - intros m [s1 t1] [s2 t2] _
      (Hnode & Hdim & Hmark & Hrows & Hkeep & Htot) Hbody.
    cbn [fst snd] in *.
    apply surface_marker_spec in Hbody
      as (Hnode2 & Hdim2 & Hmark2 & Hother & Hsel).
    split; [congruence|]. split; [congruence|]. split; [congruence|].
    rewrite seq_S, filter_app, fmap_app. unfold sum_doubles in *.
    rewrite foldl_app, <- Htot. rewrite Nat.add_0_l.
    rewrite filter_singleton by exact [].
    destruct (selected config m) eqn:Hm.
    + destruct Hsel as [Hnew ->].
      rewrite (sum_of_squares_frame _ _ _ _ Hnode Hdim).
      split; [|split; [|reflexivity]].
      * intros m' i vertex Hlt Hsel' Hv.
        destruct (decide (m' = m)) as [->|Hne].
        -- destruct (Hnew i vertex Hv) as (row & Hrow & Hi).
           rewrite (vertex_CSensitivity_frame _ _ _ _ Hnode Hdim) in Hi. eauto.
        -- rewrite Hother by done. apply Hrows; [lia|done..].
      * intros m' Hm'. rewrite Hother by (intros ->; destruct Hm'; [lia|congruence]).
        apply Hkeep. destruct Hm'; [left; lia | by right].
    + destruct Hsel as [HCS ->]. rewrite HCS.
      split; [|split; [|reflexivity]].
      * intros m' i vertex Hlt Hsel' Hv.
        apply Hrows; [|done..].
        destruct (decide (m' = m)) as [->|Hne]; [congruence | lia].
      * intros m' Hm'. apply Hkeep.
        destruct (decide (m' = m)) as [->|Hne]; [by right|].
        destruct Hm'; [left; lia | by right].
Qed.

(** ** The loops stay inside their arrays on well-formed inputs *)

Lemma same_shape_refl solver : same_shape solver solver.
Proof. repeat split; eauto. Qed.

Lemma same_shape_trans s1 s2 s3 :
  same_shape s1 s2 -> same_shape s2 s3 -> same_shape s1 s3.
Proof.
  intros (Hn & Hd & Hm & Hg & Hr) (Hn' & Hd' & Hm' & Hg' & Hr').
  repeat split; try congruence.
  intros m row Hrow. destruct (Hr m row Hrow) as (row' & Hrow' & Hlen).
  destruct (Hr' m row' Hrow') as (row'' & Hrow'' & Hlen').
  exists row''. split; [done | congruence].
Qed.

Lemma wf_vertex_shape geometry solver solver' vertex :
  same_shape solver solver' ->
  wf_vertex geometry solver vertex -> wf_vertex geometry solver' vertex.
Proof.
  intros (Hn & Hd & _) (HN & HNormal & v & Hv & HS).
  unfold wf_vertex. rewrite Hn, Hd. eauto 6.
Qed.

Lemma Prod_Area_returns geometry solver vertex :
  wf_vertex geometry solver vertex ->
  exists PA,
    Prod_Area solver (CVertex.Node vertex) (CVertex.Normal vertex)
    = Returns PA.
Proof.
  intros (_ & HNormal & v & Hv & HS). unfold Prod_Area.
  destruct (for_loop_total (fun _ _ => True) (CDiscAdjSolver.nDim solver) 0
              (fun iDim '(Prod, Area) =>
                 v ← load (CDiscAdjSolver.node solver) (CVertex.Node vertex);
                 SensDim ← load (CVariable.Sensitivity v) iDim;
                 n ← load (CVertex.Normal vertex) iDim;
                 Returns (Prod + n * SensDim, Area + n * n)%D)
              (Double.zero, Double.zero) I) as (PA & HPA & _); [|eauto].
  intros i [P A] [_ Hi] _. simpl in Hi.
  apply load_Returns in Hv. rewrite Hv. simpl.
  destruct (load_lt (CVariable.Sensitivity v) i) as (x & -> & _); [lia|].
  destruct (load_lt (CVertex.Normal vertex) i) as (n & -> & _); [lia|].
  simpl. eauto.
Qed.

Lemma store_CSensitivity_total iMarker iVertex x solver row :
  CDiscAdjSolver.CSensitivity solver !! iMarker = Some row ->
  iVertex < length row ->
  store_CSensitivity iMarker iVertex x solver
  = Returns (CDiscAdjSolver.set_CSensitivity
               (<[iMarker := <[iVertex := x]> row]>
                  (CDiscAdjSolver.CSensitivity solver)) solver).
Proof.
  intros Hrow Hi. unfold store_CSensitivity.
  pose proof (lookup_lt_Some _ _ _ Hrow) as HlenM.
  apply load_Returns in Hrow. rewrite Hrow. simpl.
  rewrite store_lt by done. simpl. rewrite store_lt by done. reflexivity.
Qed.

Lemma load_CSensitivity_total iMarker iVertex solver row c :
  CDiscAdjSolver.CSensitivity solver !! iMarker = Some row ->
  row !! iVertex = Some c ->
  load_CSensitivity iMarker iVertex solver = Returns c.
Proof.
  intros Hrow Hc. unfold load_CSensitivity.
  apply load_Returns in Hrow, Hc. rewrite Hrow. simpl. exact Hc.
Qed.

Lemma surface_vertex_total geometry iMarker iVertex solver vertices vertex row :
  CGeometry.vertex geometry !! iMarker = Some vertices ->
  vertices !! iVertex = Some vertex ->
  wf_vertex geometry solver vertex ->
  CDiscAdjSolver.CSensitivity solver !! iMarker = Some row ->
  iVertex < length row ->
  iMarker < length (CDiscAdjSolver.Sens_Geo solver) ->
  exists solver',
    surface_vertex geometry iMarker iVertex solver = Returns solver' /\
    same_shape solver solver'.
Proof.
  intros Hvs Hv Hwf Hrow Hi Hm.
  assert (Hrun : exists solver',
            surface_vertex geometry iMarker iVertex solver = Returns solver').
  { destruct (Prod_Area_returns _ _ _ Hwf) as ([P A] & HPA).
    destruct Hwf as (HN & _).
    pose proof (lookup_lt_Some _ _ _ Hrow) as HlenM.
    unfold surface_vertex.
    apply load_Returns in Hvs, Hv. rewrite Hvs. simpl. rewrite Hv. simpl.
    rewrite HPA. simpl.
    rewrite (store_CSensitivity_total _ _ _ _ _ Hrow Hi). simpl.
    destruct (load_lt (CGeometry.node geometry) (CVertex.Node vertex) HN)
      as (p & -> & _). simpl.
    assert (Hflip : exists s2,
      (if CPoint.Flip_Orientation p then
         c ← load_CSensitivity iMarker iVertex
               (CDiscAdjSolver.set_CSensitivity
                  (<[iMarker := <[iVertex := (- (P / Double.sqrt A))%D]> row]>
                     (CDiscAdjSolver.CSensitivity solver)) solver);
         store_CSensitivity iMarker iVertex (- c)%D
           (CDiscAdjSolver.set_CSensitivity
              (<[iMarker := <[iVertex := (- (P / Double.sqrt A))%D]> row]>
                 (CDiscAdjSolver.CSensitivity solver)) solver)
       else
         Returns
           (CDiscAdjSolver.set_CSensitivity
              (<[iMarker := <[iVertex := (- (P / Double.sqrt A))%D]> row]>
                 (CDiscAdjSolver.CSensitivity solver)) solver)) = Returns s2 /\
      CDiscAdjSolver.Sens_Geo s2 = CDiscAdjSolver.Sens_Geo solver).
    { destruct (CPoint.Flip_Orientation p); [|eauto].
      erewrite load_CSensitivity_total;
        [|simpl; by apply list_lookup_insert_eq
         |by apply list_lookup_insert_eq].
      simpl. erewrite store_CSensitivity_total;
        [|simpl; by apply list_lookup_insert_eq
         |by rewrite length_insert].
      eauto. }
    destruct Hflip as (s2 & -> & HSG2). simpl.
    destruct (CPoint.Domain p); [|eauto].
    rewrite HSG2.
    destruct (load_lt (CDiscAdjSolver.Sens_Geo solver) iMarker Hm)
      as (g & -> & _). simpl. rewrite store_lt by done. simpl. eauto. }
  destruct Hrun as (solver' & Hrun). exists solver'. split; [exact Hrun|].
  destruct (surface_vertex_spec _ _ _ _ _ _ _ Hvs Hv Hrun)
    as (Hnode & Hdim & Hmark & (row0 & Hrow0 & _ & HCS) & HSG).
  repeat split; auto.
  - destruct (owned geometry vertex).
    + destruct HSG as (g & _ & ->). apply length_insert.
    + by rewrite HSG.
  - intros m r Hr. rewrite HCS.
    destruct (decide (m = iMarker)) as [->|Hne].
    + rewrite list_lookup_insert_eq by (by apply lookup_lt_Some in Hr).
      eexists. split; [reflexivity|].
      rewrite length_insert. congruence.
    + rewrite list_lookup_insert_ne by done. eauto.
Qed.

Lemma surface_vertices_total geometry iMarker solver vertices row :
  CGeometry.vertex geometry !! iMarker = Some vertices ->
  Forall (wf_vertex geometry solver) vertices ->
  CDiscAdjSolver.CSensitivity solver !! iMarker = Some row ->
  length vertices <= length row ->
  iMarker < length (CDiscAdjSolver.Sens_Geo solver) ->
  exists solver',
    for_loop (length vertices) 0 (surface_vertex geometry iMarker) solver
    = Returns solver' /\
    same_shape solver solver'.
Proof.
  intros Hvs Hwf Hrow Hlen Hm.
  apply (for_loop_total (fun _ s => same_shape solver s));
    [apply same_shape_refl|].
  intros j s1 [_ Hj] Hshape. simpl in Hj.
  destruct (lookup_lt_is_Some_2 vertices j Hj) as [vx Hvx].
  destruct Hshape as (Hn & Hd & Hmk & Hg & Hr).
  destruct (Hr _ _ Hrow) as (row1 & Hrow1 & Hlen1).
  destruct (surface_vertex_total geometry iMarker j s1 vertices vx row1)
    as (s2 & Hrun & Hshape2); auto; try lia.
  - apply (wf_vertex_shape _ solver); [repeat split; auto|].
    eapply Forall_lookup_1; eauto.
  - exists s2. split; [exact Hrun|].
    eapply same_shape_trans; [|exact Hshape2]. repeat split; auto.
Qed.

Lemma surface_marker_total geometry config iMarker solver total :
  wf_surface geometry config solver ->
  iMarker < CDiscAdjSolver.nMarker solver ->
  exists solver' total',
    surface_marker geometry config iMarker (solver, total)
    = Returns (solver', total') /\
    same_shape solver solver'.
Proof.
  intros (HSG & HBC & Hsel) Hm. unfold surface_marker.
  rewrite store_lt by lia. simpl.
  destruct (load_lt (CConfig.Marker_All_KindBC config) iMarker)
    as (kind & -> & Hkind); [lia|]. simpl.
  set (s1 := CDiscAdjSolver.set_Sens_Geo _ solver).
  assert (Hs1 : same_shape solver s1).
  { repeat split; simpl; eauto. apply length_insert. }
  destruct (is_wall_of_interest kind) eqn:Hwall; [|eauto].
  destruct (Hsel iMarker Hm) as (vertices & row & Hvs & Hrow & Hlen & Hwf).
  { unfold selected. by rewrite Hkind. }
  assert (Hvs' := Hvs). apply load_Returns in Hvs'. rewrite Hvs'. simpl.
  destruct (surface_vertices_total geometry iMarker s1 vertices row)
    as (s2 & -> & Hs2); auto.
  - simpl. rewrite length_insert. lia.
  - simpl.
    destruct (load_lt (CDiscAdjSolver.Sens_Geo s2) iMarker) as (g & -> & _).
    { destruct Hs2 as (_ & _ & _ & -> & _). simpl. rewrite length_insert. lia. }
    simpl. eexists _, _. split; [reflexivity|].
    by eapply same_shape_trans.
Qed.

Lemma wf_surface_shape geometry config solver solver' :
  same_shape solver solver' ->
  wf_surface geometry config solver -> wf_surface geometry config solver'.
Proof.
  intros Hshape (HSG & HBC & Hsel).
  pose proof Hshape as (Hn & Hd & Hm & Hg & Hr).
  unfold wf_surface. rewrite Hm, Hg. split; [done|]. split; [done|].
  intros m Hlt Hs.
  destruct (Hsel m Hlt Hs) as (vertices & row & Hvs & Hrow & Hlen & Hwf).
  destruct (Hr _ _ Hrow) as (row' & Hrow' & Hlen').
  exists vertices, row'. repeat split; auto; [lia|].
  eapply Forall_impl; [exact Hwf|]. intros vx. by apply wf_vertex_shape.
Qed.

Lemma SetSurface_Sensitivity_local_total geometry config solver :
  wf_surface geometry config solver ->
  exists solver' total,
    SetSurface_Sensitivity_local geometry config solver
    = Returns (solver', total).
Proof.
  intros Hwf. unfold SetSurface_Sensitivity_local.
  set (s0 := CDiscAdjSolver.set_Total_Sens_Geo Double.zero solver).
  assert (Hs0 : same_shape solver s0) by (repeat split; simpl; eauto).
  destruct (for_loop_total
              (fun _ (st : CDiscAdjSolver.t * su2double) =>
                 same_shape solver st.1)
              (CDiscAdjSolver.nMarker s0) 0
              (surface_marker geometry config) (s0, Double.zero) Hs0)
    as ([s' t] & Hrun & _); [|eauto].
  intros m [s1 t1] [_ Hm] Hshape. cbn [fst] in *. simpl in Hm.
  destruct (surface_marker_total geometry config m s1 t1)
    as (s2 & t2 & Hrun & Hshape2).
  - by apply (wf_surface_shape _ _ solver).
  - destruct Hshape as (_ & _ & -> & _). exact Hm.
  - exists (s2, t2). split; [exact Hrun|].
    cbn [fst]. by eapply same_shape_trans.
Qed.

Lemma SetSurface_Sensitivity_total b Allreduce geometry config solver :
  wf_surface geometry config solver ->
  exists solver',
    SetSurface_Sensitivity b Allreduce geometry config solver
    = Returns solver'.
Proof.
  intros Hwf. unfold SetSurface_Sensitivity.
  destruct (SetSurface_Sensitivity_local_total _ _ _ Hwf)
    as (s' & t & ->). simpl. eauto.
Qed.

(** ** The sign of the arithmetic *)

Lemma same_number_refl (x : su2double) : same_number x x.
Proof. by left. Qed.

Lemma same_number_sym (x y : su2double) : same_number x y -> same_number y x.
Proof. intros [->|[? ?]]; [by left | by right]. Qed.

Lemma same_number_trans (x y z : su2double) :
  same_number x y -> same_number y z -> same_number x z.
Proof.
  intros [->|[Hx Hy]] [<-|[Hy' Hz]];
    [by left | by right | by right | by right].
Qed.

(** Rounding does not look at the sign. *)
Lemma binary_round_aux_negb (s : bool) (m e : Z) (l : location) :
  binary_round_aux Double.prec Double.emax (negb s) m e l
  = SFopp (binary_round_aux Double.prec Double.emax s m e l).
Proof.
  unfold binary_round_aux.
  destruct (shr_fexp _ _ m e l) as [mrs e'].
  destruct (shr_fexp _ _ _ e' loc_Exact) as [mrs' e''].
  destruct (shr_m mrs'); [reflexivity | | reflexivity].
  by destruct (Z.leb _ _).
Qed.

Lemma mul_opp_l (n x : su2double) : (- n * x)%D = (- (n * x))%D.
Proof.
  destruct n as [sn|sn| |sn mn en], x as [sx|sx| |sx mx ex];
    try (by destruct sn, sx); try (by destruct sn); try reflexivity.
  unfold Double.mul, Double.opp. cbn [SFmul SFopp].
  rewrite <- binary_round_aux_negb. by destruct sn, sx.
Qed.

Lemma div_opp_l (p a : su2double) : (- p / a)%D = (- (p / a))%D.
Proof.
  destruct p as [sp|sp| |sp mp ep], a as [sa|sa| |sa ma ea];
    try (by destruct sp, sa); try (by destruct sp); try reflexivity.
  unfold Double.div, Double.opp. cbn [SFdiv SFopp].
  destruct (SFdiv_core_binary _ _ _ _ _ _) as [[mz ez] lz].
  rewrite <- binary_round_aux_negb. by destruct sp, sa.
Qed.

Lemma cond_Zopp_negb (s : bool) (m : Z) :
  cond_Zopp (negb s) m = (- cond_Zopp s m)%Z.
Proof. destruct s; simpl; lia. Qed.

Lemma binary_normalize_opp (m e : Z) :
  same_number (binary_normalize Double.prec Double.emax (- m) e false)
              (SFopp (binary_normalize Double.prec Double.emax m e false)).
Proof.
  destruct m as [|m|m]; simpl.
  - right. by split.
  - left. unfold binary_round.
    destruct (shl_align _ _ _) as [mz ez].
    apply (binary_round_aux_negb false).
  - left. unfold binary_round.
    destruct (shl_align _ _ _) as [mz ez].
    rewrite (binary_round_aux_negb false). symmetry. 
    by destruct (binary_round_aux _ _ _ _ _ _) as [[]|[]| |[]].
Qed.

Lemma add_opp_opp (x y : su2double) :
  same_number (- x + - y)%D (- (x + y))%D.
Proof.
  destruct x as [sx|sx| |sx mx ex], y as [sy|sy| |sy my ey];
    try (left; by destruct sx, sy); try (left; by destruct sx);
    try (left; by destruct sy); try (by left).
  - destruct sx, sy; (by left) || (right; by split).
  - unfold Double.add, Double.opp. cbn [SFadd SFopp].
    rewrite !cond_Zopp_negb, <- Z.opp_add_distr.
    apply binary_normalize_opp.
Qed.

Lemma add_same_number (a b t : su2double) :
  same_number a b -> same_number (a + t)%D (b + t)%D.
Proof.
  intros [->|[Ha Hb]]; [by left|].
  destruct a as [sa| | |]; try discriminate Ha.
  destruct b as [sb| | |]; try discriminate Hb.
  destruct t as [st|st| |st mt et]; try (by left).
  destruct sa, sb, st; (by left) || (right; by split).
Qed.

Lemma div_same_number (p q a : su2double) :
  same_number p q -> same_number (p / a)%D (q / a)%D.
Proof.
  intros [->|[Hp Hq]]; [by left|].
  destruct p as [sp| | |]; try discriminate Hp.
  destruct q as [sq| | |]; try discriminate Hq.
  destruct a as [sa|sa| |sa ma ea]; try (by left); right; by split.
Qed.

Lemma opp_same_number (x y : su2double) :
  same_number x y -> same_number (- x)%D (- y)%D.
Proof.
  intros [->|[Hx Hy]]; [by left|]. right.
  destruct x as [[]| | |], y as [[]| | |]; try discriminate; by split.
Qed.

(** The dot product with the negated vector is the negated dot product, as
    a number. *)
Lemma dot_opp_l (nDim : nat) (x y : list su2double) :
  same_number (dot nDim (Double.opp <$> x) y) (- dot nDim x y)%D.
Proof.
  unfold dot. rewrite <- fmap_take.
  assert (H : forall (xs ys : list su2double) (a a' : su2double),
    same_number a' (- a)%D ->
    same_number
      (foldl (fun acc xy => acc + xy.1 * xy.2)%D a'
             (zip (Double.opp <$> xs) ys))
      (- foldl (fun acc xy => acc + xy.1 * xy.2)%D a (zip xs ys))%D).
  { induction xs as [|n xs IH]; intros [|s ys] a a' Ha; try exact Ha.
    simpl. apply IH. rewrite mul_opp_l.
    eapply same_number_trans; [apply add_same_number, Ha|].
    apply add_opp_opp. }
  apply H. right. by split.
Qed.

(** The squared length of the negated vector is the same. *)
Lemma dot_opp_opp (nDim : nat) (x : list su2double) :
  dot nDim (Double.opp <$> x) (Double.opp <$> x) = dot nDim x x.
Proof.
  unfold dot. rewrite <- fmap_take. generalize (take nDim x). intros xs.
  generalize Double.zero.
  induction xs as [|n xs IH]; intros a; [reflexivity|].
  simpl. rewrite mul_opp_opp. apply IH.
Qed.

(** What the code stores for a vertex is, as a number, the projection onto
    the outward unit normal, negated when the point is flipped. *)
Lemma vertex_CSensitivity_outward geometry solver vertex :
  same_number (vertex_CSensitivity geometry solver vertex)
    (if flipped geometry vertex then (- outward_projection solver vertex)%D
     else outward_projection solver vertex).
Proof.
  assert (H : same_number (outward_projection solver vertex)
                          (- vertex_Sens solver vertex)%D).
  { unfold outward_projection, vertex_Sens, projection, outward_normal.
    rewrite dot_opp_opp, <- div_opp_l.
    apply div_same_number, dot_opp_l. }
  unfold vertex_CSensitivity. destruct (flipped geometry vertex).
  - apply same_number_sym.
    eapply same_number_trans; [apply opp_same_number, H|].
    rewrite opp_involutive. apply same_number_refl.
  - by apply same_number_sym.
Qed.

(** C7, with the marker kinds of the code.  [SetSurface_Sensitivity] returns
    on well-formed inputs.  On a marker of kind [EULER_WALL], [HEAT_FLUX] or
    [ISOTHERMAL], the sensitivity stored for a vertex is, as a number, the
    projection of the coordinate-derivative vector of its point onto the
    outward unit normal (the dot product with the outward normal divided by
    its magnitude), negated exactly when the orientation flag of the point
    is set.  In the terms of the code it is minus the quotient of the dot
    product with the vertex normal by the magnitude of the normal, and that
    quotient itself when the flag is set.  The rows of the markers of any
    other kind are left as they were. *)
Theorem SetSurface_Sensitivity_projects
    (b : build) (Allreduce : su2double -> su2double)
    (geometry : CGeometry.t) (config : CConfig.t)
    (solver : CDiscAdjSolver.t) :
  (wf_surface geometry config solver ->
   exists solver',
     SetSurface_Sensitivity b Allreduce geometry config solver
     = Returns solver') /\
  forall solver',
    SetSurface_Sensitivity b Allreduce geometry config solver
      = Returns solver' ->
    (forall iMarker iVertex kind vertices vertex p,
       iMarker < CDiscAdjSolver.nMarker solver ->
       CConfig.Marker_All_KindBC config !! iMarker = Some kind ->
       kind = EULER_WALL \/ kind = HEAT_FLUX \/ kind = ISOTHERMAL ->
       CGeometry.vertex geometry !! iMarker = Some vertices ->
       vertices !! iVertex = Some vertex ->
       CGeometry.node geometry !! CVertex.Node vertex = Some p ->
       let Sens :=
         projection (CDiscAdjSolver.nDim solver) (CVertex.Normal vertex)
                    (point_Sensitivity solver (CVertex.Node vertex)) in
       let outward := outward_projection solver vertex in
       exists row stored,
         CDiscAdjSolver.CSensitivity solver' !! iMarker = Some row /\
         row !! iVertex = Some stored /\
         stored = (if CPoint.Flip_Orientation p then Sens else (- Sens)%D) /\
         same_number stored
           (if CPoint.Flip_Orientation p then (- outward)%D else outward)) /\
    (forall iMarker kind,
       CConfig.Marker_All_KindBC config !! iMarker = Some kind ->
       kind <> EULER_WALL -> kind <> HEAT_FLUX -> kind <> ISOTHERMAL ->
       CDiscAdjSolver.CSensitivity solver' !! iMarker
       = CDiscAdjSolver.CSensitivity solver !! iMarker).
Proof.
  split; [apply SetSurface_Sensitivity_total|].
  intros solver' Hrun. unfold SetSurface_Sensitivity in Hrun.
  apply bind_Returns in Hrun as ([s1 t] & Hlocal & Hrun).
  injection Hrun as <-.
  apply SetSurface_Sensitivity_local_spec in Hlocal
    as (_ & _ & _ & Hrows & Hkeep & _).
  split.
  - intros iMarker iVertex kind vertices vertex p Hm Hkind Hwall Hvs Hv Hp
      Sens outward.
    assert (Hsel : selected config iMarker = true).
    { unfold selected. rewrite Hkind.
      destruct Hwall as [->|[->| ->]]; reflexivity. }
    destruct (Hrows iMarker iVertex vertex Hm Hsel) as (row & Hrow & Hi).
    { unfold vertices_of. by rewrite Hvs. }
    pose proof (vertex_CSensitivity_outward geometry solver vertex) as Hout.
    assert (Hflip : flipped geometry vertex = CPoint.Flip_Orientation p)
      by (unfold flipped; by rewrite Hp).
    rewrite Hflip in Hout.
    exists row, (vertex_CSensitivity geometry solver vertex).
    split; [exact Hrow|]. split; [exact Hi|]. split; [|exact Hout].
    unfold vertex_CSensitivity. rewrite Hflip. reflexivity.
  - intros iMarker kind Hkind H1 H2 H3. simpl. apply Hkeep. right.
    unfold selected. rewrite Hkind. simpl. unfold is_wall_of_interest.
    rewrite !bool_decide_eq_false_2 by done. reflexivity.
Qed.

Lemma wf_surface_example :
  wf_surface Example.geometry0 Example.config0 Example.solver0.
Proof.
  split; [simpl; lia|]. split; [simpl; lia|].
  intros [|[|m]] Hm Hsel; [|discriminate Hsel | simpl in Hm; lia].
  eexists _, _. split; [reflexivity|]. split; [reflexivity|].
  split; [simpl; lia|].
  repeat constructor; simpl; try lia.
  eexists. split; [reflexivity | simpl; lia].
Defined.

(** The wall vertex of [geometry0] has the normal (2, 0), so that its
    outward normal is (-2, 0); its point has the coordinate derivatives
    (1, 0) and is not flipped: the projection onto the outward unit normal
    is -1, and -1 is stored. *)
Lemma SetSurface_Sensitivity_projects_witness :
  SetSurface_Sensitivity Serial id Example.geometry0 Example.config0
    Example.solver0 = Returns Example.surfaced /\
  outward_projection Example.solver0
    (CVertex.Build 0 [Example.two; Double.zero]) = (- Double.one)%D /\
  exists row stored,
    CDiscAdjSolver.CSensitivity Example.surfaced !! 0 = Some row /\
    row !! 0 = Some stored /\
    stored = (- Double.one)%D /\
    same_number stored
      (outward_projection Example.solver0
         (CVertex.Build 0 [Example.two; Double.zero])).
Proof.
  pose proof (SetSurface_Sensitivity_projects Serial id Example.geometry0
                Example.config0 Example.solver0) as [Hreturns Hprojects].
  destruct (Hreturns wf_surface_example) as (solver' & Hrun).
  assert (solver' = Example.surfaced) as ->
    by (vm_compute in Hrun; injection Hrun as <-; reflexivity).
  split; [exact Hrun|]. split; [vm_compute; reflexivity|].
  destruct (proj1 (Hprojects Example.surfaced Hrun)
               0 0 EULER_WALL
               [CVertex.Build 0 [Example.two; Double.zero]]
               (CVertex.Build 0 [Example.two; Double.zero])
               (CPoint.Build 1 [AD.Var Double.zero 11; AD.Var Double.zero 12]
                             Double.zero false true)
               ltac:(vm_compute; lia) eq_refl (or_introl eq_refl)
               eq_refl eq_refl eq_refl)
    as (row & stored & Hrow & Hstored & Hvalue & Hsame).
  exists row, stored. split; [exact Hrow|]. split; [exact Hstored|].
  split; [rewrite Hvalue; vm_compute; reflexivity | exact Hsame].
Defined.

(** C7 as stated fails on the kinds of the markers.  The first marker of
    [config0] is an Euler wall, a slip wall that is none of the no-slip
    kinds the claim lists, and its vertex receives a surface sensitivity:
    its entry, 0 before the call, is -1 afterwards. *)
Lemma Euler_wall_receives_a_surface_sensitivity :
  exists solver',
    SetSurface_Sensitivity Serial id Example.geometry0 Example.config0
      Example.solver0 = Returns solver' /\
    CConfig.Marker_All_KindBC Example.config0 !! 0 = Some EULER_WALL /\
    no_slip_wall EULER_WALL = false /\
    CDiscAdjSolver.CSensitivity Example.solver0 !! 0 = Some [Double.zero] /\
    CDiscAdjSolver.CSensitivity solver' !! 0 = Some [(- Double.one)%D] /\
    CDiscAdjSolver.CSensitivity solver' !! 0
    <> CDiscAdjSolver.CSensitivity Example.solver0 !! 0.
Proof.
  exists Example.surfaced.
  split; [vm_compute; reflexivity|].
  split; [reflexivity|]. split; [reflexivity|]. split; [reflexivity|].
  split; [reflexivity | discriminate].
Qed.

(** ** The reduction of the geometric sensitivity *)

Lemma mapM_total {A B} (f : A -> outcome B) (l : list A) :
  Forall (fun x => exists y, f x = Returns y) l ->
  exists k, mapM f l = Returns k.
Proof.
  induction 1 as [|x l [y Hy] _ [k Hk]]; simpl; [by eexists|].
  rewrite Hy. simpl. rewrite Hk. simpl. by eexists.
Qed.

Lemma mapM_Returns {A B} (f : A -> outcome B) (l : list A) (k : list B) :
  mapM f l = Returns k ->
  Forall2 (fun x y => f x = Returns y) l k.
Proof.
  revert k. induction l as [|x l IH]; intros k Hrun; simpl in Hrun.
  - injection Hrun as <-. constructor.
  - inv_outcome. cbv [mret outcome_ret] in Hrun. injection Hrun as <-.
    constructor; auto.
Qed.

Lemma SetSurface_Sensitivity_Total b Allreduce geometry config solver solver' :
  SetSurface_Sensitivity b Allreduce geometry config solver = Returns solver' ->
  CDiscAdjSolver.Total_Sens_Geo solver'
  = match b with
    | HAVE_MPI _ => Allreduce (local_Total_Sens_Geo geometry config solver)
    | Serial => local_Total_Sens_Geo geometry config solver
    end.
Proof.
  intros Hrun. unfold SetSurface_Sensitivity in Hrun.
  apply bind_Returns in Hrun as ([s1 t] & Hlocal & Hrun).
  injection Hrun as <-.
  apply SetSurface_Sensitivity_local_spec in Hlocal
    as (_ & _ & _ & _ & _ & ->).
  reflexivity.
Qed.

Lemma sendbuf_of_spec b geometry config solver x :
  sendbuf_of b (geometry, config, solver) = Returns x ->
  x = local_Total_Sens_Geo geometry config solver.
Proof.
  intros Hrun. unfold sendbuf_of in Hrun.
  apply bind_Returns in Hrun as (s' & Hs' & Hrun). injection Hrun as <-.
  rewrite (SetSurface_Sensitivity_Total _ _ _ _ _ _ Hs').
  by destruct b.
Qed.

(** The send buffers of a job are the local totals of its ranks. *)
Lemma sendbufs_spec b (ranks : job) (sendbufs : list su2double) :
  mapM (sendbuf_of b) ranks = Returns sendbufs ->
  sendbufs
  = (fun '(geometry, config, solver) =>
       local_Total_Sens_Geo geometry config solver) <$> ranks.
Proof.
  intros Hrun. apply mapM_Returns in Hrun.
  induction Hrun as [|[[g c] s] x l k Hx _ IH]; [reflexivity|].
  simpl. f_equal; [|exact IH]. by apply sendbuf_of_spec in Hx.
Qed.

(** C8. The job returns when the inputs of every rank are well formed.  On
    every rank the local total is the sum, over the selected markers, of the
    square roots of the sums of squares of the per-vertex sensitivities of
    the owned vertices ([local_Total_Sens_Geo]), and it is what the rank
    passes to the collective; in an MPI build, with a reduction [MPI_SUM]
    that adds up what the ranks send, the [Total_Sens_Geo] every rank
    publishes is the reduction of the local totals of all the ranks, a sum
    of them, and in a serial build it is the local total. *)
Theorem Total_Sens_Geo_is_collective_sum
    (MPI_SUM : list su2double -> su2double) (b : build) (ranks : job) :
  (forall l, l <> [] -> sum_of l (MPI_SUM l)) ->
  (Forall (fun '(geometry, config, solver) =>
             wf_surface geometry config solver) ranks ->
   exists solvers',
     SPMD_SetSurface_Sensitivity MPI_SUM b ranks = Returns solvers') /\
  forall solvers',
    SPMD_SetSurface_Sensitivity MPI_SUM b ranks = Returns solvers' ->
    forall r geometry config solver,
      ranks !! r = Some (geometry, config, solver) ->
      let local_totals :=
        (fun '(geometry, config, solver) =>
           local_Total_Sens_Geo geometry config solver) <$> ranks in
      exists solver' solver_local,
        solvers' !! r = Some solver' /\
        SetSurface_Sensitivity_local geometry config solver
        = Returns (solver_local,
                   local_Total_Sens_Geo geometry config solver) /\
        sendbuf_of b (geometry, config, solver)
        = Returns (local_Total_Sens_Geo geometry config solver) /\
        CDiscAdjSolver.Total_Sens_Geo solver'
        = match b with
          | HAVE_MPI _ => MPI_SUM local_totals
          | Serial => local_Total_Sens_Geo geometry config solver
          end /\
        match b with
        | HAVE_MPI _ =>
            sum_of local_totals (CDiscAdjSolver.Total_Sens_Geo solver')
        | Serial => True
        end.
Proof.
  intros Hsum. split.
  { intros Hwf. unfold SPMD_SetSurface_Sensitivity.
    destruct (mapM_total (sendbuf_of b) ranks) as (sendbufs & ->).
    { eapply Forall_impl; [exact Hwf|]. intros [[g c] s] H.
      unfold sendbuf_of.
      destruct (SetSurface_Sensitivity_total b id _ _ _ H) as (s' & ->).
      simpl. eauto. }
    simpl. apply mapM_total. apply Forall_lookup.
    intros r [r' [[g c] s]] Hr. rewrite list_lookup_imap in Hr.
    apply fmap_Some in Hr as ([[g0 c0] s0] & Hr0 & Hr).
    injection Hr as <- <- <- <-.
    apply SetSurface_Sensitivity_total.
    exact (Forall_lookup_1 _ _ _ _ Hwf Hr0). }
  intros solvers' Hrun r geometry config solver Hr local_totals.
  unfold SPMD_SetSurface_Sensitivity in Hrun.
  apply bind_Returns in Hrun as (sendbufs & Hsent & Hrun).
  pose proof (sendbufs_spec _ _ _ Hsent) as Hlocals.
  fold local_totals in Hlocals. subst sendbufs.
  apply mapM_Returns in Hsent, Hrun.
  destruct (Forall2_lookup_l _ _ _ _ _ Hsent Hr) as (x & Hx & Hsend).
  pose proof (sendbuf_of_spec _ _ _ _ _ Hsend) as ->.
  assert (Hr' : imap pair ranks !! r = Some (r, (geometry, config, solver)))
    by (rewrite list_lookup_imap; apply fmap_Some; eexists;
        split; [exact Hr|reflexivity]).
  destruct (Forall2_lookup_l _ _ _ _ _ Hrun Hr') as (solver' & Hs' & Hone).
  simpl in Hone.
  assert (Hlocal := Hone). unfold SetSurface_Sensitivity in Hlocal.
  apply bind_Returns in Hlocal as ([s1 t] & Hlocal & _).
  assert (Htotal :
    CDiscAdjSolver.Total_Sens_Geo solver'
    = match b with
      | HAVE_MPI _ => MPI_SUM local_totals
      | Serial => local_Total_Sens_Geo geometry config solver
      end).
  { rewrite (SetSurface_Sensitivity_Total _ _ _ _ _ _ Hone).
    destruct b; [reflexivity|]. by rewrite list_insert_id. }
  exists solver', s1. split; [exact Hs'|]. split; [|split; [exact Hsend|]].
  - rewrite Hlocal.
    by apply SetSurface_Sensitivity_local_spec in Hlocal
      as (_ & _ & _ & _ & _ & ->).
  - split; [exact Htotal|]. rewrite Htotal. destruct b; [exact I|].
    apply Hsum. intros Hnil. by rewrite Hnil in Hx.
Qed.

Lemma wf_surface_example1 :
  wf_surface Example.geometry1 Example.config0 Example.solver1.
Proof.
  split; [simpl; lia|]. split; [simpl; lia|].
  intros [|[|m]] Hm Hsel; [|discriminate Hsel | simpl in Hm; lia].
  eexists _, _. split; [reflexivity|]. split; [reflexivity|].
  split; [simpl; lia|].
  repeat constructor; simpl; try lia;
    (eexists; split; [reflexivity | simpl; lia]).
Defined.

Lemma foldl_add_sums (l pre : list su2double) (acc : su2double) :
  sum_of pre acc -> sum_of (pre ++ l) (foldl Double.add acc l).
Proof.
  revert pre acc. induction l as [|y l IH]; intros pre acc Hacc; simpl.
  - by rewrite app_nil_r.
  - rewrite (cons_middle y pre l), (assoc_L (++)).
    apply IH. apply sum_of_add; [exact Hacc | constructor].
Qed.

Lemma sum_in_rank_order_sums (l : list su2double) :
  l <> [] -> sum_of l (Example.sum_in_rank_order l).
Proof.
  destruct l as [|x l]; [done|]. intros _.
  apply (foldl_add_sums l [x] x). constructor.
Qed.

(** Two ranks whose local totals are 1 and 2 (the halo vertex of rank 1 does
    not count): both send their local total and both publish 3. *)
Lemma Total_Sens_Geo_is_collective_sum_witness :
  SPMD_SetSurface_Sensitivity Example.sum_in_rank_order (HAVE_MPI 2)
    Example.two_ranks = Returns Example.reduced /\
  exists solver',
    Example.reduced !! 1 = Some solver' /\
    sendbuf_of (HAVE_MPI 2)
      (Example.geometry1, Example.config0, Example.solver1)
    = Returns Example.two /\
    CDiscAdjSolver.Total_Sens_Geo solver' = Example.three.
Proof.
  pose proof (Total_Sens_Geo_is_collective_sum Example.sum_in_rank_order
                (HAVE_MPI 2) Example.two_ranks sum_in_rank_order_sums)
    as [Hreturns Hsum].
  destruct Hreturns as (solvers' & Hrun).
  { repeat constructor; [apply wf_surface_example|apply wf_surface_example1]. }
  assert (solvers' = Example.reduced) as ->
    by (vm_compute in Hrun; injection Hrun as <-; reflexivity).
  split; [exact Hrun|].
  destruct (Hsum Example.reduced Hrun
              1 Example.geometry1 Example.config0 Example.solver1 eq_refl)
    as (solver' & solver_local & Hs' & Hlocal & Hsend & Htotal & _).
  exists solver'. split; [exact Hs'|]. split.
  - rewrite Hsend. vm_compute. reflexivity.
  - rewrite Htotal. vm_compute. reflexivity.
Defined.

(** ** The sensitivities of the points *)

Lemma sharp_edge_filter_distance config p p' x :
  CPoint.SharpEdge_Distance p' = CPoint.SharpEdge_Distance p ->
  sharp_edge_filter config p' x = sharp_edge_filter config p x.
Proof. intros H. unfold sharp_edge_filter. by rewrite H. Qed.

(** The loop over [iDim] at the point [iPoint]. *)
Lemma sensitivity_components_spec config tp iPoint (n : nat)
    geometry solver geometry' solver' :
  for_loop n 0 (sensitivity_component config tp iPoint) (geometry, solver)
    = Returns (geometry', solver') ->
  CDiscAdjSolver.nPoint solver' = CDiscAdjSolver.nPoint solver /\
  CDiscAdjSolver.nDim solver' = CDiscAdjSolver.nDim solver /\
  (forall j, j <> iPoint ->
     CGeometry.node geometry' !! j = CGeometry.node geometry !! j /\
     CDiscAdjSolver.node solver' !! j = CDiscAdjSolver.node solver !! j) /\
  (forall d, d < n ->
     exists p c v',
       CGeometry.node geometry !! iPoint = Some p /\
       CPoint.Coord p !! d = Some c /\
       CDiscAdjSolver.node solver' !! iPoint = Some v' /\
       CVariable.Sensitivity v' !! d
       = Some (sharp_edge_filter config p (AD.GetDerivative tp c))).
Proof.
  intros Hrun.
  apply (for_loop_inv
    (fun d (st : CGeometry.t * CDiscAdjSolver.t) =>
       CDiscAdjSolver.nPoint st.2 = CDiscAdjSolver.nPoint solver /\
       CDiscAdjSolver.nDim st.2 = CDiscAdjSolver.nDim solver /\
       (forall j, j <> iPoint ->
          CGeometry.node st.1 !! j = CGeometry.node geometry !! j /\
          CDiscAdjSolver.node st.2 !! j = CDiscAdjSolver.node solver !! j) /\
       (forall pcur, CGeometry.node st.1 !! iPoint = Some pcur ->
          exists p, CGeometry.node geometry !! iPoint = Some p /\
                    CPoint.SharpEdge_Distance pcur
                    = CPoint.SharpEdge_Distance p /\
                    forall d', d <= d' ->
                      CPoint.Coord pcur !! d' = CPoint.Coord p !! d') /\
       (forall d', d' < d ->
          exists p c v',
            CGeometry.node geometry !! iPoint = Some p /\
            CPoint.Coord p !! d' = Some c /\
            CDiscAdjSolver.node st.2 !! iPoint = Some v' /\
            CVariable.Sensitivity v' !! d'
            = Some (sharp_edge_filter config p (AD.GetDerivative tp c)))))
    in Hrun.
  - simpl in Hrun. destruct Hrun as (? & ? & ? & _ & ?). auto.
  - simpl. repeat split; auto; [eauto | intros; lia].
  - intros d [g1 s1] [g2 s2] _ (HnP & HnD & Hother & Hcur & Hdone) Hbody.
    cbn [fst snd] in *. unfold sensitivity_component in Hbody.
    apply bind_Returns in Hbody as (pcur & Hpcur & Hbody).
    apply load_Returns in Hpcur.
    apply bind_Returns in Hbody as (c & Hc & Hbody). apply load_Returns in Hc.
    apply bind_Returns in Hbody as (Coord' & HCoord & Hbody).
    apply store_Returns in HCoord as [HlenC ->].
    apply bind_Returns in Hbody as (gnode & Hgnode & Hbody).
    apply store_Returns in Hgnode as [HlenG ->].
    apply bind_Returns in Hbody as (v & Hv & Hbody). apply load_Returns in Hv.
    apply bind_Returns in Hbody as (sens & Hsens & Hbody).
    apply store_Returns in Hsens as [HlenS ->].
    apply bind_Returns in Hbody as (snode & Hsnode & Hbody).
    apply store_Returns in Hsnode as [HlenN ->].
    injection Hbody as <- <-. simpl.
    destruct (Hcur pcur Hpcur) as (p & Hp & Hdist & Hcoords).
    split; [done|]. split; [done|]. split; [|split].
    + intros j Hj. rewrite !list_lookup_insert_ne by done. auto.
    + intros pcur' Hpcur'.
      rewrite list_lookup_insert_eq in Hpcur' by done.
      injection Hpcur' as <-. exists p. simpl. repeat split; auto.
      intros d' Hd'. rewrite list_lookup_insert_ne by lia.
      apply Hcoords. lia.
    + intros d' Hd'. rewrite list_lookup_insert_eq by done.
      destruct (decide (d' = d)) as [->|Hne].
      * exists p, c. eexists. rewrite <- Hcoords by lia.
        split; [done|]. split; [done|]. split; [reflexivity|]. simpl.
        rewrite list_lookup_insert_eq by done.
        f_equal. by apply sharp_edge_filter_distance.
      * destruct (Hdone d' ltac:(lia)) as (p' & c' & v' & Hp' & Hc' & Hv' & HS).
        exists p', c'. eexists.
        split; [done|]. split; [done|]. split; [reflexivity|]. simpl.
        rewrite list_lookup_insert_ne by done. congruence.
Qed.

(** The loops over the points and the dimensions. *)
Lemma SetSensitivity_points_spec config tp geometry solver geometry' solver' :
  SetSensitivity_points config tp geometry solver
    = Returns (geometry', solver') ->
  forall iPoint iDim,
    iPoint < CDiscAdjSolver.nPoint solver ->
    iDim < CDiscAdjSolver.nDim solver ->
    exists p c v',
      CGeometry.node geometry !! iPoint = Some p /\
      CPoint.Coord p !! iDim = Some c /\
      CDiscAdjSolver.node solver' !! iPoint = Some v' /\
      CVariable.Sensitivity v' !! iDim
      = Some (sharp_edge_filter config p (AD.GetDerivative tp c)).
Proof.
  unfold SetSensitivity_points. intros Hrun.
  apply (for_loop_inv
    (fun i (st : CGeometry.t * CDiscAdjSolver.t) =>
       (forall j, i <= j ->
          CGeometry.node st.1 !! j = CGeometry.node geometry !! j) /\
       (forall j d, j < i -> d < CDiscAdjSolver.nDim solver ->
          exists p c v',
            CGeometry.node geometry !! j = Some p /\
            CPoint.Coord p !! d = Some c /\
            CDiscAdjSolver.node st.2 !! j = Some v' /\
            CVariable.Sensitivity v' !! d
            = Some (sharp_edge_filter config p (AD.GetDerivative tp c)))))
    in Hrun.
  - simpl in Hrun. destruct Hrun as [_ Hdone]. auto.
  - simpl. split; [done | intros; lia].
  - intros i [g1 s1] [g2 s2] _ [Hrest Hdone] Hbody. cbn [fst snd] in *.
    apply sensitivity_components_spec in Hbody
      as (_ & _ & Hother & Hnew).
    split.
    + intros j Hj. destruct (Hother j ltac:(lia)) as [-> _].
      apply Hrest. lia.
    + intros j d Hj Hd. destruct (decide (j = i)) as [->|Hne].
      * destruct (Hnew d Hd) as (p & c & v' & Hp & Hc & Hv' & HS).
        rewrite Hrest in Hp by done. eauto 10.
      * destruct (Hother j Hne) as [_ ->]. apply Hdone; [lia|done].
Qed.

Lemma points_shape_refl st : points_shape st st.
Proof.
  repeat split; auto; apply Forall_Forall2_diag, Forall_forall; auto.
Qed.

Lemma points_shape_trans st1 st2 st3 :
  points_shape st1 st2 -> points_shape st2 st3 -> points_shape st1 st3.
Proof.
  intros (Hv & Hg & Hs & H1 & H2 & H3 & H4 & H5)
         (Hv' & Hg' & Hs' & H1' & H2' & H3' & H4' & H5').
  repeat split; try congruence.
  - eapply Forall2_trans; [|exact Hg|exact Hg']. simpl. congruence.
  - eapply Forall2_trans; [|exact Hs|exact Hs']. simpl. congruence.
Qed.

Lemma sensitivity_component_total config tp iPoint iDim geometry solver p v :
  CGeometry.node geometry !! iPoint = Some p ->
  iDim < length (CPoint.Coord p) ->
  CDiscAdjSolver.node solver !! iPoint = Some v ->
  iDim < length (CVariable.Sensitivity v) ->
  exists st',
    sensitivity_component config tp iPoint iDim (geometry, solver)
    = Returns st' /\
    points_shape (geometry, solver) st'.
Proof.
  intros Hp Hc Hv Hs. unfold sensitivity_component.
  pose proof (lookup_lt_Some _ _ _ Hp) as HlenG.
  pose proof (lookup_lt_Some _ _ _ Hv) as HlenS.
  assert (Hp' := Hp). apply load_Returns in Hp'. rewrite Hp'. simpl.
  destruct (load_lt (CPoint.Coord p) iDim Hc) as (c & -> & _). simpl.
  rewrite !store_lt by done. simpl. rewrite store_lt by done. simpl.
  assert (Hv' := Hv). apply load_Returns in Hv'. rewrite Hv'. simpl.
  rewrite store_lt by done. simpl. rewrite store_lt by done. simpl.
  eexists. split; [reflexivity|].
  repeat split; simpl; auto.
  - rewrite <- (list_insert_id _ _ _ Hp) at 1.
    apply Forall2_insert; [|simpl; by rewrite length_insert].
    apply Forall_Forall2_diag, Forall_forall. auto.
  - rewrite <- (list_insert_id _ _ _ Hv) at 1.
    apply Forall2_insert; [|simpl; by rewrite length_insert].
    apply Forall_Forall2_diag, Forall_forall. auto.
Qed.

Lemma SetSensitivity_points_total config tp geometry solver :
  wf_points geometry solver ->
  exists st',
    SetSensitivity_points config tp geometry solver = Returns st' /\
    points_shape (geometry, solver) st'.
Proof.
  intros (HnG & HnS & HCoord & HSens). unfold SetSensitivity_points.
  apply (for_loop_total (fun _ st => points_shape (geometry, solver) st));
    [apply points_shape_refl|].
  intros i st1 [_ Hi] Hshape1. simpl in Hi.
  apply (for_loop_total (fun _ st => points_shape (geometry, solver) st));
    [exact Hshape1|].
  intros d [g2 s2] [_ Hd] Hshape2. simpl in Hd.
  destruct Hshape2 as (Hv & Hg & Hs & Hrest). cbn [fst snd] in *.
  destruct (lookup_lt_is_Some_2 (CGeometry.node geometry) i) as [p0 Hp0];
    [lia|].
  destruct (lookup_lt_is_Some_2 (CDiscAdjSolver.node solver) i) as [v0 Hv0];
    [lia|].
  destruct (Forall2_lookup_l _ _ _ _ _ Hg Hp0) as (p & Hp & Hlenp).
  destruct (Forall2_lookup_l _ _ _ _ _ Hs Hv0) as (v & Hv' & Hlenv).
  pose proof (Forall_lookup_1 _ _ _ _ HCoord Hp0) as HC0.
  pose proof (Forall_lookup_1 _ _ _ _ HSens Hv0) as HS0.
  simpl in HC0, HS0, Hlenp, Hlenv.
  destruct (sensitivity_component_total config tp i d g2 s2 p v)
    as (st' & Hrun & Hshape'); auto; try lia.
  exists st'. split; [exact Hrun|].
  eapply points_shape_trans; [|exact Hshape']. repeat split; tauto.
Qed.

Lemma wf_surface_points_shape geometry config solver geometry' solver' :
  points_shape (geometry, solver) (geometry', solver') ->
  wf_surface geometry config solver -> wf_surface geometry' config solver'.
Proof.
  intros (Hv & Hg & Hs & HnP & HnD & HnM & HCS & HSG) (H1 & H2 & Hsel).
  cbn [fst snd] in *. unfold wf_surface.
  rewrite HnM, HSG, HCS, Hv. split; [done|]. split; [done|].
  intros m Hm Hselm.
  destruct (Hsel m Hm Hselm) as (vertices & row & Hvs & Hrow & Hlen & Hwf).
  exists vertices, row. repeat split; auto.
  eapply Forall_impl; [exact Hwf|].
  intros vx (HN & HNormal & v & Hvx & HSens).
  unfold wf_vertex. rewrite HnD. rewrite <- (Forall2_length _ _ _ Hg).
  split; [done|]. split; [done|].
  destruct (Forall2_lookup_l _ _ _ _ _ Hs Hvx) as (v' & Hv' & Hlenv).
  exists v'. split; [done|]. simpl in Hlenv. lia.
Qed.

Lemma SetSensitivity_total b Allreduce tp geometry config solver :
  wf_points geometry solver ->
  wf_surface geometry config solver ->
  exists r,
    SetSensitivity b Allreduce tp geometry config solver = Returns r.
Proof.
  intros Hpoints Hsurface. unfold SetSensitivity.
  destruct (SetSensitivity_points_total config tp _ _ Hpoints)
    as ([g1 s1] & -> & Hshape). simpl.
  destruct (SetSurface_Sensitivity_total b Allreduce g1 config s1)
    as (s2 & ->); [by eapply wf_surface_points_shape|].
  simpl. eauto.
Qed.

(** C5. [SetSensitivity] returns on well-formed inputs.  For every mesh
    point and every coordinate dimension, it stores 0 as the sensitivity
    when sharp-edge removal is enabled and the sharp-edge distance of the
    point is below [SharpEdgesCoeff * (LimiterCoeff * RefElemLength)],
    whatever derivative the tape holds for the coordinate, and stores that
    derivative otherwise. *)
Theorem SetSensitivity_sharp_edge
    (b : build) (Allreduce : su2double -> su2double) (tp : AD.tape)
    (geometry : CGeometry.t) (config : CConfig.t) (solver : CDiscAdjSolver.t) :
  (wf_points geometry solver -> wf_surface geometry config solver ->
   exists r,
     SetSensitivity b Allreduce tp geometry config solver = Returns r) /\
  forall geometry' solver' iPoint iDim,
    SetSensitivity b Allreduce tp geometry config solver
      = Returns (geometry', solver') ->
    iPoint < CDiscAdjSolver.nPoint solver ->
    iDim < CDiscAdjSolver.nDim solver ->
    exists p c v' stored,
      CGeometry.node geometry !! iPoint = Some p /\
      CPoint.Coord p !! iDim = Some c /\
      CDiscAdjSolver.node solver' !! iPoint = Some v' /\
      CVariable.Sensitivity v' !! iDim = Some stored /\
      let threshold :=
        (CConfig.SharpEdgesCoeff config
         * (CConfig.LimiterCoeff config * CConfig.RefElemLength config))%D in
      let below := (CPoint.SharpEdge_Distance p <? threshold)%D in
      (CConfig.Sens_Remove_Sharp config = true -> below = true ->
       stored = Double.zero) /\
      (~ (CConfig.Sens_Remove_Sharp config = true /\ below = true) ->
       stored = AD.GetDerivative tp c).
Proof.
  split; [apply SetSensitivity_total|].
  intros geometry' solver' iPoint iDim Hrun Hi Hd.
  unfold SetSensitivity in Hrun.
  apply bind_Returns in Hrun as ([g1 s1] & Hpoints & Hrun).
  apply bind_Returns in Hrun as (s2 & Hsurface & Hrun).
  injection Hrun as <- <-.
  destruct (SetSensitivity_points_spec _ _ _ _ _ _ Hpoints iPoint iDim Hi Hd)
    as (p & c & v' & Hp & Hc & Hv' & HS).
  unfold SetSurface_Sensitivity in Hsurface.
  apply bind_Returns in Hsurface as ([s3 t] & Hlocal & Hsurface).
  injection Hsurface as <-.
  apply SetSurface_Sensitivity_local_spec in Hlocal as (Hnode & _).
  exists p, c, v'. eexists. split; [done|]. split; [done|].
  split; [simpl; by rewrite Hnode|]. split; [exact HS|].
  unfold sharp_edge_filter. simpl.
  destruct (CConfig.Sens_Remove_Sharp config);
    destruct (_ <? _)%D; split; intros; try reflexivity;
    try discriminate; tauto.
Qed.

Lemma wf_points_example : wf_points Example.geometry0 Example.solver0.
Proof.
  split; [simpl; lia|]. split; [simpl; lia|].
  split; repeat constructor; simpl; lia.
Defined.

(** Point 0 lies at distance 0 from a sharp edge, below the threshold 1: its
    sensitivity is 0 although the tape holds 11 for its first coordinate.
    Point 1 lies at distance 3: its sensitivity is the 13 of the tape. *)
Lemma SetSensitivity_sharp_edge_witness :
  SetSensitivity Serial id Example.tape0 Example.geometry0 Example.config0
    Example.solver0 = Returns Example.sensitized /\
  (exists v' , CDiscAdjSolver.node Example.sensitized.2 !! 0 = Some v' /\
               CVariable.Sensitivity v' !! 0 = Some Double.zero) /\
  (exists v' , CDiscAdjSolver.node Example.sensitized.2 !! 1 = Some v' /\
               CVariable.Sensitivity v' !! 0 = Some (Double.of_Z 13)).
Proof.
  pose proof (SetSensitivity_sharp_edge Serial id Example.tape0
                Example.geometry0 Example.config0 Example.solver0)
    as [Hreturns Hstores].
  destruct (Hreturns wf_points_example wf_surface_example) as (r & Hrun).
  assert (r = Example.sensitized) as ->
    by (vm_compute in Hrun; injection Hrun as <-; reflexivity).
  split; [exact Hrun|]. split.
  - destruct (Hstores Example.sensitized.1 Example.sensitized.2 0 0 Hrun
                ltac:(vm_compute; lia) ltac:(vm_compute; lia))
      as (p & c & v' & stored & Hp & Hc & Hv' & Hs & Hzero & _).
    exists v'. split; [exact Hv'|]. rewrite Hs. f_equal.
    injection Hp as <-. apply Hzero; reflexivity.
  - destruct (Hstores Example.sensitized.1 Example.sensitized.2 1 0 Hrun
                ltac:(vm_compute; lia) ltac:(vm_compute; lia))
      as (p & c & v' & stored & Hp & Hc & Hv' & Hs & _ & Hraw).
    exists v'. split; [exact Hv'|]. rewrite Hs. f_equal.
    injection Hp as <-. injection Hc as <-. apply Hraw.
    intros [_ Hbelow]. discriminate Hbelow.
Defined.

(** ** The free-stream velocity *)

Lemma RegisterVariables_returns cos sin PI_NUMBER config direct_solver
    solver tp reset :
  (CDiscAdjSolver.nDim solver = 2 ->
   2 <= length (CConfig.Velocity_FreeStreamND config)) ->
  (CDiscAdjSolver.nDim solver = 3 ->
   3 <= length (CConfig.Velocity_FreeStreamND config)) ->
  exists r,
    RegisterVariables cos sin PI_NUMBER config direct_solver solver tp reset
    = Returns r.
Proof.
  intros H2 H3. unfold RegisterVariables.
  destruct (is_compressible_flow config solver); [|eauto].
  unfold SoundSpeed_of, recompute_Velocity_FreeStreamND.
  destruct (decide (CDiscAdjSolver.nDim solver = 2)) as [E2|N2];
    destruct (decide (CDiscAdjSolver.nDim solver = 3)) as [E3|N3];
    try lia.
  - destruct (load_lt (CConfig.Velocity_FreeStreamND config) 0)
      as (u & -> & _); [specialize (H2 E2); lia|].
    simpl. destruct reset; simpl;
      rewrite !store_lt by (rewrite ?length_insert; specialize (H2 E2); lia);
      simpl; rewrite !store_lt
        by (rewrite ?length_insert; specialize (H2 E2); lia);
      simpl; eauto.
  - destruct (load_lt (CConfig.Velocity_FreeStreamND config) 0)
      as (u & -> & _); [specialize (H3 E3); lia|].
    simpl. destruct reset; simpl;
      repeat (rewrite store_lt
                by (rewrite ?length_insert; specialize (H3 E3); lia); simpl);
      eauto.
  - simpl. destruct reset; simpl; eauto.
Qed.

(** C6, with the guard of the code.  When the regime is compressible and
    the primal solver is the flow system, [RegisterVariables] (whether it
    registers the inputs or not) returns when the velocity array has a
    component per dimension, and it recomputes the nondimensional
    free-stream velocity from the Mach number M, the angles
    alpha = AoA*PI/180 and beta = AoS*PI/180 and the sound speed c it
    recovers from the first velocity component:
    (cos(alpha) M c, sin(alpha) M c) / Velocity_Ref in 2D and
    (cos(alpha) cos(beta) M c, sin(beta) M c, sin(alpha) cos(beta) M c)
    / Velocity_Ref in 3D.  In any other regime and for any other primal
    solver it returns having recomputed nothing: the configuration, the
    solvers and the tape are as they were. *)
Theorem RegisterVariables_recomputes_velocity
    (cos sin : su2double -> su2double) (PI_NUMBER : su2double)
    (config : CConfig.t) (direct_solver : CSolver.t)
    (solver : CDiscAdjSolver.t) (tp : AD.tape) (reset : bool) :
  (~ (CConfig.Kind_Regime config = COMPRESSIBLE /\
      CDiscAdjSolver.KindDirect_Solver solver = RUNTIME_FLOW_SYS) ->
   RegisterVariables cos sin PI_NUMBER config direct_solver solver tp reset
   = Returns (config, direct_solver, solver, tp)) /\
  (CConfig.Kind_Regime config = COMPRESSIBLE ->
  CDiscAdjSolver.KindDirect_Solver solver = RUNTIME_FLOW_SYS ->
  CDiscAdjSolver.nDim solver
  <= length (CConfig.Velocity_FreeStreamND config) ->
  exists config' direct_solver' solver' tp',
    RegisterVariables cos sin PI_NUMBER config direct_solver solver tp reset
      = Returns (config', direct_solver', solver', tp') /\
    let alpha := (CConfig.AoA config * PI_NUMBER / Double.of_Z 180)%D in
    let beta := (CConfig.AoS config * PI_NUMBER / Double.of_Z 180)%D in
    let M := CConfig.Mach config in
    let Velocity_Ref := CConfig.Velocity_Ref config in
    let Velocity := CConfig.Velocity_FreeStreamND config in
    let Velocity' := CConfig.Velocity_FreeStreamND config' in
    (CDiscAdjSolver.nDim solver = 2 ->
     exists u c,
       Velocity !! 0 = Some u /\
       c = (u * Velocity_Ref / (cos alpha * M))%D /\
       Velocity' !! 0 = Some (cos alpha * M * c / Velocity_Ref)%D /\
       Velocity' !! 1 = Some (sin alpha * M * c / Velocity_Ref)%D) /\
    (CDiscAdjSolver.nDim solver = 3 ->
     exists u c,
       Velocity !! 0 = Some u /\
       c = (u * Velocity_Ref / (cos alpha * cos beta * M))%D /\
       Velocity' !! 0 = Some (cos alpha * cos beta * M * c / Velocity_Ref)%D /\
       Velocity' !! 1 = Some (sin beta * M * c / Velocity_Ref)%D /\
       Velocity' !! 2
       = Some (sin alpha * cos beta * M * c / Velocity_Ref)%D)).
Proof.
  split.
  { intros Hout. unfold RegisterVariables, is_compressible_flow.
    destruct (decide (CConfig.Kind_Regime config = COMPRESSIBLE)) as [E1|N1];
      [|by rewrite (bool_decide_eq_false_2 _ N1)].
    destruct (decide (CDiscAdjSolver.KindDirect_Solver solver
                      = RUNTIME_FLOW_SYS)) as [E2|N2]; [tauto|].
    rewrite (bool_decide_eq_false_2 _ N2). by rewrite andb_false_r. }
  intros Hregime Hkind Hlen.
  destruct (RegisterVariables_returns cos sin PI_NUMBER config direct_solver
              solver tp reset) as ([[[config' direct_solver'] solver'] tp']
                                   & Hrun); [lia..|].
  exists config', direct_solver', solver', tp'. split; [exact Hrun|].
  unfold RegisterVariables in Hrun.
  unfold is_compressible_flow in Hrun.
  rewrite Hregime, Hkind in Hrun. simpl in Hrun.
  apply bind_Returns in Hrun as (c & Hc & Hrun).
  assert (Hvel : exists Velocity',
    recompute_Velocity_FreeStreamND cos sin (CDiscAdjSolver.nDim solver)
      (CConfig.AoA config * PI_NUMBER / Double.of_Z 180)%D
      (CConfig.AoS config * PI_NUMBER / Double.of_Z 180)%D
      (CConfig.Mach config) c (CConfig.Velocity_Ref config)
      (CConfig.Velocity_FreeStreamND config) = Returns Velocity' /\
    CConfig.Velocity_FreeStreamND config' = Velocity').
  { destruct reset; simpl in Hrun;
      apply bind_Returns in Hrun as (V & HV & Hrun);
      exists V; (split; [exact HV|]);
      injection Hrun; intros; subst; reflexivity. }
  clear Hrun. destruct Hvel as (V & HV & ->).
  unfold SoundSpeed_of in Hc. unfold recompute_Velocity_FreeStreamND in HV.
  split; intros HnDim; rewrite HnDim in Hc, HV; simpl in Hc, HV.
  - inv_outcome. eexists _, _. split; [eassumption|].
    split; [reflexivity|].
    rewrite list_lookup_insert_ne by done.
    rewrite !list_lookup_insert_eq
      by (rewrite ?length_insert in *; assumption || lia).
    by split.
  - inv_outcome. eexists _, _. split; [eassumption|].
    split; [reflexivity|].
    rewrite !length_insert in *.
    rewrite (list_lookup_insert_ne _ 2 0), (list_lookup_insert_ne _ 1 0),
      (list_lookup_insert_ne _ 2 1) by done.
    rewrite !list_lookup_insert_eq by (rewrite ?length_insert; lia).
    by repeat split.
Qed.

(** Outside the compressible flow system nothing is recomputed. *)
Lemma RegisterVariables_other_system cos sin PI_NUMBER config direct_solver
    solver tp reset :
  is_compressible_flow config solver = false ->
  RegisterVariables cos sin PI_NUMBER config direct_solver solver tp reset
  = Returns (config, direct_solver, solver, tp).
Proof. intros H. unfold RegisterVariables. by rewrite H. Qed.

(** In 2D, at Mach 1 and the angle 0, the velocity (1, 1) of the compressible
    [config_skewed] is recomputed as (1, 0); the same velocity of the
    incompressible [config_incompressible] is left as it is. *)
Lemma RegisterVariables_recomputes_velocity_witness :
  (exists config' direct_solver' solver' tp',
     RegisterVariables Example.cos_at_0 Example.sin_at_0 Example.PI_NUMBER
       Example.config_skewed Example.direct0 Example.solver0 Example.tape0
       false
     = Returns (config', direct_solver', solver', tp') /\
     CConfig.Velocity_FreeStreamND Example.config_skewed !! 1
     = Some Double.one /\
     CConfig.Velocity_FreeStreamND config' !! 0 = Some Double.one /\
     CConfig.Velocity_FreeStreamND config' !! 1 = Some Double.zero) /\
  RegisterVariables Example.cos_at_0 Example.sin_at_0 Example.PI_NUMBER
    Example.config_incompressible Example.direct0 Example.solver0
    Example.tape0 false
  = Returns (Example.config_incompressible, Example.direct0,
             Example.solver0, Example.tape0).
Proof.
  split.
  - destruct (RegisterVariables_recomputes_velocity
                Example.cos_at_0 Example.sin_at_0 Example.PI_NUMBER
                Example.config_skewed Example.direct0 Example.solver0
                Example.tape0 false) as [_ Hinside].
    destruct (Hinside eq_refl eq_refl ltac:(vm_compute; lia))
      as (config' & direct_solver' & solver' & tp' & Hrun & H2 & _).
    destruct (H2 eq_refl) as (u & c & Hu & Hc & H0 & H1).
    exists config', direct_solver', solver', tp'.
    split; [exact Hrun|]. split; [reflexivity|].
    injection Hu as <-. subst c. split.
    + rewrite H0. vm_compute. reflexivity.
    + rewrite H1. vm_compute. reflexivity.
  - apply (RegisterVariables_recomputes_velocity
             Example.cos_at_0 Example.sin_at_0 Example.PI_NUMBER
             Example.config_incompressible Example.direct0 Example.solver0
             Example.tape0 false).
    intros [H _]. discriminate H.
Defined.

(** C6 as stated fails outside the guard.  In the incompressible regime the
    call returns the configuration it was given: the second velocity
    component of [config_incompressible] is 1 before and after the call,
    whereas sin(alpha) M c / Velocity_Ref, with the sound speed c recovered
    from the first component, is 0. *)
Lemma RegisterVariables_recomputes_nothing_when_incompressible :
  let config := Example.config_incompressible in
  let alpha :=
    (CConfig.AoA config * Example.PI_NUMBER / Double.of_Z 180)%D in
  let M := CConfig.Mach config in
  let Velocity_Ref := CConfig.Velocity_Ref config in
  exists config' direct_solver' solver' tp' u c v,
    CConfig.Kind_Regime config = INCOMPRESSIBLE /\
    CDiscAdjSolver.nDim Example.solver0 = 2 /\
    RegisterVariables Example.cos_at_0 Example.sin_at_0 Example.PI_NUMBER
      config Example.direct0 Example.solver0 Example.tape0 false
    = Returns (config', direct_solver', solver', tp') /\
    CConfig.Velocity_FreeStreamND config !! 0 = Some u /\
    c = (u * Velocity_Ref / (Example.cos_at_0 alpha * M))%D /\
    CConfig.Velocity_FreeStreamND config' !! 1 = Some v /\
    v = Double.one /\
    (Example.sin_at_0 alpha * M * c / Velocity_Ref)%D = Double.zero /\
    v <> (Example.sin_at_0 alpha * M * c / Velocity_Ref)%D.
Proof.
  intros config alpha M Velocity_Ref.
  exists config, Example.direct0, Example.solver0, Example.tape0,
    Double.one, (Double.one * Velocity_Ref
                 / (Example.cos_at_0 alpha * M))%D, Double.one.
  split; [reflexivity|]. split; [reflexivity|].
  split; [by apply RegisterVariables_other_system|].
  split; [reflexivity|]. split; [reflexivity|]. split; [reflexivity|].
  split; [reflexivity|].
  assert (H : (Example.sin_at_0 alpha * M
               * (Double.one * Velocity_Ref / (Example.cos_at_0 alpha * M))
               / Velocity_Ref)%D = Double.zero)
    by (vm_compute; reflexivity).
  split; [exact H|]. rewrite H. discriminate.
Qed.

(** With second-order dual time stepping the second point, whose solution
    and time levels have the handles 4, 5 and 6, receives the derivatives 4,
    5 and 6 of [tape0]. *)
Lemma ExtractAdjoint_Solution_copies_witness :
  ExtractAdjoint_Solution Example.keep_residuals Example.tape0 Example.direct0
    Example.geometry0 Example.config_dt2 Example.solver0
    = Returns Example.extracted /\
  exists v',
    CDiscAdjSolver.node Example.extracted !! 1 = Some v' /\
    CVariable.Solution v' = [Double.of_Z 4] /\
    CVariable.Solution_time_n v' = [Double.of_Z 5] /\
    CVariable.Solution_time_n1 v' = [Double.of_Z 6].
Proof.
  pose proof (ExtractAdjoint_Solution_copies Example.keep_residuals
                Example.tape0 Example.direct0 Example.geometry0
                Example.config_dt2 Example.solver0) as [Hreturns Hcopies].
  destruct Hreturns as (solver' & Hrun);
    [vm_compute; lia | vm_compute; lia | intros s; eexists; reflexivity |].
  assert (solver' = Example.extracted) as ->
    by (vm_compute in Hrun; injection Hrun as <-; reflexivity).
  split; [exact Hrun|].
  destruct (Hcopies Example.extracted 1 Hrun ltac:(vm_compute; lia))
    as (v & d & v' & Hv & Hd & Hv' & HS & Hn & _ & Hn1 & _).
  exists v'. split; [exact Hv'|]. injection Hd as <-.
  split; [exact HS|].
  split; [exact (Hn (or_intror eq_refl)) | exact (Hn1 eq_refl)].
Defined.


(** * Further properties of the constructor *)

(** ** The state of a solver that is not restarted *)

Lemma alloc_CSensitivity_spec geometry nMarker CSensitivity :
  alloc_CSensitivity geometry nMarker = Returns CSensitivity ->
  length CSensitivity = nMarker /\
  forall m, m < nMarker ->
    exists vertices,
      CGeometry.vertex geometry !! m = Some vertices /\
      CSensitivity !! m = Some (replicate (length vertices) Double.zero).
Proof.
  unfold alloc_CSensitivity. intros Hrun.
  apply (for_loop_inv
    (fun i (CS : list (list su2double)) =>
       length CS = i /\
       forall m, m < i ->
         exists vertices,
           CGeometry.vertex geometry !! m = Some vertices /\
           CS !! m = Some (replicate (length vertices) Double.zero)))
    in Hrun; [exact Hrun | split; [done | intros; lia] |].
  intros i CS1 CS2 _ [Hlen IH] Hbody.
  apply bind_Returns in Hbody as (vs & Hvs & Hbody).
  apply load_Returns in Hvs. injection Hbody as <-.
  split; [rewrite length_app; simpl; lia|].
  intros m Hm. destruct (decide (m = i)) as [->|Hne].
  - exists vs. split; [done|].
    rewrite lookup_app_r by lia. by rewrite Hlen, Nat.sub_diag.
  - destruct (IH m ltac:(lia)) as (ws & Hws & Hrow).
    exists ws. split; [done|]. by rewrite lookup_app_l by lia.
Qed.

(** The loop that stores the direct solution finds every point assigned and
    changes its stored direct solution only. *)
Lemma store_direct_solution_at direct_solver nPoint node node' :
  store_direct_solution direct_solver nPoint node = Returns node' ->
  forall l, l < nPoint ->
    exists v d,
      node !! l = Some (Some v) /\
      CSolver.node direct_solver !! l = Some d /\
      node' !! l
      = Some (Some (CVariable.set_Solution_Direct
                      (AD.value <$> CDirectVariable.Solution d) v)).
Proof.
  intros Hrun. unfold store_direct_solution in Hrun.
  apply (for_loop_inv
    (fun i nd =>
       (forall l, l < i ->
          exists v d,
            node !! l = Some (Some v) /\
            CSolver.node direct_solver !! l = Some d /\
            nd !! l
            = Some (Some (CVariable.set_Solution_Direct
                            (AD.value <$> CDirectVariable.Solution d) v))) /\
       (forall l, i <= l -> nd !! l = node !! l)))
    in Hrun; [tauto | split; [intros; lia | done] |].
  intros i nd1 nd2 _ [Hdone Hrest] Hbody.
  apply bind_Returns in Hbody as (slot & Hslot & Hbody).
  apply load_Returns in Hslot. destruct slot as [v|]; [|done].
  apply bind_Returns in Hbody as (d & Hd & Hbody). apply load_Returns in Hd.
  apply store_Returns in Hbody as [Hlen ->]. split.
  - intros l Hl. destruct (decide (l = i)) as [->|Hne].
    + exists v, d. rewrite <- Hrest by done.
      split; [done|]. split; [done|]. by apply list_lookup_insert_eq.
    + rewrite list_lookup_insert_ne by done. apply Hdone. lia.
  - intros l Hl. rewrite list_lookup_insert_ne by lia. apply Hrest. lia.
Qed.

Lemma omap_id_length {A} (l : list (option A)) :
  (forall j, j < length l -> exists y, l !! j = Some (Some y)) ->
  length (omap id l) = length l.
Proof.
  induction l as [|o l IH]; intros H; [done|].
  destruct (H 0) as [y Hy]; [simpl; lia|]. injection Hy as ->. simpl.
  f_equal. apply IH. intros j Hj. apply (H (S j)). simpl. lia.
Qed.

(** X1. When the restart option is off, or on a coarse mesh level whatever
    the option says, the constructor reads no file: whatever the files are,
    it returns on a mesh that has the markers of the configuration and a
    primal solver that holds the points of the mesh, and every point of the
    solver it returns starts from the adjoint solution 1e-16 and stores the
    values of the primal solution of that point as its direct solution. *)
Theorem CDiscAdjSolver_new_fresh_start
    (b : build) (r : nat) (fs : filesystem) (this : CDiscAdjSolver.t)
    (geometry : CGeometry.t) (config : CConfig.t) (direct_solver : CSolver.t)
    (Kind_Solver : RUNTIME_TYPE) (iMesh : nat) :
  let nVar := CSolver.nVar direct_solver in
  let nDim := CGeometry.nDim geometry in
  CConfig.Restart config = false \/ iMesh <> MESH_0 ->
  GetnMarker_All config <= length (CGeometry.vertex geometry) ->
  CGeometry.nPoint geometry <= length (CSolver.node direct_solver) ->
  exists solver,
    CDiscAdjSolver_new b r fs this geometry config direct_solver
                       Kind_Solver iMesh = Returns solver /\
    length (CDiscAdjSolver.node solver) = CGeometry.nPoint geometry /\
    forall iPoint d,
      iPoint < CGeometry.nPoint geometry ->
      CSolver.node direct_solver !! iPoint = Some d ->
      exists v,
        CDiscAdjSolver.node solver !! iPoint = Some v /\
        CVariable.Solution v = replicate nVar Double.lit_1e_16 /\
        CVariable.Solution_Direct v = AD.value <$> CDirectVariable.Solution d.
Proof.
  intros nVar nDim Hfresh Hmark Hdirect. unfold CDiscAdjSolver_new.
  destruct (alloc_CSensitivity_total geometry _ Hmark) as (CS & ->).
  assert (Hb : negb (CConfig.Restart config)
               || negb (bool_decide (iMesh = MESH_0)) = true).
  { destruct Hfresh as [-> | Hne]; [done|].
    rewrite bool_decide_eq_false_2 by done. apply orb_true_r. }
  simpl. rewrite Hb. simpl. fold nVar nDim.
  set (fresh := CDiscAdjVariable (replicate nVar Double.lit_1e_16) nDim nVar
                                 config).
  destruct (store_direct_solution_total direct_solver
              (CGeometry.nPoint geometry)
              (replicate (CGeometry.nPoint geometry) (Some fresh)) Hdirect)
    as (nd & Hnd).
  { intros i Hi. exists fresh. by apply lookup_replicate_2. }
  rewrite Hnd. simpl. eexists. split; [reflexivity|]. simpl.
  destruct (store_direct_solution_spec _ _ _ _ Hnd) as (Hlen & Hall & _).
  rewrite length_replicate in Hlen. split.
  - rewrite omap_id_length; [done|]. intros j Hj. apply Hall. lia.
  - intros i d Hi Hd.
    destruct (store_direct_solution_at _ _ _ _ Hnd i Hi)
      as (v & d' & Hv & Hd' & Hi').
    apply lookup_replicate in Hv as [Hv _]. injection Hv as ->.
    rewrite Hd in Hd'. injection Hd' as <-.
    eexists. split.
    { apply omap_id_lookup; [intros j Hj; apply Hall; lia|]. exact Hi'. }
    unfold fresh, CDiscAdjVariable. simpl.
    by rewrite take_replicate, Nat.min_id.
Qed.

(** On the coarse level 1 the restart option is ignored and no file is
    looked for: point 1 starts from 1e-16 and the primal value 2. *)
Lemma CDiscAdjSolver_new_fresh_start_witness :
  CDiscAdjSolver_new Serial 0 Example.no_files Example.solver0
    Example.geometry0 Example.config_restart Example.direct0
    RUNTIME_FLOW_SYS 1 = Returns Example.coarse /\
  exists v,
    CDiscAdjSolver.node Example.coarse !! 1 = Some v /\
    CVariable.Solution v = [Double.lit_1e_16] /\
    CVariable.Solution_Direct v = [Example.two].
Proof.
  destruct (CDiscAdjSolver_new_fresh_start Serial 0 Example.no_files
              Example.solver0 Example.geometry0 Example.config_restart
              Example.direct0 RUNTIME_FLOW_SYS 1)
    as (solver & Hnew & _ & Hnodes).
  - right. discriminate.
  - vm_compute. lia.
  - vm_compute. lia.
  - assert (solver = Example.coarse) as ->
      by (vm_compute in Hnew; injection Hnew as <-; reflexivity).
    split; [exact Hnew|].
    exact (Hnodes 1 _ ltac:(vm_compute; lia) eq_refl).
Defined.

(** ** A restart file that stops short of a point of the domain *)

Lemma bind_Exit_Failure {A B} (m : outcome A) (k : A -> outcome B) c :
  m ≫= k = Exit_Failure c ->
  m = Exit_Failure c \/ exists a, m = Returns a /\ k a = Exit_Failure c.
Proof. destruct m; simpl; intros H; [eauto | left; congruence | done]. Qed.

Lemma load_no_exit {A} (a : list A) (i : nat) c : load a i <> Exit_Failure c.
Proof. unfold load. by destruct (a !! i). Qed.

Lemma store_no_exit {A} (a : list A) (i : nat) (x : A) c :
  store a i x <> Exit_Failure c.
Proof. unfold store. by destruct (decide (i < length a)). Qed.

(** A loop whose body never ends the process never ends it. *)
Lemma for_loop_no_exit {St} (n lo : nat) (body : nat -> St -> outcome St)
    (s : St) c :
  (forall i s, body i s <> Exit_Failure c) ->
  for_loop n lo body s <> Exit_Failure c.
Proof.
  intros Hbody. revert lo s.
  induction n as [|n IH]; intros lo s; simpl; [done|].
  intros [H | (a & _ & H)]%bind_Exit_Failure; [by eapply Hbody | by eapply IH].
Qed.

Lemma read_restart_lines_no_exit config nDim nVar skipVars Global2Local lines
    iPoint_Global Solution node c :
  read_restart_lines config nDim nVar skipVars Global2Local lines
    iPoint_Global Solution node <> Exit_Failure c.
Proof.
  revert iPoint_Global Solution node.
  induction lines as [|line lines IH]; intros k0 Sol nd; simpl; [done|].
  intros [H | (z & _ & H)]%bind_Exit_Failure; [by eapply load_no_exit|].
  apply bind_Exit_Failure in H as [H | ([Sol' nd'] & _ & H)];
    [|by eapply IH].
  destruct (decide (0 <= z)%Z); [|done].
  apply bind_Exit_Failure in H as [H | (a & _ & H)]; [|done].
  by eapply store_no_exit.
Qed.

Lemma store_direct_solution_no_exit direct_solver nPoint node c :
  store_direct_solution direct_solver nPoint node <> Exit_Failure c.
Proof.
  apply for_loop_no_exit. intros i nd.
  intros [H | ([v|] & _ & H)]%bind_Exit_Failure;
    [by eapply load_no_exit | | done].
  apply bind_Exit_Failure in H as [H | (d & _ & H)];
    [by eapply load_no_exit | by eapply store_no_exit].
Qed.

(** X2. A restart file that ends before the line of a point of the domain
    is not diagnosed.  When the restart file opens and the global index of
    some point of the domain is not below the number of data lines, the
    constructor neither returns nor exits with a message: the slot of that
    point is never assigned, and storing the direct solution dereferences
    it. *)
Theorem restart_truncated_file_is_undefined
    (b : build) (r : nat) (fs : filesystem) (this : CDiscAdjSolver.t)
    (geometry : CGeometry.t) (config : CConfig.t) (direct_solver : CSolver.t)
    (Kind_Solver : RUNTIME_TYPE) (file : list text_line)
    (iPoint : nat) (p : CPoint.t) :
  CConfig.Restart config = true ->
  fs (CConfig.ObjFunc_Extension config (CConfig.Solution_AdjFileName config))
    = Some file ->
  iPoint < CGeometry.nPointDomain geometry ->
  CGeometry.nPointDomain geometry <= CGeometry.nPoint geometry ->
  CGeometry.node geometry !! iPoint = Some p ->
  length (tail file) <= CPoint.GlobalIndex p ->
  CDiscAdjSolver_new b r fs this geometry config direct_solver
                     Kind_Solver MESH_0 = Undefined.
Proof.
  intros Hrestart Hfile Hdom HnP Hp Hshort.
  unfold CDiscAdjSolver_new, load_restart. rewrite Hrestart. simpl.
  rewrite Hfile.
  destruct (alloc_CSensitivity _ _) as [CS|c|] eqn:Halloc; simpl; [| |done].
  2:{ exfalso. revert Halloc. apply for_loop_no_exit. intros i s.
      intros [H | (a & _ & H)]%bind_Exit_Failure; [|done].
      by eapply load_no_exit. }
  destruct (build_Global2Local geometry) as [G|c|] eqn:HG; simpl; [| |done].
  2:{ exfalso. revert HG. apply for_loop_no_exit. intros i s.
      intros [H | (a & _ & H)]%bind_Exit_Failure;
        [by eapply load_no_exit | by eapply store_no_exit]. }
  destruct (read_restart_lines _ _ _ _ _ _ _ _ _) as [[Sol nd]|c|] eqn:Hread;
    simpl; [| by apply read_restart_lines_no_exit in Hread | done].
  destruct (for_loop _ _ _ nd) as [nd'|c|] eqn:Hhalo; simpl; [| |done].
  2:{ exfalso. revert Hhalo. apply for_loop_no_exit. intros i s.
      apply store_no_exit. }
  destruct (store_direct_solution _ _ nd') as [nd''|c|] eqn:Hdirect; simpl;
    [| by apply store_direct_solution_no_exit in Hdirect | done].
  exfalso.
  destruct (store_direct_solution_at _ _ _ _ Hdirect iPoint ltac:(lia))
    as (v & _ & Hv & _).
  destruct (halo_loop_frame _ _ _ _ _ Hhalo) as [_ Hframe].
  rewrite Hframe in Hv by done.
  pose proof (build_Global2Local_ok _ _ HG) as Hok.
  rewrite (read_restart_lines_frame _ _ _ _ _ _ _ _ _ _ _ iPoint Hread) in Hv.
  - apply lookup_replicate in Hv as [Hv _]. discriminate Hv.
  - intros k z Hk Hz Hpos Heq. simpl in Hz.
    destruct (Hok k z Hz Hpos) as (j & q & -> & _ & Hq & Hg).
    rewrite Nat2Z.id in Heq. subst j. rewrite Hp in Hq. injection Hq as <-.
    lia.
Qed.

(** The file holds one data line, and the local point 0 is the global
    point 1. *)
Lemma restart_truncated_file_is_undefined_witness :
  CDiscAdjSolver_new (HAVE_MPI 2) 0 Example.with_short_file Example.solver0
    Example.geometry0 Example.config_restart Example.direct0
    RUNTIME_FLOW_SYS MESH_0 = Undefined.
Proof.
  apply (restart_truncated_file_is_undefined (HAVE_MPI 2) 0
           Example.with_short_file Example.solver0 Example.geometry0
           Example.config_restart Example.direct0 RUNTIME_FLOW_SYS
           Example.short_lines 0
           (CPoint.Build 1 [AD.Var Double.zero 11; AD.Var Double.zero 12]
                         Double.zero false true)).
  - reflexivity.
  - reflexivity.
  - vm_compute. lia.
  - vm_compute. lia.
  - reflexivity.
  - vm_compute. lia.
Defined.

(** ** Lines of points of other ranks, and halo points *)

Lemma read_restart_lines_foreign config nDim nVar skipVars Global2Local
    lines lines' iPoint_Global Solution node :
  length lines = length lines' ->
  (forall k z, Global2Local !! (iPoint_Global + k) = Some z -> (0 <= z)%Z ->
     lines !! k = lines' !! k) ->
  read_restart_lines config nDim nVar skipVars Global2Local lines
    iPoint_Global Solution node
  = read_restart_lines config nDim nVar skipVars Global2Local lines'
      iPoint_Global Solution node.
Proof.
  revert lines' iPoint_Global Solution node.
  induction lines as [|line lines IH]; intros [|line' lines'] k0 Sol nd Hlen Hsame;
    try done.
  simpl. unfold load.
  destruct (Global2Local !! k0) as [z|] eqn:Hz; [simpl|done].
  assert (Hrest : forall Sol nd,
    read_restart_lines config nDim nVar skipVars Global2Local lines
      (S k0) Sol nd
    = read_restart_lines config nDim nVar skipVars Global2Local lines'
        (S k0) Sol nd).
  { intros Sol1 nd1. apply IH; [simpl in Hlen; lia|].
    intros k z' Hz' Hpos. apply (Hsame (S k) z'); [|done].
    by replace (k0 + S k) with (S k0 + k) by lia. }
  destruct (decide (0 <= z)%Z) as [Hpos|Hneg].
  - assert (line = line') as <-.
    { specialize (Hsame 0 z). rewrite Nat.add_0_r in Hsame.
      specialize (Hsame Hz Hpos). by injection Hsame. }
    destruct (store nd _ _); simpl; [apply Hrest | done..].
  - simpl. apply Hrest.
Qed.

(** X3. The restart loader skips the lines of the points that live on other
    ranks without looking at them: two restart files of the same length
    that agree on every line whose position is the global index of a point
    of the domain of this rank give the same outcome of the constructor,
    whatever the other lines hold. *)
Theorem restart_foreign_lines_are_skipped
    (b : build) (r : nat) (fs fs' : filesystem) (this : CDiscAdjSolver.t)
    (geometry : CGeometry.t) (config : CConfig.t) (direct_solver : CSolver.t)
    (Kind_Solver : RUNTIME_TYPE) (iMesh : nat)
    (file file' : list text_line) (Global2Local : list Z) :
  let filename :=
    CConfig.ObjFunc_Extension config (CConfig.Solution_AdjFileName config) in
  fs filename = Some file ->
  fs' filename = Some file' ->
  length (tail file) = length (tail file') ->
  build_Global2Local geometry = Returns Global2Local ->
  (forall k z, Global2Local !! k = Some z -> (0 <= z)%Z ->
     tail file !! k = tail file' !! k) ->
  CDiscAdjSolver_new b r fs this geometry config direct_solver
                     Kind_Solver iMesh
  = CDiscAdjSolver_new b r fs' this geometry config direct_solver
                       Kind_Solver iMesh.
Proof.
  intros filename Hfile Hfile' Hlen HG Hsame.
  unfold CDiscAdjSolver_new, load_restart. fold filename.
  rewrite Hfile, Hfile', HG.
  destruct (alloc_CSensitivity _ _); [simpl|reflexivity..].
  destruct (negb _ || negb _); [reflexivity|]. simpl.
  by rewrite (read_restart_lines_foreign _ _ _ _ _ (tail file) (tail file')).
Qed.

(** X4. Halo points are not read from the restart file: when the constructor
    loads a restart file that fits the partition, every point past the
    points of the domain is created from the buffer [Solution] as the last
    line read has left it, which is also what the member [Solution] of the
    solver holds afterwards. *)
Theorem restart_halo_points_take_the_last_buffer
    (b : build) (r : nat) (fs : filesystem) (this : CDiscAdjSolver.t)
    (geometry : CGeometry.t) (config : CConfig.t) (direct_solver : CSolver.t)
    (Kind_Solver : RUNTIME_TYPE) (file : list text_line) :
  CConfig.Restart config = true ->
  fs (CConfig.ObjFunc_Extension config (CConfig.Solution_AdjFileName config))
    = Some file ->
  wf_restart geometry config direct_solver (tail file) ->
  exists solver,
    CDiscAdjSolver_new b r fs this geometry config direct_solver
                       Kind_Solver MESH_0 = Returns solver /\
    length (CDiscAdjSolver.Solution solver) = CSolver.nVar direct_solver /\
    forall iPoint,
      CGeometry.nPointDomain geometry <= iPoint < CGeometry.nPoint geometry ->
      exists v,
        CDiscAdjSolver.node solver !! iPoint = Some v /\
        CVariable.Solution v = CDiscAdjSolver.Solution solver.
Proof.
  intros Hrestart Hfile Hwf.
  destruct (CDiscAdjSolver_new_restart_total b r fs this geometry config
              direct_solver Kind_Solver file Hrestart Hfile Hwf)
    as (solver & Hnew).
  exists solver. split; [exact Hnew|].
  destruct Hwf as (_ & HnP & _).
  unfold CDiscAdjSolver_new, load_restart in Hnew.
  rewrite Hrestart in Hnew. simpl in Hnew. rewrite Hfile in Hnew.
  apply bind_Returns in Hnew as (CS & _ & Hnew).
  apply bind_Returns in Hnew as ([Sol nd'] & Hload & Hnew).
  apply bind_Returns in Hnew as (nd'' & Hdirect & Hnew).
  injection Hnew as <-. simpl.
  apply bind_Returns in Hload as (G & _ & Hload).
  apply bind_Returns in Hload as ([Sol1 nd] & Hread & Hload).
  apply bind_Returns in Hload as (nd1 & Hhalo & Hload).
  injection Hload as -> ->.
  destruct (read_restart_lines_length _ _ _ _ _ _ _ _ _ _ _ Hread)
    as [HlenS Hlen].
  rewrite length_replicate in HlenS. rewrite length_replicate in Hlen.
  split; [exact HlenS|]. intros i Hi.
  destruct (halo_loop_total
              (Some (CDiscAdjVariable Sol (CGeometry.nDim geometry)
                       (CSolver.nVar direct_solver) config))
              (CGeometry.nPoint geometry - CGeometry.nPointDomain geometry)
              (CGeometry.nPointDomain geometry) nd)
    as (nd2 & Hhalo2 & Hnew); [lia|].
  rewrite Hhalo in Hhalo2. injection Hhalo2 as <-.
  destruct (store_direct_solution_at _ _ _ _ Hdirect i ltac:(lia))
    as (v & d & Hv & _ & Hv').
  rewrite Hnew in Hv by lia. injection Hv as <-.
  destruct (store_direct_solution_spec _ _ _ _ Hdirect) as (_ & Hall & _).
  eexists. split.
  - apply omap_id_lookup; [|exact Hv']. intros j Hj. apply Hall. lia.
  - simpl. apply take_ge. lia.
Qed.

Lemma wf_restart_example1 :
  wf_restart Example.geometry1 Example.config_restart Example.direct0
             (tail Example.restart_lines).
Proof.
  do 5 (split; [vm_compute; lia|]). split.
  - intros [|i] p Hi Hp; simpl in *; try lia.
    injection Hp as <-. simpl. lia.
  - intros [|i] [|j] p q Hi Hj Hp Hq; simpl in *; lia.
Defined.

(** On rank 1 the global point 1 belongs to another rank: the file whose
    line for that point holds nothing gives the same solver. *)
Lemma restart_foreign_lines_are_skipped_witness :
  CDiscAdjSolver_new (HAVE_MPI 2) 1 Example.with_file Example.solver0
    Example.geometry1 Example.config_restart Example.direct0
    RUNTIME_FLOW_SYS MESH_0
  = CDiscAdjSolver_new (HAVE_MPI 2) 1 Example.with_other_file
      Example.solver0 Example.geometry1 Example.config_restart
      Example.direct0 RUNTIME_FLOW_SYS MESH_0.
Proof.
  apply (restart_foreign_lines_are_skipped (HAVE_MPI 2) 1 Example.with_file
           Example.with_other_file Example.solver0 Example.geometry1
           Example.config_restart Example.direct0 RUNTIME_FLOW_SYS MESH_0
           Example.restart_lines Example.other_lines [0; -1]%Z).
  - reflexivity.
  - reflexivity.
  - reflexivity.
  - vm_compute. reflexivity.
  - intros [|[|k]] z Hz Hpos; simpl in *; try done.
    injection Hz as <-. lia.
Defined.

(** The halo point 1 of rank 1 holds the 2 of the line of the local
    point 0, the last line the rank has read. *)
Lemma restart_halo_points_take_the_last_buffer_witness :
  CDiscAdjSolver_new (HAVE_MPI 2) 1 Example.with_file Example.solver0
    Example.geometry1 Example.config_restart Example.direct0
    RUNTIME_FLOW_SYS MESH_0 = Returns Example.restarted_halo /\
  exists v,
    CDiscAdjSolver.node Example.restarted_halo !! 1 = Some v /\
    CVariable.Solution v = [Example.two].
Proof.
  destruct (restart_halo_points_take_the_last_buffer (HAVE_MPI 2) 1
              Example.with_file Example.solver0 Example.geometry1
              Example.config_restart Example.direct0 RUNTIME_FLOW_SYS
              Example.restart_lines eq_refl eq_refl wf_restart_example1)
    as (solver & Hnew & _ & Hhalo).
  assert (solver = Example.restarted_halo) as ->
    by (vm_compute in Hnew; injection Hnew as <-; reflexivity).
  split; [exact Hnew|].
  destruct (Hhalo 1 ltac:(vm_compute; lia)) as (v & Hv & HS).
  exists v. split; [exact Hv|]. rewrite HS. reflexivity.
Defined.

(** ** The constructed solver fits the loops that use it *)

Lemma halo_loop_slots (x : option CVariable.t) (n lo : nat)
    (node node' : list (option CVariable.t)) :
  for_loop n lo (fun iPoint node => store node iPoint x) node = Returns node' ->
  forall l y, node' !! l = Some y -> y = x \/ node !! l = Some y.
Proof.
  intros Hrun.
  refine (for_loop_inv
            (fun _ nd => forall l y, nd !! l = Some y ->
                                     y = x \/ node !! l = Some y)
            n lo _ node node' _ _ Hrun); [auto|].
  intros i nd1 nd2 _ IH Hbody. apply store_Returns in Hbody as [Hlen ->].
  intros l y Hy. destruct (decide (l = i)) as [->|Hne].
  - rewrite list_lookup_insert_eq in Hy by done. left. congruence.
  - rewrite list_lookup_insert_ne in Hy by done. auto.
Qed.

Lemma read_restart_lines_slots config nDim nVar skipVars Global2Local lines
    iPoint_Global Solution node Solution' node' :
  read_restart_lines config nDim nVar skipVars Global2Local lines
    iPoint_Global Solution node = Returns (Solution', node') ->
  forall l v, node' !! l = Some (Some v) ->
    node !! l = Some (Some v) \/
    exists Solution, v = CDiscAdjVariable Solution nDim nVar config.
Proof.
  revert iPoint_Global Solution node.
  induction lines as [|line lines IH]; intros k0 Sol nd Hrun l v Hv;
    simpl in Hrun.
  - injection Hrun as _ <-. auto.
  - apply bind_Returns in Hrun as (z & _ & Hrun).
    apply bind_Returns in Hrun as ([Sol1 nd1] & Hstep & Hrun).
    destruct (IH _ _ _ Hrun l v Hv) as [Hold|Hnew]; [|auto].
    destruct (decide (0 <= z)%Z); [|injection Hstep as _ <-; auto].
    apply bind_Returns in Hstep as (nd2 & Hstore & Hstep).
    injection Hstep as _ <-.
    apply store_Returns in Hstore as [_ ->].
    destruct (decide (l = Z.to_nat z)) as [->|Hne].
    + rewrite list_lookup_insert_eq in Hold
        by (by apply lookup_lt_Some in Hold; rewrite length_insert in Hold).
      right. injection Hold as <-. eauto.
    + rewrite list_lookup_insert_ne in Hold by done. auto.
Qed.

(** The points of the solver the constructor returns: as many as the mesh
    has, each with a sensitivity per dimension and the values of the primal
    solution of the point as its stored direct solution. *)
Lemma CDiscAdjSolver_new_nodes b r fs this geometry config direct_solver
    Kind_Solver iMesh solver :
  CDiscAdjSolver_new b r fs this geometry config direct_solver
                     Kind_Solver iMesh = Returns solver ->
  length (CDiscAdjSolver.node solver) = CGeometry.nPoint geometry /\
  forall iPoint, iPoint < CGeometry.nPoint geometry ->
    exists v d,
      CDiscAdjSolver.node solver !! iPoint = Some v /\
      CSolver.node direct_solver !! iPoint = Some d /\
      CVariable.Solution_Direct v = AD.value <$> CDirectVariable.Solution d /\
      CVariable.Sensitivity v
      = replicate (CGeometry.nDim geometry) Double.zero.
Proof.
  intros Hnew. unfold CDiscAdjSolver_new in Hnew.
  apply bind_Returns in Hnew as (CS & _ & Hnew).
  apply bind_Returns in Hnew as ([Sol nd] & Hnodes & Hnew).
  apply bind_Returns in Hnew as (nd' & Hdirect & Hnew).
  injection Hnew as <-. simpl.
  assert (Hcreated :
    length nd = CGeometry.nPoint geometry /\
    forall l v, nd !! l = Some (Some v) ->
      exists Solution,
        v = CDiscAdjVariable Solution (CGeometry.nDim geometry)
              (CSolver.nVar direct_solver) config).
  { destruct (negb _ || negb _).
    - injection Hnodes as <- <-. split; [apply length_replicate|].
      intros l v [Hv _]%lookup_replicate. injection Hv as ->. eauto.
    - unfold load_restart in Hnodes.
      destruct (fs _) as [file|]; [|done].
      apply bind_Returns in Hnodes as (G & _ & Hnodes).
      apply bind_Returns in Hnodes as ([Sol1 nd1] & Hread & Hnodes).
      apply bind_Returns in Hnodes as (nd2 & Hhalo & Hnodes).
      injection Hnodes as -> ->.
      destruct (read_restart_lines_length _ _ _ _ _ _ _ _ _ _ _ Hread)
        as [_ Hlen1].
      destruct (halo_loop_frame _ _ _ _ _ Hhalo) as [Hlen2 _].
      split; [by rewrite Hlen2, Hlen1, length_replicate|].
      intros l v Hv.
      destruct (halo_loop_slots _ _ _ _ _ Hhalo l _ Hv) as [Heq|Hold].
      + injection Heq as ->. eauto.
      + destruct (read_restart_lines_slots _ _ _ _ _ _ _ _ _ _ _ Hread l v Hold)
          as [[Hnone _]%lookup_replicate|Hnew]; [done|exact Hnew]. }
  destruct Hcreated as [Hlen Hcreated].
  destruct (store_direct_solution_spec _ _ _ _ Hdirect) as (Hlen' & Hall & _).
  split.
  - rewrite omap_id_length; [lia|]. intros j Hj. apply Hall. lia.
  - intros i Hi.
    destruct (store_direct_solution_at _ _ _ _ Hdirect i Hi)
      as (v & d & Hv & Hd & Hv').
    destruct (Hcreated i v Hv) as (S0 & ->).
    eexists. exists d. split; [|split; [exact Hd|]].
    + apply omap_id_lookup; [|exact Hv']. intros j Hj. apply Hall. lia.
    + split; reflexivity.
Qed.

(** X5. The solver the constructor returns has the sizes the sensitivity
    loops rely on.  On a mesh whose points have a coordinate per dimension
    and whose boundary vertices lie at points of the mesh and have a normal
    component per dimension, [SetSensitivity] returns on that solver,
    whatever the tape holds. *)
Theorem constructed_solver_fits_SetSensitivity
    (b : build) (r : nat) (fs : filesystem) (this : CDiscAdjSolver.t)
    (geometry : CGeometry.t) (config : CConfig.t) (direct_solver : CSolver.t)
    (Kind_Solver : RUNTIME_TYPE) (iMesh : nat) (solver : CDiscAdjSolver.t) :
  CDiscAdjSolver_new b r fs this geometry config direct_solver
                     Kind_Solver iMesh = Returns solver ->
  CGeometry.nPoint geometry <= length (CGeometry.node geometry) ->
  Forall (fun p => CGeometry.nDim geometry <= length (CPoint.Coord p))
         (CGeometry.node geometry) ->
  (forall m vertices,
     m < GetnMarker_All config ->
     CGeometry.vertex geometry !! m = Some vertices ->
     Forall (fun vertex =>
               CVertex.Node vertex < CGeometry.nPoint geometry /\
               CGeometry.nDim geometry <= length (CVertex.Normal vertex))
            vertices) ->
  wf_points geometry solver /\
  wf_surface geometry config solver /\
  forall b' Allreduce tp,
    exists st, SetSensitivity b' Allreduce tp geometry config solver
               = Returns st.
Proof.
  intros Hnew HnP HCoord Hvertex.
  destruct (CDiscAdjSolver_new_nodes _ _ _ _ _ _ _ _ _ _ Hnew)
    as [Hlen Hnodes].
  assert (Hmembers :
    CDiscAdjSolver.nDim solver = CGeometry.nDim geometry /\
    CDiscAdjSolver.nPoint solver = CGeometry.nPoint geometry /\
    CDiscAdjSolver.nMarker solver = GetnMarker_All config /\
    CDiscAdjSolver.Sens_Geo solver
    = replicate (GetnMarker_All config) Double.zero /\
    alloc_CSensitivity geometry (GetnMarker_All config)
    = Returns (CDiscAdjSolver.CSensitivity solver)).
  { unfold CDiscAdjSolver_new in Hnew.
    apply bind_Returns in Hnew as (CS & HCS & Hnew).
    apply bind_Returns in Hnew as ([Sol nd] & _ & Hnew).
    apply bind_Returns in Hnew as (nd' & _ & Hnew).
    injection Hnew as <-. simpl. auto. }
  destruct Hmembers as (HnD & HnPs & HnM & HSG & HCS).
  apply alloc_CSensitivity_spec in HCS as [HlenCS Hrows].
  assert (Hpoints : wf_points geometry solver).
  { unfold wf_points. rewrite HnD, HnPs, Hlen.
    split; [done|]. split; [done|]. split; [done|].
    apply Forall_lookup. intros i v Hv.
    destruct (Hnodes i) as (v' & d & Hv' & _ & _ & HS).
    { apply lookup_lt_Some in Hv. lia. }
    rewrite Hv in Hv'. injection Hv' as <-.
    by rewrite HS, length_replicate. }
  assert (Hsurface : wf_surface geometry config solver).
  { unfold wf_surface. rewrite HnM, HSG, length_replicate.
    split; [done|]. split; [done|]. intros m Hm _.
    destruct (Hrows m Hm) as (vertices & Hvs & Hrow).
    exists vertices. eexists. split; [exact Hvs|]. split; [exact Hrow|].
    split; [by rewrite length_replicate|].
    eapply Forall_impl; [exact (Hvertex m vertices Hm Hvs)|].
    intros vertex [HN HNormal]. unfold wf_vertex. rewrite HnD.
    split; [lia|]. split; [done|].
    destruct (Hnodes _ HN) as (v & d & Hv & _ & _ & HS).
    exists v. split; [done|]. by rewrite HS, length_replicate. }
  split; [done|]. split; [done|]. intros b' Allreduce tp.
  by apply SetSensitivity_total.
Qed.

(** The solver of the coarse level can be handed to [SetSensitivity]. *)
Lemma constructed_solver_fits_SetSensitivity_witness :
  wf_points Example.geometry0 Example.coarse /\
  exists st,
    SetSensitivity Serial id Example.tape0 Example.geometry0
      Example.config_restart Example.coarse = Returns st.
Proof.
  destruct (constructed_solver_fits_SetSensitivity Serial 0 Example.no_files
              Example.solver0 Example.geometry0 Example.config_restart
              Example.direct0 RUNTIME_FLOW_SYS 1 Example.coarse)
    as (Hpoints & _ & Hreturns).
  - vm_compute. reflexivity.
  - vm_compute. lia.
  - repeat constructor; simpl; lia.
  - intros [|[|m]] vertices Hm Hvs; unfold GetnMarker_All in Hm;
      simpl in *; try lia;
      injection Hvs as <-; repeat constructor; simpl; lia.
  - split; [exact Hpoints|]. apply Hreturns.
Defined.

(** * Further properties of the registration of the farfield variables *)

Lemma recompute_Velocity_FreeStreamND_frame cos sin nDim Alpha Beta Mach
    SoundSpeed Velocity_Ref Velocity Velocity' :
  recompute_Velocity_FreeStreamND cos sin nDim Alpha Beta Mach SoundSpeed
    Velocity_Ref Velocity = Returns Velocity' ->
  length Velocity' = length Velocity /\
  forall k, (nDim = 2 \/ nDim = 3 -> nDim <= k) ->
    Velocity' !! k = Velocity !! k.
Proof.
  unfold recompute_Velocity_FreeStreamND. intros Hrun.
  destruct (decide (nDim = 2)) as [E2|N2];
    destruct (decide (nDim = 3)) as [E3|N3]; try lia; inv_outcome.
  - split; [by rewrite !length_insert|]. intros k Hk.
    assert (2 <= k) by (apply Hk; auto).
    rewrite !list_lookup_insert_ne by lia. reflexivity.
  - split; [by rewrite !length_insert|]. intros k Hk.
    assert (3 <= k) by (apply Hk; auto).
    rewrite !list_lookup_insert_ne by lia. reflexivity.
  - auto.
Qed.

(** X6. Inside the guard (compressible regime, flow system)
    [RegisterVariables] called without [reset] returns when the velocity
    array has the components of the dimension, and gives Mach, the angle of
    attack, the temperature and the pressure, in this order, the next four
    handles of the tape; the sideslip angle is not registered.  The four
    sensitivities [ExtractAdjoint_Variables] reads afterwards, from whatever
    the tape then holds, are the derivatives kept under these four handles:
    the local ones in a serial build, what the four collectives make of
    them with MPI. *)
Theorem RegisterVariables_registers_four_inputs
    (cos sin : su2double -> su2double) (PI_NUMBER : su2double)
    (config : CConfig.t) (direct_solver : CSolver.t)
    (solver : CDiscAdjSolver.t) (tp : AD.tape) :
  is_compressible_flow config solver = true ->
  (CDiscAdjSolver.nDim solver = 2 ->
   2 <= length (CConfig.Velocity_FreeStreamND config)) ->
  (CDiscAdjSolver.nDim solver = 3 ->
   3 <= length (CConfig.Velocity_FreeStreamND config)) ->
  exists config' direct_solver' solver' tp',
    RegisterVariables cos sin PI_NUMBER config direct_solver solver tp false
    = Returns (config', direct_solver', solver', tp') /\
    AD.index (CDiscAdjSolver.Mach solver') = AD.inputs tp + 1 /\
    AD.index (CDiscAdjSolver.Alpha solver') = AD.inputs tp + 2 /\
    AD.index (CDiscAdjSolver.Temperature solver') = AD.inputs tp + 3 /\
    AD.index (CDiscAdjSolver.Pressure solver') = AD.inputs tp + 4 /\
    AD.index (CDiscAdjSolver.Beta solver') = AD.passive /\
    AD.inputs tp' = AD.inputs tp + 4 /\
    AD.adjoint tp' = AD.adjoint tp /\
    AD.outputs tp' = AD.outputs tp /\
    forall b Allreduce tp'' totals,
      ExtractAdjoint_Variables b Allreduce tp'' config' solver' totals
      = let local k := AD.adjoint tp'' (AD.inputs tp + k) in
        match b with
        | HAVE_MPI _ =>
            Build_Total_Sens (Allreduce 0 (local 1)) (Allreduce 1 (local 2))
                             (Allreduce 2 (local 3)) (Allreduce 3 (local 4))
        | Serial => Build_Total_Sens (local 1) (local 2) (local 3) (local 4)
        end.
Proof.
  intros Hguard H2 H3.
  destruct (RegisterVariables_returns cos sin PI_NUMBER config direct_solver
              solver tp false H2 H3) as ([[[c' d'] s'] t'] & Hrun).
  exists c', d', s', t'. split; [exact Hrun|].
  unfold RegisterVariables in Hrun. rewrite Hguard in Hrun.
  apply bind_Returns in Hrun as (SoundSpeed & _ & Hrun). simpl in Hrun.
  apply bind_Returns in Hrun as (Velocity & _ & Hrun).
  injection Hrun as <- <- <- <-. simpl.
  do 5 (split; [lia || reflexivity|]).
  split; [lia|]. split; [reflexivity|]. split; [reflexivity|].
  intros b Allreduce tp'' totals. unfold ExtractAdjoint_Variables.
  unfold is_compressible_flow in *. simpl. rewrite Hguard.
  unfold AD.GetDerivative. simpl.
  replace (AD.inputs tp + 1) with (S (AD.inputs tp)) by lia.
  replace (AD.inputs tp + 2) with (S (S (AD.inputs tp))) by lia.
  replace (AD.inputs tp + 3) with (S (S (S (AD.inputs tp)))) by lia.
  replace (AD.inputs tp + 4) with (S (S (S (S (AD.inputs tp))))) by lia.
  reflexivity.
Qed.

(** X7. Inside the guard [RegisterVariables] leaves the free-stream
    temperature and pressure of the configuration as they are and copies
    them to the primal solver, so that the two agree afterwards; it leaves
    the points of the primal solver and of the adjoint solver alone, and of
    the velocity array it writes the components of the dimension only: none
    at all when the dimension is neither 2 nor 3. *)
Theorem RegisterVariables_synchronises_the_free_stream
    (cos sin : su2double -> su2double) (PI_NUMBER : su2double)
    (config : CConfig.t) (direct_solver : CSolver.t)
    (solver : CDiscAdjSolver.t) (tp : AD.tape) (reset : bool)
    (config' : CConfig.t) (direct_solver' : CSolver.t)
    (solver' : CDiscAdjSolver.t) (tp' : AD.tape) :
  is_compressible_flow config solver = true ->
  RegisterVariables cos sin PI_NUMBER config direct_solver solver tp reset
  = Returns (config', direct_solver', solver', tp') ->
  CConfig.Temperature_FreeStreamND config'
  = CConfig.Temperature_FreeStreamND config /\
  CConfig.Pressure_FreeStreamND config'
  = CConfig.Pressure_FreeStreamND config /\
  CSolver.Temperature_Inf direct_solver'
  = CConfig.Temperature_FreeStreamND config' /\
  CSolver.Pressure_Inf direct_solver'
  = CConfig.Pressure_FreeStreamND config' /\
  CSolver.node direct_solver' = CSolver.node direct_solver /\
  CDiscAdjSolver.node solver' = CDiscAdjSolver.node solver /\
  length (CConfig.Velocity_FreeStreamND config')
  = length (CConfig.Velocity_FreeStreamND config) /\
  forall k,
    (CDiscAdjSolver.nDim solver = 2 \/ CDiscAdjSolver.nDim solver = 3 ->
     CDiscAdjSolver.nDim solver <= k) ->
    CConfig.Velocity_FreeStreamND config' !! k
    = CConfig.Velocity_FreeStreamND config !! k.
Proof.
  intros Hguard Hrun.
  unfold RegisterVariables in Hrun. rewrite Hguard in Hrun.
  apply bind_Returns in Hrun as (SoundSpeed & _ & Hrun).
  destruct reset; simpl in Hrun;
    apply bind_Returns in Hrun as (Velocity & HV & Hrun);
    injection Hrun as <- <- <- <-; simpl;
    apply recompute_Velocity_FreeStreamND_frame in HV as [Hlen Hframe];
    repeat split; auto.
Qed.

(** On a tape without inputs Mach gets the handle 1 and the pressure the
    handle 4; a serial extraction then reads the derivative 1 for Mach. *)
Lemma RegisterVariables_registers_four_inputs_witness :
  exists config' direct_solver' solver' tp',
    RegisterVariables Example.cos_at_0 Example.sin_at_0 Example.PI_NUMBER
      Example.config0 Example.direct0 Example.solver0 Example.tape0 false
    = Returns (config', direct_solver', solver', tp') /\
    AD.index (CDiscAdjSolver.Mach solver') = 1 /\
    AD.index (CDiscAdjSolver.Pressure solver') = 4 /\
    Total_Sens_Mach
      (ExtractAdjoint_Variables Serial (fun _ x => x) Example.tape0 config'
         solver' (Build_Total_Sens Double.zero Double.zero Double.zero
                                   Double.zero))
    = Double.one.
Proof.
  destruct (RegisterVariables_registers_four_inputs Example.cos_at_0
              Example.sin_at_0 Example.PI_NUMBER Example.config0
              Example.direct0 Example.solver0 Example.tape0)
    as (c & d & s & t & Hrun & HM & _ & _ & HP & _ & _ & _ & _ & Hread).
  - reflexivity.
  - intros _. vm_compute. lia.
  - intros H. discriminate H.
  - exists c, d, s, t. split; [exact Hrun|]. split; [exact HM|].
    split; [exact HP|]. rewrite Hread. reflexivity.
Defined.

(** The registration of [config0] leaves the temperature 1 in the
    configuration and in the primal solver, and the third velocity
    component of the two-dimensional case as it was. *)
Lemma RegisterVariables_synchronises_the_free_stream_witness :
  CSolver.Temperature_Inf Example.registered.1.1.2 = Double.one /\
  CConfig.Velocity_FreeStreamND Example.registered.1.1.1 !! 2
  = Some Double.zero.
Proof.
  destruct (RegisterVariables_synchronises_the_free_stream Example.cos_at_0
              Example.sin_at_0 Example.PI_NUMBER Example.config0
              Example.direct0 Example.solver0 Example.tape0 false
              Example.registered.1.1.1 Example.registered.1.1.2
              Example.registered.1.2 Example.registered.2)
    as (HT & _ & HTinf & _ & _ & _ & _ & HV).
  - reflexivity.
  - vm_compute. reflexivity.
  - split.
    + rewrite HTinf, HT. reflexivity.
    + rewrite HV; [reflexivity|]. intros _. vm_compute. lia.
Defined.

(** * Properties of the recording *)

(** ** The primal state is restored *)

Lemma RegisterVariables_reset cos sin PI_NUMBER config direct_solver solver
    tp config' direct_solver' solver' tp' :
  RegisterVariables cos sin PI_NUMBER config direct_solver solver tp true
  = Returns (config', direct_solver', solver', tp') ->
  tp' = tp /\
  CSolver.node direct_solver' = CSolver.node direct_solver /\
  CDiscAdjSolver.node solver' = CDiscAdjSolver.node solver /\
  (is_compressible_flow config solver = true ->
   AD.index (CDiscAdjSolver.Mach solver') = AD.passive /\
   AD.index (CDiscAdjSolver.Alpha solver') = AD.passive /\
   AD.index (CDiscAdjSolver.Temperature solver') = AD.passive /\
   AD.index (CDiscAdjSolver.Pressure solver') = AD.passive).
Proof.
  unfold RegisterVariables. intros Hrun.
  destruct (is_compressible_flow config solver).
  - apply bind_Returns in Hrun as (SoundSpeed & _ & Hrun). simpl in Hrun.
    apply bind_Returns in Hrun as (Velocity & _ & Hrun).
    injection Hrun as <- <- <- <-. simpl. auto 10.
  - injection Hrun as <- <- <- <-. repeat split; auto; discriminate.
Qed.

(** The loop of [SetRecording] over the points. *)
Lemma restore_loop_spec (solver : CDiscAdjSolver.t) (nPoint : nat)
    (node : list CDirectVariable.t) :
  nPoint <= length (CDiscAdjSolver.node solver) ->
  nPoint <= length node ->
  exists node',
    for_loop nPoint 0
      (fun iPoint node =>
         v ← load (CDiscAdjSolver.node solver) iPoint;
         d ← load node iPoint;
         store node iPoint (SetSolution (CVariable.Solution_Direct v) d))
      node = Returns node' /\
    length node' = length node /\
    (forall i v d, i < nPoint ->
       CDiscAdjSolver.node solver !! i = Some v -> node !! i = Some d ->
       node' !! i = Some (SetSolution (CVariable.Solution_Direct v) d)) /\
    (forall i, nPoint <= i -> node' !! i = node !! i).
Proof.
  intros Hsolver Hnode.
  destruct (for_loop_total
    (fun n (nd : list CDirectVariable.t) =>
       length nd = length node /\
       (forall i v d, i < n ->
          CDiscAdjSolver.node solver !! i = Some v -> node !! i = Some d ->
          nd !! i = Some (SetSolution (CVariable.Solution_Direct v) d)) /\
       (forall i, n <= i -> nd !! i = node !! i))
    nPoint 0
    (fun iPoint node =>
       v ← load (CDiscAdjSolver.node solver) iPoint;
       d ← load node iPoint;
       store node iPoint (SetSolution (CVariable.Solution_Direct v) d))
    node) as (node' & Hrun & Hinv).
  - split; [done|]. split; [intros; lia | done].
  - intros i nd [_ Hi] (Hlen & Hdone & Hrest). simpl in Hi.
    destruct (load_lt (CDiscAdjSolver.node solver) i) as (v & -> & Hv);
      [lia|].
    destruct (load_lt nd i) as (d & -> & Hd); [lia|]. simpl.
    rewrite store_lt by lia. eexists. split; [reflexivity|].
    split; [by rewrite length_insert|]. split.
    + intros j w e Hj Hw He. destruct (decide (j = i)) as [->|Hne].
      * rewrite list_lookup_insert_eq by lia.
        rewrite Hrest in Hd by done. congruence.
      * rewrite list_lookup_insert_ne by done. apply Hdone; [lia|done..].
    + intros j Hj. rewrite list_lookup_insert_ne by lia. apply Hrest. lia.
  - exists node'. split; [exact Hrun|]. exact Hinv.
Qed.

Lemma SetRecording_spec cos sin PI_NUMBER config direct_solver Jacobian
    solver tp :
  CDiscAdjSolver.nPoint solver <= length (CDiscAdjSolver.node solver) ->
  CDiscAdjSolver.nPoint solver <= length (CSolver.node direct_solver) ->
  (CDiscAdjSolver.nDim solver = 2 ->
   2 <= length (CConfig.Velocity_FreeStreamND config)) ->
  (CDiscAdjSolver.nDim solver = 3 ->
   3 <= length (CConfig.Velocity_FreeStreamND config)) ->
  exists config' direct_solver' solver',
    SetRecording cos sin PI_NUMBER config direct_solver Jacobian solver tp
    = Returns (config', direct_solver', SetValZero Jacobian, solver', tp) /\
    (forall i v d, i < CDiscAdjSolver.nPoint solver ->
       CDiscAdjSolver.node solver !! i = Some v ->
       CSolver.node direct_solver !! i = Some d ->
       CSolver.node direct_solver' !! i
       = Some (SetSolution (CVariable.Solution_Direct v) d)) /\
    (forall i, CDiscAdjSolver.nPoint solver <= i ->
       CSolver.node direct_solver' !! i = CSolver.node direct_solver !! i) /\
    (is_compressible_flow config solver = true ->
     AD.index (CDiscAdjSolver.Mach solver') = AD.passive /\
     AD.index (CDiscAdjSolver.Alpha solver') = AD.passive /\
     AD.index (CDiscAdjSolver.Temperature solver') = AD.passive /\
     AD.index (CDiscAdjSolver.Pressure solver') = AD.passive).
Proof.
  intros Hsolver Hdirect H2 H3. unfold SetRecording.
  destruct (restore_loop_spec solver _ _ Hsolver Hdirect)
    as (node' & -> & _ & Hdone & Hrest). simpl.
  destruct (RegisterVariables_returns cos sin PI_NUMBER config
              (CSolver.set_node node' direct_solver) solver tp true H2 H3)
    as ([[[c' d'] s'] t'] & Hrun).
  rewrite Hrun. simpl.
  apply RegisterVariables_reset in Hrun as (-> & Hnode & _ & Hpassive).
  simpl in Hnode.
  exists c', d', s'. split; [reflexivity|]. rewrite Hnode. auto.
Qed.

(** X8. [SetRecording] returns when the two solvers hold the points and the
    velocity array has the components of the dimension.  It gives the
    solution of every point of the primal solver the values of the direct
    solution the adjoint solver has stored for it, and leaves the time
    levels of the point alone; it zeroes every entry of the Jacobian; it
    registers nothing, the tape being left as it is, and inside the guard
    of [RegisterVariables] the four farfield variables are off the tape
    afterwards. *)
Theorem SetRecording_restores_the_stored_solution
    (cos sin : su2double -> su2double) (PI_NUMBER : su2double)
    (config : CConfig.t) (direct_solver : CSolver.t)
    (Jacobian : list su2double) (solver : CDiscAdjSolver.t) (tp : AD.tape) :
  CDiscAdjSolver.nPoint solver <= length (CDiscAdjSolver.node solver) ->
  CDiscAdjSolver.nPoint solver <= length (CSolver.node direct_solver) ->
  (CDiscAdjSolver.nDim solver = 2 ->
   2 <= length (CConfig.Velocity_FreeStreamND config)) ->
  (CDiscAdjSolver.nDim solver = 3 ->
   3 <= length (CConfig.Velocity_FreeStreamND config)) ->
  exists config' direct_solver' Jacobian' solver' tp',
    SetRecording cos sin PI_NUMBER config direct_solver Jacobian solver tp
    = Returns (config', direct_solver', Jacobian', solver', tp') /\
    tp' = tp /\
    length Jacobian' = length Jacobian /\
    Forall (fun x => x = Double.zero) Jacobian' /\
    (forall i v d, i < CDiscAdjSolver.nPoint solver ->
       CDiscAdjSolver.node solver !! i = Some v ->
       CSolver.node direct_solver !! i = Some d ->
       exists d',
         CSolver.node direct_solver' !! i = Some d' /\
         AD.value <$> CDirectVariable.Solution d'
         = CVariable.Solution_Direct v /\
         CDirectVariable.Solution_time_n d'
         = CDirectVariable.Solution_time_n d /\
         CDirectVariable.Solution_time_n1 d'
         = CDirectVariable.Solution_time_n1 d) /\
    (is_compressible_flow config solver = true ->
     AD.index (CDiscAdjSolver.Mach solver') = AD.passive /\
     AD.index (CDiscAdjSolver.Alpha solver') = AD.passive /\
     AD.index (CDiscAdjSolver.Temperature solver') = AD.passive /\
     AD.index (CDiscAdjSolver.Pressure solver') = AD.passive).
Proof.
  intros Hsolver Hdirect H2 H3.
  destruct (SetRecording_spec cos sin PI_NUMBER config direct_solver Jacobian
              solver tp Hsolver Hdirect H2 H3)
    as (c' & d' & s' & Hrun & Hdone & _ & Hpassive).
  exists c', d', (SetValZero Jacobian), s', tp.
  split; [exact Hrun|]. split; [reflexivity|].
  split; [apply length_replicate|].
  split; [apply Forall_replicate; reflexivity|].
  split; [|exact Hpassive].
  intros i v d Hi Hv Hd. eexists. split; [exact (Hdone i v d Hi Hv Hd)|].
  unfold SetSolution. simpl. split; [|done].
  rewrite <- list_fmap_compose. apply list_fmap_id.
Qed.

(** X9. The constructor and [SetRecording] form a round trip on the primal
    solution: whatever the primal solver holds when [SetRecording] is
    called on the solver the constructor has returned, afterwards the
    solution of every mesh point has the values it had when the solver was
    constructed. *)
Theorem SetRecording_after_construction
    (cos sin : su2double -> su2double) (PI_NUMBER : su2double)
    (b : build) (r : nat) (fs : filesystem) (this : CDiscAdjSolver.t)
    (geometry : CGeometry.t) (config : CConfig.t) (direct_solver : CSolver.t)
    (Kind_Solver : RUNTIME_TYPE) (iMesh : nat) (solver : CDiscAdjSolver.t)
    (config_now : CConfig.t) (direct_solver_now : CSolver.t)
    (Jacobian : list su2double) (tp : AD.tape) :
  CDiscAdjSolver_new b r fs this geometry config direct_solver
                     Kind_Solver iMesh = Returns solver ->
  CGeometry.nPoint geometry <= length (CSolver.node direct_solver_now) ->
  (CGeometry.nDim geometry = 2 ->
   2 <= length (CConfig.Velocity_FreeStreamND config_now)) ->
  (CGeometry.nDim geometry = 3 ->
   3 <= length (CConfig.Velocity_FreeStreamND config_now)) ->
  exists config' direct_solver' Jacobian' solver' tp',
    SetRecording cos sin PI_NUMBER config_now direct_solver_now Jacobian
                 solver tp
    = Returns (config', direct_solver', Jacobian', solver', tp') /\
    forall iPoint d,
      iPoint < CGeometry.nPoint geometry ->
      CSolver.node direct_solver !! iPoint = Some d ->
      exists d',
        CSolver.node direct_solver' !! iPoint = Some d' /\
        AD.value <$> CDirectVariable.Solution d'
        = AD.value <$> CDirectVariable.Solution d.
Proof.
  intros Hnew Hnow H2 H3.
  destruct (CDiscAdjSolver_new_nodes _ _ _ _ _ _ _ _ _ _ Hnew)
    as [Hlen Hnodes].
  assert (Hmembers :
    CDiscAdjSolver.nDim solver = CGeometry.nDim geometry /\
    CDiscAdjSolver.nPoint solver = CGeometry.nPoint geometry).
  { unfold CDiscAdjSolver_new in Hnew.
    apply bind_Returns in Hnew as (CS & _ & Hnew).
    apply bind_Returns in Hnew as ([Sol nd] & _ & Hnew).
    apply bind_Returns in Hnew as (nd' & _ & Hnew).
    injection Hnew as <-. simpl. auto. }
  destruct Hmembers as [HnD HnP].
  destruct (SetRecording_spec cos sin PI_NUMBER config_now direct_solver_now
              Jacobian solver tp)
    as (c' & d' & s' & Hrun & Hdone & _); [lia | lia | rewrite HnD; done..|].
  exists c', d', (SetValZero Jacobian), s', tp. split; [exact Hrun|].
  intros i d Hi Hd.
  destruct (Hnodes i Hi) as (v & d0 & Hv & Hd0 & HSD & _).
  rewrite Hd in Hd0. injection Hd0 as <-.
  destruct (lookup_lt_is_Some_2 (CSolver.node direct_solver_now) i)
    as [dnow Hdnow]; [lia|].
  eexists. split; [apply (Hdone i v dnow); [lia|done..]|].
  unfold SetSolution. simpl. rewrite HSD.
  rewrite <- list_fmap_compose. apply list_fmap_id.
Qed.

(** The stored direct solution of point 1 of [solver0] is 0: recording
    gives it back to the primal solver, whose solution was 2, and zeroes
    the two entries of the Jacobian. *)
Lemma SetRecording_restores_the_stored_solution_witness :
  exists config' direct_solver' Jacobian' solver' tp' d',
    SetRecording Example.cos_at_0 Example.sin_at_0 Example.PI_NUMBER
      Example.config0 Example.direct0 [Example.two; Example.three]
      Example.solver0 Example.tape0
    = Returns (config', direct_solver', Jacobian', solver', tp') /\
    tp' = Example.tape0 /\
    length Jacobian' = 2 /\
    CSolver.node direct_solver' !! 1 = Some d' /\
    AD.value <$> CDirectVariable.Solution d' = [Double.zero].
Proof.
  destruct (SetRecording_restores_the_stored_solution Example.cos_at_0
              Example.sin_at_0 Example.PI_NUMBER Example.config0
              Example.direct0 [Example.two; Example.three] Example.solver0
              Example.tape0)
    as (c & d & J & s & t & Hrun & Ht & HJ & _ & Hnodes & _).
  - vm_compute. lia.
  - vm_compute. lia.
  - intros _. vm_compute. lia.
  - intros H. discriminate H.
  - destruct (Hnodes 1 Example.node0 _ ltac:(vm_compute; lia) eq_refl eq_refl)
      as (d' & Hd' & Hvalues & _).
    exists c, d, J, s, t, d'. auto.
Defined.

(** The solver was constructed when the solution of point 1 was 2; later
    the primal solver holds 3 there, and recording brings the 2 back. *)
Lemma SetRecording_after_construction_witness :
  exists config' direct_solver' Jacobian' solver' tp' d',
    SetRecording Example.cos_at_0 Example.sin_at_0 Example.PI_NUMBER
      Example.config0 Example.direct_later [] Example.coarse Example.tape0
    = Returns (config', direct_solver', Jacobian', solver', tp') /\
    CSolver.node direct_solver' !! 1 = Some d' /\
    AD.value <$> CDirectVariable.Solution d' = [Example.two].
Proof.
  destruct (SetRecording_after_construction Example.cos_at_0
              Example.sin_at_0 Example.PI_NUMBER Serial 0 Example.no_files
              Example.solver0 Example.geometry0 Example.config_restart
              Example.direct0 RUNTIME_FLOW_SYS 1 Example.coarse
              Example.config0 Example.direct_later [] Example.tape0)
    as (c & d & J & s & t & Hrun & Hnodes).
  - vm_compute. reflexivity.
  - vm_compute. lia.
  - intros _. vm_compute. lia.
  - intros H. discriminate H.
  - destruct (Hnodes 1 _ ltac:(vm_compute; lia) eq_refl)
      as (d' & Hd' & Hvalues).
    exists c, d, J, s, t, d'. auto.
Defined.

(** ** Registration of the primal solution *)

Lemma RegisterInputs_spec (tp : AD.tape) (xs : list AD.var) :
  RegisterInputs tp xs
  = (AD.Tape (AD.adjoint tp) (AD.inputs tp + length xs) (AD.outputs tp),
     imap (fun k x => AD.Var (AD.value x) (AD.inputs tp + k + 1)) xs).
Proof.
  revert tp. induction xs as [|x xs IH]; intros tp; simpl.
  - destruct tp. simpl. by rewrite Nat.add_0_r.
  - rewrite IH. simpl. f_equal; [f_equal; lia|].
    f_equal; [f_equal; lia|]. apply imap_ext. intros k y _. simpl.
    f_equal. lia.
Qed.

(** A loop of [RegisterSolution] over the points, when it is run: every
    point below [nPoint] has the array that [get] reads registered, the
    other arrays and points are left alone. *)
Lemma register_stage (cond : bool)
    (get : CDirectVariable.t -> list AD.var)
    (set : list AD.var -> CDirectVariable.t -> CDirectVariable.t)
    (n nPoint : nat) (direct_solver : CSolver.t) (tp : AD.tape) :
  nPoint <= length (CSolver.node direct_solver) ->
  Forall (fun d => length (get d) = n) (CSolver.node direct_solver) ->
  (if cond then
     register_points nPoint (register_as_input get set) (direct_solver, tp)
   else Returns (direct_solver, tp))
  = Returns
      (CSolver.set_node
         (imap (fun i d =>
                  if cond && bool_decide (i < nPoint) then
                    set (imap (fun k x =>
                                 AD.Var (AD.value x)
                                        (AD.inputs tp + i * n + k + 1))
                              (get d)) d
                  else d)
               (CSolver.node direct_solver))
         direct_solver,
       AD.Tape (AD.adjoint tp)
               (AD.inputs tp + (if cond then nPoint * n else 0))
               (AD.outputs tp)).
Proof.
  intros Hlen Hn. destruct cond; simpl.
  2:{ f_equal. f_equal.
      - destruct direct_solver. unfold CSolver.set_node. simpl. f_equal.
        symmetry. apply list_eq. intros i. rewrite list_lookup_imap.
        by destruct (_ !! i).
      - destruct tp. simpl. by rewrite Nat.add_0_r. }
  unfold register_points.
  destruct (for_loop_total
    (fun i (st : CSolver.t * AD.tape) =>
       st = (CSolver.set_node
               (imap (fun j d =>
                        if bool_decide (j < i) then
                          set (imap (fun k x =>
                                       AD.Var (AD.value x)
                                              (AD.inputs tp + j * n + k + 1))
                                    (get d)) d
                        else d)
                     (CSolver.node direct_solver))
               direct_solver,
             AD.Tape (AD.adjoint tp) (AD.inputs tp + i * n) (AD.outputs tp)))
    nPoint 0
    (fun iPoint '(direct_solver, tp) =>
       d ← load (CSolver.node direct_solver) iPoint;
       let '(tp, d) := register_as_input get set tp d in
       node ← store (CSolver.node direct_solver) iPoint d;
       Returns (CSolver.set_node node direct_solver, tp))
    (direct_solver, tp)) as (st' & Hrun & Hst').
  - f_equal.
    + destruct direct_solver. unfold CSolver.set_node. simpl. f_equal.
      symmetry. apply list_eq. intros i. rewrite list_lookup_imap.
      by destruct (_ !! i).
    + destruct tp. simpl. by rewrite Nat.add_0_r.
  - intros i st [_ Hi] ->. simpl in Hi. simpl.
    destruct (lookup_lt_is_Some_2 (CSolver.node direct_solver) i) as [d Hd];
      [lia|].
    unfold load. rewrite list_lookup_imap, Hd. simpl.
    rewrite bool_decide_eq_false_2 by lia. simpl.
    unfold register_as_input. rewrite RegisterInputs_spec. simpl.
    rewrite store_lt by (rewrite length_imap; lia). simpl.
    eexists. split; [reflexivity|].
    pose proof (Forall_lookup_1 _ _ _ _ Hn Hd) as Hnd. simpl in Hnd.
    f_equal; [|f_equal; lia].
    unfold CSolver.set_node. simpl. f_equal.
    apply list_eq. intros j. destruct (decide (j = i)) as [->|Hne].
    + rewrite list_lookup_insert_eq by (rewrite length_imap; lia).
      rewrite list_lookup_imap, Hd. simpl.
      rewrite bool_decide_eq_true_2 by lia. reflexivity.
    + rewrite list_lookup_insert_ne by done. rewrite !list_lookup_imap.
      destruct (_ !! j); [simpl|done].
      destruct (decide (j < i)).
      * by rewrite !bool_decide_eq_true_2 by lia.
      * by rewrite !bool_decide_eq_false_2 by lia.
  - subst st'. exact Hrun.
Qed.

(** X10. [RegisterSolution] returns when the primal solver holds the points
    of the mesh, and gives every solution variable of every point its own
    handle, counting on from the inputs the tape has: with arrays of [nVar]
    entries, the variable [iVar] of the point [iPoint] gets the handle
    [inputs + iPoint * nVar + iVar + 1] and keeps its value.  The time levels
    are registered after all the solutions, level n for both dual
    time-stepping schemes and level n-1 for the second-order one, and left
    alone otherwise; the derivatives and the outputs of the tape are not
    touched. *)
Theorem RegisterSolution_gives_fresh_handles
    (geometry : CGeometry.t) (config : CConfig.t) (direct_solver : CSolver.t)
    (tp : AD.tape) :
  let nPoint := CGeometry.nPoint geometry in
  let nVar := CSolver.nVar direct_solver in
  let registered (offset iPoint : nat) (xs : list AD.var) :=
    imap (fun iVar x =>
            AD.Var (AD.value x)
                   (AD.inputs tp + offset + iPoint * nVar + iVar + 1)) xs in
  let levels_n := if time_n_needed config then 1 else 0 in
  let levels_n1 := if time_n1_needed config then 1 else 0 in
  nPoint <= length (CSolver.node direct_solver) ->
  Forall (fun d => length (CDirectVariable.Solution d) = nVar /\
                   length (CDirectVariable.Solution_time_n d) = nVar /\
                   length (CDirectVariable.Solution_time_n1 d) = nVar)
         (CSolver.node direct_solver) ->
  exists direct_solver' tp',
    RegisterSolution geometry config direct_solver tp
    = Returns (direct_solver', tp') /\
    AD.inputs tp'
    = AD.inputs tp + nPoint * nVar * (1 + levels_n + levels_n1) /\
    AD.adjoint tp' = AD.adjoint tp /\
    AD.outputs tp' = AD.outputs tp /\
    forall iPoint d,
      iPoint < nPoint ->
      CSolver.node direct_solver !! iPoint = Some d ->
      exists d',
        CSolver.node direct_solver' !! iPoint = Some d' /\
        CDirectVariable.Solution d'
        = registered 0 iPoint (CDirectVariable.Solution d) /\
        CDirectVariable.Solution_time_n d'
        = (if time_n_needed config then
             registered (nPoint * nVar) iPoint
                        (CDirectVariable.Solution_time_n d)
           else CDirectVariable.Solution_time_n d) /\
        CDirectVariable.Solution_time_n1 d'
        = (if time_n1_needed config then
             registered (nPoint * nVar * (1 + levels_n)) iPoint
                        (CDirectVariable.Solution_time_n1 d)
           else CDirectVariable.Solution_time_n1 d).
Proof.
  intros nPoint nVar registered levels_n levels_n1 Hlen Hn.
  unfold RegisterSolution. fold nPoint.
  change (CVariable_RegisterSolution true)
    with (register_as_input CDirectVariable.Solution
                            CDirectVariable.set_Solution).
  pose proof (register_stage true CDirectVariable.Solution
                CDirectVariable.set_Solution nVar nPoint direct_solver tp
                Hlen) as H1.
  simpl in H1. rewrite H1 by (eapply Forall_impl; [exact Hn|]; by intros d (H & _)).
  clear H1. simpl.
  set (d1 := CSolver.set_node _ direct_solver).
  set (tp1 := AD.Tape _ _ _).
  assert (Hlen1 : nPoint <= length (CSolver.node d1))
    by (subst d1; simpl; rewrite length_imap; lia).
  assert (Hn1 : Forall (fun d => length (CDirectVariable.Solution_time_n d)
                                 = nVar) (CSolver.node d1)).
  { subst d1. simpl. apply Forall_lookup. intros i d.
    rewrite list_lookup_imap. intros Hd.
    destruct (_ !! i) as [d0|] eqn:Hd0; [|done]. injection Hd as <-.
    pose proof (Forall_lookup_1 _ _ _ _ Hn Hd0) as (_ & H & _).
    by destruct (bool_decide _). }
  unfold RegisterSolution_time_n, RegisterSolution_time_n1.
  change (fun tp d => register_as_input ?g ?s tp d)
    with (register_as_input g s).
  rewrite (register_stage (time_n_needed config)
             CDirectVariable.Solution_time_n
             CDirectVariable.set_Solution_time_n nVar nPoint d1 tp1 Hlen1 Hn1).
  simpl.
  set (d2 := CSolver.set_node _ d1).
  set (tp2 := AD.Tape _ _ _).
  assert (Hlen2 : nPoint <= length (CSolver.node d2))
    by (subst d2 d1; simpl; rewrite !length_imap; lia).
  assert (Hn2 : Forall (fun d => length (CDirectVariable.Solution_time_n1 d)
                                 = nVar) (CSolver.node d2)).
  { subst d2 d1. simpl. apply Forall_lookup. intros i d.
    rewrite !list_lookup_imap. intros Hd.
    destruct (_ !! i) as [d0|] eqn:Hd0; [|done]. injection Hd as <-.
    pose proof (Forall_lookup_1 _ _ _ _ Hn Hd0) as (_ & _ & H).
    by destruct (bool_decide _), (_ && _). }
  rewrite (register_stage (time_n1_needed config)
             CDirectVariable.Solution_time_n1
             CDirectVariable.set_Solution_time_n1 nVar nPoint d2 tp2 Hlen2
             Hn2).
  eexists _, _. split; [reflexivity|]. simpl.
  split; [subst levels_n levels_n1;
          destruct (time_n_needed config), (time_n1_needed config); lia|].
  split; [reflexivity|]. split; [reflexivity|].
  intros i d Hi Hd. rewrite !list_lookup_imap, Hd. simpl.
  rewrite (bool_decide_eq_true_2 (i < nPoint)) by done.
  rewrite !andb_true_r.
  eexists. split; [reflexivity|]. subst registered levels_n. simpl.
  destruct (time_n_needed config), (time_n1_needed config); simpl;
    repeat split; apply imap_ext; intros; simpl; f_equal; lia.
Qed.

(** With second-order dual time stepping the three arrays of the two
    points of [direct0] take six handles; the solution of point 1 gets the
    handle 2. *)
Lemma RegisterSolution_gives_fresh_handles_witness :
  exists direct_solver' tp' d',
    RegisterSolution Example.geometry0 Example.config_dt2 Example.direct0
      Example.tape0 = Returns (direct_solver', tp') /\
    AD.inputs tp' = 6 /\
    CSolver.node direct_solver' !! 1 = Some d' /\
    CDirectVariable.Solution d' = [AD.Var Example.two 2].
Proof.
  destruct (RegisterSolution_gives_fresh_handles Example.geometry0
              Example.config_dt2 Example.direct0 Example.tape0)
    as (d & t & Hrun & Hin & _ & _ & Hnodes).
  - vm_compute. lia.
  - repeat constructor.
  - destruct (Hnodes 1 _ ltac:(vm_compute; lia) eq_refl)
      as (d' & Hd' & HS & _).
    exists d, t, d'. split; [exact Hrun|]. split; [exact Hin|].
    split; [exact Hd'|]. rewrite HS. reflexivity.
Defined.

(** ** Registration of the outputs *)

Lemma RegisterOutputs_spec (tp : AD.tape) (xs : list AD.var) :
  foldl AD.RegisterOutput tp xs
  = AD.Tape (AD.adjoint tp) (AD.inputs tp)
            (AD.outputs tp ++ (AD.index <$> xs)).
Proof.
  revert tp. induction xs as [|x xs IH]; intros tp; simpl.
  - destruct tp. simpl. by rewrite app_nil_r.
  - rewrite IH. simpl. by rewrite <- app_assoc.
Qed.

(** X11. [RegisterOutput] returns when the primal solver holds the points of
    the mesh.  It appends to the outputs of the tape the handles of the
    solution variables, point after point and variable after variable, and
    changes neither the primal solver nor the inputs and the derivatives of
    the tape. *)
Theorem RegisterOutput_appends_the_solution_handles
    (geometry : CGeometry.t) (config : CConfig.t) (direct_solver : CSolver.t)
    (tp : AD.tape) :
  CGeometry.nPoint geometry <= length (CSolver.node direct_solver) ->
  RegisterOutput geometry config direct_solver tp
  = Returns
      (direct_solver,
       AD.Tape (AD.adjoint tp) (AD.inputs tp)
         (AD.outputs tp
          ++ concat ((fun d => AD.index <$> CDirectVariable.Solution d)
                       <$> take (CGeometry.nPoint geometry)
                                (CSolver.node direct_solver)))).
Proof.
  intros Hlen. unfold RegisterOutput, register_points.
  destruct (for_loop_total
    (fun i (st : CSolver.t * AD.tape) =>
       st = (direct_solver,
             AD.Tape (AD.adjoint tp) (AD.inputs tp)
               (AD.outputs tp
                ++ concat ((fun d => AD.index <$> CDirectVariable.Solution d)
                             <$> take i (CSolver.node direct_solver)))))
    (CGeometry.nPoint geometry) 0
    (fun iPoint '(direct_solver, tp) =>
       d ← load (CSolver.node direct_solver) iPoint;
       let '(tp, d) := CVariable_RegisterSolution false tp d in
       node ← store (CSolver.node direct_solver) iPoint d;
       Returns (CSolver.set_node node direct_solver, tp))
    (direct_solver, tp)) as (st' & Hrun & ->); [| |exact Hrun].
  - destruct tp. simpl. by rewrite app_nil_r.
  - intros i st [_ Hi] ->. simpl in Hi.
    destruct (load_lt (CSolver.node direct_solver) i) as (d & -> & Hd);
      [lia|].
    simpl. rewrite store_lt by lia. simpl. eexists. split; [reflexivity|].
    rewrite list_insert_id by done. f_equal; [by destruct direct_solver|].
    rewrite RegisterOutputs_spec. simpl.
    rewrite (take_S_r _ _ _ Hd), fmap_app, concat_app. simpl.
    by rewrite app_nil_r, app_assoc.
Qed.

(** ** Seeding of the outputs *)

Lemma seed_frame (xs : list AD.var) (adj : list su2double) (tp : AD.tape)
    (i : nat) :
  (forall x, x ∈ xs -> AD.index x <> i) ->
  AD.adjoint
    (foldl (fun tp xa => AD.SetDerivative tp xa.1 xa.2) tp (zip xs adj)) i
  = AD.adjoint tp i.
Proof.
  revert adj tp. induction xs as [|x xs IH]; intros [|a adj] tp Hfree;
    try reflexivity.
  simpl. rewrite IH by (intros y Hy; apply Hfree; by right). simpl.
  destruct (decide (i = AD.index x)) as [->|_]; [|done].
  exfalso. by apply (Hfree x); [left|].
Qed.

Lemma seed_read (xs : list AD.var) (adj : list su2double) (tp : AD.tape) :
  NoDup (AD.index <$> xs) ->
  length adj = length xs ->
  AD.GetDerivative
    (foldl (fun tp xa => AD.SetDerivative tp xa.1 xa.2) tp (zip xs adj))
    <$> xs = adj.
Proof.
  revert adj tp. induction xs as [|x xs IH]; intros [|a adj] tp Hnd Hlen;
    try done.
  simpl in *. apply NoDup_cons in Hnd as [Hx Hnd]. f_equal.
  - unfold AD.GetDerivative. rewrite seed_frame.
    + simpl. by destruct (decide (AD.index x = AD.index x)).
    + intros y Hy Heq. apply Hx. rewrite <- Heq.
      by apply list_elem_of_fmap_2.
  - apply IH; [done | lia].
Qed.

Lemma seed_members (xs : list AD.var) (adj : list su2double) (tp : AD.tape) :
  AD.inputs
    (foldl (fun tp xa => AD.SetDerivative tp xa.1 xa.2) tp (zip xs adj))
  = AD.inputs tp /\
  AD.outputs
    (foldl (fun tp xa => AD.SetDerivative tp xa.1 xa.2) tp (zip xs adj))
  = AD.outputs tp.
Proof.
  revert adj tp. induction xs as [|x xs IH]; intros [|a adj] tp; try done.
  simpl. by destruct (IH adj (AD.SetDerivative tp x a)) as [-> ->].
Qed.

(** [for (iVar = 0; iVar < nVar; iVar++) Solution[iVar] = src[iVar]] *)
Lemma copy_loop_spec (n : nat) (src Solution : list su2double) :
  length src = n -> length Solution = n ->
  for_loop n 0
    (fun iVar Solution => x ← load src iVar; store Solution iVar x) Solution
  = Returns src.
Proof.
  intros Hsrc HSol.
  destruct (for_loop_total
    (fun i (S1 : list su2double) =>
       length S1 = n /\ forall k, k < i -> S1 !! k = src !! k)
    n 0 (fun iVar Solution => x ← load src iVar; store Solution iVar x)
    Solution) as (S' & Hrun & Hlen & Hall).
  - split; [done | intros; lia].
  - intros i S1 [_ Hi] [Hlen IH]. simpl in Hi.
    destruct (load_lt src i) as (x & -> & Hx); [lia|]. simpl.
    rewrite store_lt by lia. eexists. split; [reflexivity|].
    split; [by rewrite length_insert|]. intros k Hk.
    destruct (decide (k = i)) as [->|Hne].
    + by rewrite list_lookup_insert_eq by lia.
    + rewrite list_lookup_insert_ne by done. apply IH. lia.
  - rewrite Hrun. f_equal. apply list_eq. intros k.
    destruct (decide (k < n)) as [Hk|Hk]; [apply Hall; simpl; lia|].
    by rewrite !lookup_ge_None_2 by lia.
Qed.

(** [for (iVar = 0; iVar < nVar; iVar++) Solution[iVar] += derivative[iVar]] *)
Lemma add_loop_spec (n : nat) (derivative Solution : list su2double) :
  length derivative = n -> length Solution = n ->
  for_loop n 0
    (fun iVar Solution =>
       s ← load Solution iVar;
       x ← load derivative iVar;
       store Solution iVar (s + x)%D) Solution
  = Returns (zip_with Double.add Solution derivative).
Proof.
  intros Hder HSol.
  destruct (for_loop_total
    (fun i (S1 : list su2double) =>
       length S1 = n /\
       (forall k, k < i ->
          S1 !! k = zip_with Double.add Solution derivative !! k) /\
       (forall k, i <= k -> S1 !! k = Solution !! k))
    n 0
    (fun iVar Solution =>
       s ← load Solution iVar;
       x ← load derivative iVar;
       store Solution iVar (s + x)%D)
    Solution) as (S' & Hrun & Hlen & Hall & _).
  - split; [done|]. split; [intros; lia | done].
  - intros i S1 [_ Hi] (Hlen & IH & Hrest). simpl in Hi.
    destruct (load_lt S1 i) as (s & -> & Hs); [lia|]. simpl.
    destruct (load_lt derivative i) as (x & -> & Hx); [lia|]. simpl.
    rewrite store_lt by lia. eexists. split; [reflexivity|].
    split; [by rewrite length_insert|]. split.
    + intros k Hk. destruct (decide (k = i)) as [->|Hne].
      * rewrite list_lookup_insert_eq by lia.
        rewrite Hrest in Hs by done.
        rewrite lookup_zip_with, Hs, Hx. reflexivity.
      * rewrite list_lookup_insert_ne by done. apply IH. lia.
    + intros k Hk. rewrite list_lookup_insert_ne by lia. apply Hrest. lia.
  - rewrite Hrun. f_equal. apply list_eq. intros k.
    destruct (decide (k < n)) as [Hk|Hk]; [apply Hall; simpl; lia|].
    rewrite !lookup_ge_None_2; [done | rewrite length_zip_with; lia | lia].
Qed.

(** X12. Seeding and extraction form a round trip.  [SetAdjoint_Output]
    returns on arrays of [nVar] entries, and when no two solution variables
    of the mesh points share a handle, the derivatives the tape holds right
    afterwards for the solution of a point, as [ExtractAdjoint_Solution]
    would read them, are the values seeded for that point: its adjoint
    solution, plus its dual-time derivative for the two dual time-stepping
    schemes.  The inputs and the outputs of the tape and the points of the
    adjoint solver are left alone. *)
Theorem SetAdjoint_Output_seeds_are_read_back
    (Dual_Time_Derivative : list (list su2double))
    (direct_solver : CSolver.t) (config : CConfig.t)
    (solver : CDiscAdjSolver.t) (tp : AD.tape) :
  let nPoint := CDiscAdjSolver.nPoint solver in
  let nVar := CDiscAdjSolver.nVar solver in
  let dual_time :=
    bool_decide (CConfig.Unsteady_Simulation config = DT_STEPPING_1ST)
    || bool_decide (CConfig.Unsteady_Simulation config = DT_STEPPING_2ND) in
  nPoint <= length (CDiscAdjSolver.node solver) ->
  nPoint <= length (CSolver.node direct_solver) ->
  length (CDiscAdjSolver.Solution solver) = nVar ->
  Forall (fun v => length (CVariable.Solution v) = nVar)
         (CDiscAdjSolver.node solver) ->
  Forall (fun d => length (CDirectVariable.Solution d) = nVar)
         (CSolver.node direct_solver) ->
  (dual_time = true ->
   nPoint <= length Dual_Time_Derivative /\
   Forall (fun derivative => length derivative = nVar) Dual_Time_Derivative) ->
  (forall i j d e k l x y,
     i < nPoint -> j < nPoint ->
     CSolver.node direct_solver !! i = Some d ->
     CSolver.node direct_solver !! j = Some e ->
     CDirectVariable.Solution d !! k = Some x ->
     CDirectVariable.Solution e !! l = Some y ->
     AD.index x = AD.index y -> i = j /\ k = l) ->
  exists solver' tp',
    SetAdjoint_Output Dual_Time_Derivative direct_solver config solver tp
    = Returns (solver', tp') /\
    CDiscAdjSolver.node solver' = CDiscAdjSolver.node solver /\
    AD.inputs tp' = AD.inputs tp /\
    AD.outputs tp' = AD.outputs tp /\
    forall iPoint v d,
      iPoint < nPoint ->
      CDiscAdjSolver.node solver !! iPoint = Some v ->
      CSolver.node direct_solver !! iPoint = Some d ->
      GetAdjointSolution tp' d
      = if dual_time then
          zip_with Double.add (CVariable.Solution v)
                   (default [] (Dual_Time_Derivative !! iPoint))
        else CVariable.Solution v.
Proof.
  intros nPoint nVar dual_time Hnode Hdirect HSol HnV HnD Hdual Hinj.
  set (seeded := fun (iPoint : nat) (v : CVariable.t) =>
         if dual_time then
           zip_with Double.add (CVariable.Solution v)
                    (default [] (Dual_Time_Derivative !! iPoint))
         else CVariable.Solution v).
  unfold SetAdjoint_Output. fold dual_time nVar nPoint.
  destruct (for_loop_total
    (fun i (st : CDiscAdjSolver.t * AD.tape) =>
       CDiscAdjSolver.node st.1 = CDiscAdjSolver.node solver /\
       length (CDiscAdjSolver.Solution st.1) = nVar /\
       AD.inputs st.2 = AD.inputs tp /\
       AD.outputs st.2 = AD.outputs tp /\
       forall j v d, j < i ->
         CDiscAdjSolver.node solver !! j = Some v ->
         CSolver.node direct_solver !! j = Some d ->
         GetAdjointSolution st.2 d = seeded j v)
    nPoint 0
    (fun iPoint '(solver, tp) =>
       v ← load (CDiscAdjSolver.node solver) iPoint;
       Solution ← for_loop nVar 0
                    (fun iVar Solution =>
                       x ← load (CVariable.Solution v) iVar;
                       store Solution iVar x)
                    (CDiscAdjSolver.Solution solver);
       Solution ←
         (if dual_time then
            derivative ← load Dual_Time_Derivative iPoint;
            for_loop nVar 0
              (fun iVar Solution =>
                 s ← load Solution iVar;
                 x ← load derivative iVar;
                 store Solution iVar (s + x)%D)
              Solution
          else Returns Solution);
       d ← load (CSolver.node direct_solver) iPoint;
       Returns (CDiscAdjSolver.set_Solution Solution solver,
                SetAdjointSolution tp Solution d))
    (solver, tp)) as ([s' t'] & Hrun & Hs' & _ & Hin & Hout & Hread).
  - simpl. repeat split; auto. intros; lia.
  - intros i [s1 t1] [_ Hi] (Hs1 & HSol1 & Hin1 & Hout1 & IH).
    cbn [fst snd] in *.
    destruct (lookup_lt_is_Some_2 (CDiscAdjSolver.node solver) i) as [v Hv];
      [lia|].
    destruct (lookup_lt_is_Some_2 (CSolver.node direct_solver) i) as [d Hd];
      [lia|].
    pose proof (Forall_lookup_1 _ _ _ _ HnV Hv) as Hlenv.
    pose proof (Forall_lookup_1 _ _ _ _ HnD Hd) as Hlend.
    simpl in Hlenv, Hlend.
    assert (Hv1 : load (CDiscAdjSolver.node s1) i = Returns v)
      by (apply load_Returns; by rewrite Hs1).
    rewrite Hv1. simpl.
    rewrite (copy_loop_spec nVar) by done. simpl.
    assert (Hbuf : exists S2,
      (if dual_time then
         derivative ← load Dual_Time_Derivative i;
         for_loop nVar 0
           (fun iVar Solution =>
              s ← load Solution iVar;
              x ← load derivative iVar;
              store Solution iVar (s + x)%D)
           (CVariable.Solution v)
       else Returns (CVariable.Solution v)) = Returns S2 /\
      S2 = seeded i v /\ length S2 = nVar).
    { subst seeded. simpl. destruct dual_time.
      - destruct (Hdual eq_refl) as [HlenD HnDer].
        destruct (lookup_lt_is_Some_2 Dual_Time_Derivative i) as [dv Hdv];
          [lia|].
        pose proof (Forall_lookup_1 _ _ _ _ HnDer Hdv) as Hlendv.
        apply load_Returns in Hdv as Hdv1. rewrite Hdv1. simpl.
        rewrite (add_loop_spec nVar) by done.
        simpl in Hlendv.
        eexists. split; [reflexivity|]. split; [by rewrite Hdv|].
        rewrite length_zip_with. lia.
      - eexists. split; [reflexivity|]. split; [reflexivity|]. done. }
    destruct Hbuf as (S2 & -> & HS2 & HlenS2). simpl.
    apply load_Returns in Hd as Hd1. rewrite Hd1. simpl.
    eexists. split; [reflexivity|].
    cbn [fst snd]. unfold SetAdjointSolution.
    destruct (seed_members (CDirectVariable.Solution d) S2 t1) as [-> ->].
    split; [done|]. split; [done|]. split; [done|]. split; [done|].
    intros j w e Hj Hw He. unfold GetAdjointSolution.
    destruct (decide (j = i)) as [->|Hne].
    + rewrite Hv in Hw. injection Hw as <-.
      rewrite Hd in He. injection He as <-.
      rewrite seed_read; [done| |lia].
      apply NoDup_alt. intros k l h Hk Hl.
      apply list_lookup_fmap_Some in Hk as (x & -> & Hx).
      apply list_lookup_fmap_Some in Hl as (y & Hxy & Hy).
      by destruct (Hinj i i d d k l x y Hi Hi Hd Hd Hx Hy Hxy).
    + rewrite <- (IH j w e ltac:(lia) Hw He). unfold GetAdjointSolution.
      apply list_fmap_ext. intros k y Hy. unfold AD.GetDerivative.
      apply seed_frame. intros x Hx Heq.
      apply list_elem_of_lookup in Hx as [l Hx].
      destruct (Hinj i j d e l k x y Hi ltac:(lia) Hd He Hx Hy Heq). lia.
  - exists s', t'. split; [exact Hrun|]. cbn [fst snd] in *.
    split; [done|]. split; [done|]. split; [done|].
    intros i v d Hi Hv Hd. apply (Hread i v d); [simpl; lia | done..].
Qed.

(** The solutions of the two points of [direct0] have the handles 1 and
    4. *)
Lemma RegisterOutput_appends_the_solution_handles_witness :
  RegisterOutput Example.geometry0 Example.config0 Example.direct0
    Example.tape0
  = Returns (Example.direct0,
             AD.Tape (AD.adjoint Example.tape0) 0 [1; 4]).
Proof.
  exact (RegisterOutput_appends_the_solution_handles Example.geometry0
           Example.config0 Example.direct0 Example.tape0
           ltac:(vm_compute; lia)).
Defined.

(** With dual time stepping, point 1 of [solver0] is seeded with its
    adjoint solution 0 plus its dual-time derivative 2. *)
Lemma SetAdjoint_Output_seeds_are_read_back_witness :
  exists solver' tp' d,
    SetAdjoint_Output Example.dual_time_derivatives Example.direct0
      Example.config_dt2 Example.solver0 Example.tape0
    = Returns (solver', tp') /\
    CSolver.node Example.direct0 !! 1 = Some d /\
    GetAdjointSolution tp' d = [Example.two].
Proof.
  destruct (SetAdjoint_Output_seeds_are_read_back
              Example.dual_time_derivatives Example.direct0
              Example.config_dt2 Example.solver0 Example.tape0)
    as (s & t & Hrun & _ & _ & _ & Hread).
  - vm_compute. lia.
  - vm_compute. lia.
  - reflexivity.
  - repeat constructor.
  - repeat constructor.
  - intros _. split; [vm_compute; lia | repeat constructor].
  - intros i j d e k l x y Hi Hj Hd He Hx Hy Hxy.
    destruct i as [|[|i]], j as [|[|j]]; simpl in *; try lia;
      injection Hd as <-; injection He as <-;
      destruct k as [|k], l as [|l]; simpl in *; try discriminate;
      injection Hx as <-; injection Hy as <-; simpl in *;
      (done || discriminate).
  - eexists s, t, _. split; [exact Hrun|]. split; [reflexivity|].
    rewrite (Hread 1 Example.node0 _ ltac:(vm_compute; lia) eq_refl eq_refl).
    reflexivity.
Defined.

(** * Further properties of the surface sensitivity *)

(** One marker: its entry of [Sens_Geo] is zeroed, then accumulates the
    squares when the marker is selected. *)
Lemma surface_marker_Sens_Geo geometry config iMarker solver total solver'
    total' :
  surface_marker geometry config iMarker (solver, total)
    = Returns (solver', total') ->
  (forall m, m <> iMarker ->
     CDiscAdjSolver.Sens_Geo solver' !! m
     = CDiscAdjSolver.Sens_Geo solver !! m) /\
  CDiscAdjSolver.Sens_Geo solver' !! iMarker
  = Some (if selected config iMarker then
            sum_of_squares geometry solver (vertices_of geometry iMarker)
          else Double.zero).
Proof.
  intros Hrun. unfold surface_marker in Hrun.
  apply bind_Returns in Hrun as (SG1 & HSG1 & Hrun).
  apply store_Returns in HSG1 as [HlenSG ->].
  apply bind_Returns in Hrun as (kind & Hkind & Hrun).
  apply load_Returns in Hkind.
  unfold selected. rewrite Hkind. simpl.
  destruct (is_wall_of_interest kind).
  - apply bind_Returns in Hrun as (vertices & Hvs & Hrun).
    apply load_Returns in Hvs.
    apply bind_Returns in Hrun as (s2 & Hloop & Hrun).
    apply bind_Returns in Hrun as (g & Hg & Hrun).
    injection Hrun as <- <-.
    eapply surface_vertices_spec in Hloop; [|exact Hvs|];
      [|simpl; by apply list_lookup_insert_eq].
    destruct Hloop as (_ & _ & _ & _ & _ & Hother & HSG).
    simpl in *. split.
    + intros m Hm. rewrite Hother by done.
      by apply list_lookup_insert_ne.
    + rewrite HSG. unfold vertices_of. rewrite Hvs. simpl.
      by rewrite sum_of_squares_Sens.
  - injection Hrun as <- <-. simpl. split.
    + intros m Hm. by apply list_lookup_insert_ne.
    + by apply list_lookup_insert_eq.
Qed.

Lemma SetSurface_Sensitivity_Sens_Geo b Allreduce geometry config solver
    solver' :
  SetSurface_Sensitivity b Allreduce geometry config solver = Returns solver' ->
  forall m, m < CDiscAdjSolver.nMarker solver ->
    CDiscAdjSolver.Sens_Geo solver' !! m
    = Some (if selected config m then
              sum_of_squares geometry solver (vertices_of geometry m)
            else Double.zero).
Proof.
  intros Hrun. unfold SetSurface_Sensitivity in Hrun.
  apply bind_Returns in Hrun as ([s1 t] & Hlocal & Hrun).
  injection Hrun as <-. simpl.
  unfold SetSurface_Sensitivity_local in Hlocal.
  apply (for_loop_inv
    (fun iMarker (st : CDiscAdjSolver.t * su2double) =>
       CDiscAdjSolver.node st.1 = CDiscAdjSolver.node solver /\
       CDiscAdjSolver.nDim st.1 = CDiscAdjSolver.nDim solver /\
       forall m, m < iMarker ->
         CDiscAdjSolver.Sens_Geo st.1 !! m
         = Some (if selected config m then
                   sum_of_squares geometry solver (vertices_of geometry m)
                 else Double.zero)))
    in Hlocal.
  - simpl in Hlocal. tauto.
  - simpl. repeat split; auto. intros; lia.
  - intros i [s2 t2] [s3 t3] _ (Hnode & Hdim & IH) Hbody.
    cbn [fst snd] in *.
    pose proof (surface_marker_spec _ _ _ _ _ _ _ Hbody)
      as (Hnode3 & Hdim3 & _).
    apply surface_marker_Sens_Geo in Hbody as [Hother Hnew].
    split; [congruence|]. split; [congruence|].
    intros m Hm. destruct (decide (m = i)) as [->|Hne].
    + rewrite Hnew. by rewrite (sum_of_squares_frame _ _ _ _ Hnode Hdim).
    + rewrite Hother by done. apply IH. lia.
Qed.

Lemma SetSurface_Sensitivity_shape b Allreduce geometry config solver :
  wf_surface geometry config solver ->
  exists solver',
    SetSurface_Sensitivity b Allreduce geometry config solver
    = Returns solver' /\
    same_shape solver solver'.
Proof.
  intros Hwf. unfold SetSurface_Sensitivity, SetSurface_Sensitivity_local.
  set (s0 := CDiscAdjSolver.set_Total_Sens_Geo Double.zero solver).
  assert (Hs0 : same_shape solver s0) by (repeat split; simpl; eauto).
  destruct (for_loop_total
              (fun _ (st : CDiscAdjSolver.t * su2double) =>
                 same_shape solver st.1)
              (CDiscAdjSolver.nMarker s0) 0
              (surface_marker geometry config) (s0, Double.zero) Hs0)
    as ([s' t] & Hrun & Hshape).
  - intros m [s1 t1] [_ Hm] Hshape. cbn [fst] in *. simpl in Hm.
    destruct (surface_marker_total geometry config m s1 t1)
      as (s2 & t2 & Hrun & Hshape2).
    + by apply (wf_surface_shape _ _ solver).
    + destruct Hshape as (_ & _ & -> & _). exact Hm.
    + exists (s2, t2). split; [exact Hrun|].
      cbn [fst]. by eapply same_shape_trans.
  - rewrite Hrun. simpl. eexists. split; [reflexivity|].
    cbn [fst] in Hshape. destruct Hshape as (? & ? & ? & ? & ?).
    repeat split; auto.
Qed.

(** X13. [SetSurface_Sensitivity] returns on well-formed inputs and leaves,
    in the entry of [Sens_Geo] of every marker, the sum of the squares of
    the sensitivities of the vertices of the marker at points the partition
    owns when the marker is an Euler, heat-flux or isothermal wall, and zero
    for every other marker, whatever the entry held before. *)
Theorem SetSurface_Sensitivity_sets_Sens_Geo
    (b : build) (Allreduce : su2double -> su2double)
    (geometry : CGeometry.t) (config : CConfig.t) (solver : CDiscAdjSolver.t) :
  wf_surface geometry config solver ->
  exists solver',
    SetSurface_Sensitivity b Allreduce geometry config solver
    = Returns solver' /\
    forall iMarker, iMarker < CDiscAdjSolver.nMarker solver ->
      CDiscAdjSolver.Sens_Geo solver' !! iMarker
      = Some (if selected config iMarker then
                sum_of_squares geometry solver (vertices_of geometry iMarker)
              else Double.zero).
Proof.
  intros Hwf.
  destruct (SetSurface_Sensitivity_shape b Allreduce _ _ _ Hwf)
    as (solver' & Hrun & _).
  exists solver'. split; [exact Hrun|].
  by apply (SetSurface_Sensitivity_Sens_Geo b Allreduce).
Qed.

Lemma local_Total_Sens_Geo_frame geometry config solver solver' :
  CDiscAdjSolver.node solver' = CDiscAdjSolver.node solver ->
  CDiscAdjSolver.nDim solver' = CDiscAdjSolver.nDim solver ->
  CDiscAdjSolver.nMarker solver' = CDiscAdjSolver.nMarker solver ->
  local_Total_Sens_Geo geometry config solver'
  = local_Total_Sens_Geo geometry config solver.
Proof.
  intros Hn Hd Hm. unfold local_Total_Sens_Geo. rewrite Hm. f_equal.
  apply list_fmap_ext. intros _ m _.
  by rewrite (sum_of_squares_frame _ _ _ _ Hn Hd).
Qed.

Lemma SetSurface_Sensitivity_rows b Allreduce geometry config solver
    solver' :
  SetSurface_Sensitivity b Allreduce geometry config solver = Returns solver' ->
  forall m i vertex,
    m < CDiscAdjSolver.nMarker solver -> selected config m = true ->
    vertices_of geometry m !! i = Some vertex ->
    exists row,
      CDiscAdjSolver.CSensitivity solver' !! m = Some row /\
      row !! i = Some (vertex_CSensitivity geometry solver vertex).
Proof.
  intros Hrun. unfold SetSurface_Sensitivity in Hrun.
  apply bind_Returns in Hrun as ([s1 t] & Hlocal & Hrun).
  injection Hrun as <-.
  apply SetSurface_Sensitivity_local_spec in Hlocal
    as (_ & _ & _ & Hrows & _).
  exact Hrows.
Qed.

(** X14. The surface sensitivities do not accumulate from one call to the
    next.  On well-formed inputs, running [SetSurface_Sensitivity] again on
    its own result returns, and gives the same total, the same entries of
    [Sens_Geo] and the same sensitivity at every vertex of every selected
    marker as the first run. *)
Theorem SetSurface_Sensitivity_does_not_accumulate
    (b : build) (Allreduce : su2double -> su2double)
    (geometry : CGeometry.t) (config : CConfig.t) (solver : CDiscAdjSolver.t) :
  wf_surface geometry config solver ->
  exists solver1 solver2,
    SetSurface_Sensitivity b Allreduce geometry config solver
    = Returns solver1 /\
    SetSurface_Sensitivity b Allreduce geometry config solver1
    = Returns solver2 /\
    CDiscAdjSolver.Total_Sens_Geo solver2
    = CDiscAdjSolver.Total_Sens_Geo solver1 /\
    (forall iMarker, iMarker < CDiscAdjSolver.nMarker solver ->
       CDiscAdjSolver.Sens_Geo solver2 !! iMarker
       = CDiscAdjSolver.Sens_Geo solver1 !! iMarker) /\
    (forall iMarker iVertex vertex,
       iMarker < CDiscAdjSolver.nMarker solver ->
       selected config iMarker = true ->
       vertices_of geometry iMarker !! iVertex = Some vertex ->
       exists row1 row2 c,
         CDiscAdjSolver.CSensitivity solver1 !! iMarker = Some row1 /\
         CDiscAdjSolver.CSensitivity solver2 !! iMarker = Some row2 /\
         row1 !! iVertex = Some c /\ row2 !! iVertex = Some c).
Proof.
  intros Hwf.
  destruct (SetSurface_Sensitivity_shape b Allreduce _ _ _ Hwf)
    as (s1 & Hrun1 & Hshape1).
  pose proof (wf_surface_shape _ _ _ _ Hshape1 Hwf) as Hwf1.
  destruct (SetSurface_Sensitivity_shape b Allreduce _ _ _ Hwf1)
    as (s2 & Hrun2 & _).
  destruct Hshape1 as (Hnode & Hdim & Hmark & _).
  exists s1, s2. split; [exact Hrun1|]. split; [exact Hrun2|]. split; [|split].
  - rewrite (SetSurface_Sensitivity_Total _ _ _ _ _ _ Hrun1),
            (SetSurface_Sensitivity_Total _ _ _ _ _ _ Hrun2).
    by rewrite (local_Total_Sens_Geo_frame _ _ _ _ Hnode Hdim Hmark).
  - intros m Hm.
    rewrite (SetSurface_Sensitivity_Sens_Geo _ _ _ _ _ _ Hrun1 m Hm).
    rewrite (SetSurface_Sensitivity_Sens_Geo _ _ _ _ _ _ Hrun2 m)
      by (by rewrite Hmark).
    by rewrite (sum_of_squares_frame _ _ _ _ Hnode Hdim).
  - intros m i vertex Hm Hsel Hvertex.
    destruct (SetSurface_Sensitivity_rows _ _ _ _ _ _ Hrun1 m i vertex
                Hm Hsel Hvertex) as (row1 & Hrow1 & Hc1).
    destruct (SetSurface_Sensitivity_rows _ _ _ _ _ _ Hrun2 m i vertex
                ltac:(by rewrite Hmark) Hsel Hvertex)
      as (row2 & Hrow2 & Hc2).
    rewrite (vertex_CSensitivity_frame _ _ _ _ Hnode Hdim) in Hc2.
    eauto 10.
Qed.

(** * Further properties of the extraction *)



(** The second marker of [config0] is not a wall: its entry is zero. *)
Lemma SetSurface_Sensitivity_sets_Sens_Geo_witness :
  SetSurface_Sensitivity Serial id Example.geometry0 Example.config0
    Example.solver0 = Returns Example.surfaced /\
  CDiscAdjSolver.Sens_Geo Example.surfaced !! 0 = Some Double.one /\
  CDiscAdjSolver.Sens_Geo Example.surfaced !! 1 = Some Double.zero.
Proof.
  destruct (SetSurface_Sensitivity_sets_Sens_Geo Serial id Example.geometry0
              Example.config0 Example.solver0 wf_surface_example)
    as (solver' & Hrun & HSG).
  assert (solver' = Example.surfaced) as ->
    by (vm_compute in Hrun; injection Hrun as <-; reflexivity).
  split; [exact Hrun|]. split.
  - rewrite (HSG 0) by (vm_compute; lia). vm_compute. reflexivity.
  - rewrite (HSG 1) by (vm_compute; lia). reflexivity.
Defined.

(** A second run on [surfaced] gives the total of the first again. *)
Lemma SetSurface_Sensitivity_does_not_accumulate_witness :
  exists solver2,
    SetSurface_Sensitivity Serial id Example.geometry0 Example.config0
      Example.solver0 = Returns Example.surfaced /\
    SetSurface_Sensitivity Serial id Example.geometry0 Example.config0
      Example.surfaced = Returns solver2 /\
    CDiscAdjSolver.Total_Sens_Geo solver2
    = CDiscAdjSolver.Total_Sens_Geo Example.surfaced.
Proof.
  destruct (SetSurface_Sensitivity_does_not_accumulate Serial id
              Example.geometry0 Example.config0 Example.solver0
              wf_surface_example)
    as (s1 & s2 & Hrun1 & Hrun2 & Htotal & _).
  assert (s1 = Example.surfaced) as ->
    by (vm_compute in Hrun1; injection Hrun1 as <-; reflexivity).
  exists s2. auto.
Defined.


(** * Further properties of the sensitivities of the points *)

Lemma coordinates_reset_trans (n : nat) (p p1 p2 : CPoint.t) :
  coordinates_reset 0 p p1 -> coordinates_reset n p1 p2 ->
  coordinates_reset n p p2.
Proof.
  intros (H1 & H2 & H3 & H4 & H5) (K1 & K2 & K3 & K4 & K5).
  repeat split; try congruence.
  intros d. rewrite K5. by rewrite !H5.
Qed.

(** The loop over [iDim] at the point [iPoint], on the side of the mesh. *)
Lemma sensitivity_components_geometry config tp iPoint (n : nat)
    geometry solver geometry' solver' :
  for_loop n 0 (sensitivity_component config tp iPoint) (geometry, solver)
    = Returns (geometry', solver') ->
  CGeometry.vertex geometry' = CGeometry.vertex geometry /\
  length (CGeometry.node geometry') = length (CGeometry.node geometry) /\
  (forall j, j <> iPoint ->
     CGeometry.node geometry' !! j = CGeometry.node geometry !! j) /\
  (forall p, CGeometry.node geometry !! iPoint = Some p ->
     exists p', CGeometry.node geometry' !! iPoint = Some p' /\
                coordinates_reset n p p').
Proof.
  intros Hrun.
  apply (for_loop_inv
    (fun d (st : CGeometry.t * CDiscAdjSolver.t) =>
       CGeometry.vertex st.1 = CGeometry.vertex geometry /\
       length (CGeometry.node st.1) = length (CGeometry.node geometry) /\
       (forall j, j <> iPoint ->
          CGeometry.node st.1 !! j = CGeometry.node geometry !! j) /\
       (forall p, CGeometry.node geometry !! iPoint = Some p ->
          exists p', CGeometry.node st.1 !! iPoint = Some p' /\
                     coordinates_reset d p p')))
    in Hrun.
  - exact Hrun.
  - simpl. repeat split; auto. intros p Hp. exists p. by repeat split.
  - intros d [g1 s1] [g2 s2] _ (Hvertex & Hlen & Hother & Hcur) Hbody.
    cbn [fst snd] in *. unfold sensitivity_component in Hbody.
    apply bind_Returns in Hbody as (pcur & Hpcur & Hbody).
    apply load_Returns in Hpcur.
    apply bind_Returns in Hbody as (c & Hc & Hbody). apply load_Returns in Hc.
    apply bind_Returns in Hbody as (Coord' & HCoord & Hbody).
    apply store_Returns in HCoord as [HlenC ->].
    apply bind_Returns in Hbody as (gnode & Hgnode & Hbody).
    apply store_Returns in Hgnode as [HlenG ->].
    apply bind_Returns in Hbody as (v & _ & Hbody).
    apply bind_Returns in Hbody as (sens & _ & Hbody).
    apply bind_Returns in Hbody as (snode & _ & Hbody).
    injection Hbody as <- <-. simpl.
    split; [done|]. split; [by rewrite length_insert|]. split.
    + intros j Hj. rewrite list_lookup_insert_ne by done. auto.
    + intros p Hp. destruct (Hcur p Hp) as (p' & Hp' & H1 & H2 & H3 & H4 & H5).
      rewrite Hpcur in Hp'. injection Hp' as <-.
      eexists. split; [by apply list_lookup_insert_eq|].
      repeat split; simpl; auto.
      intros e. destruct (decide (e = d)) as [->|Hne].
      * rewrite list_lookup_insert_eq by done.
        rewrite H5 in Hc. destruct (decide (d < d)); [lia|].
        rewrite decide_True by lia. by rewrite Hc.
      * rewrite list_lookup_insert_ne by done. rewrite H5.
        destruct (decide (e < d)).
        -- by rewrite decide_True by lia.
        -- by rewrite decide_False by lia.
Qed.

(** The loops over the points and the dimensions, on the side of the
    mesh. *)
Lemma SetSensitivity_points_geometry config tp geometry solver geometry'
    solver' :
  SetSensitivity_points config tp geometry solver
    = Returns (geometry', solver') ->
  forall iPoint p, CGeometry.node geometry !! iPoint = Some p ->
    exists p',
      CGeometry.node geometry' !! iPoint = Some p' /\
      coordinates_reset
        (if decide (iPoint < CDiscAdjSolver.nPoint solver)
         then CDiscAdjSolver.nDim solver else 0) p p'.
Proof.
  unfold SetSensitivity_points. intros Hrun.
  refine (for_loop_inv
    (fun i (st : CGeometry.t * CDiscAdjSolver.t) =>
       forall j p, CGeometry.node geometry !! j = Some p ->
         exists p',
           CGeometry.node st.1 !! j = Some p' /\
           coordinates_reset
             (if decide (j < i) then CDiscAdjSolver.nDim solver else 0)
             p p')
    _ _ _ (geometry, solver) (geometry', solver') _ _ Hrun).
  - simpl. intros j p Hp. exists p. by repeat split.
  - intros i [g1 s1] [g2 s2] _ IH Hbody. cbn [fst snd] in *.
    apply sensitivity_components_geometry in Hbody
      as (_ & _ & Hother & Hnew).
    intros j p Hp. destruct (IH j p Hp) as (p1 & Hp1 & Hreset1).
    destruct (decide (j = i)) as [->|Hne].
    + destruct (Hnew p1 Hp1) as (p2 & Hp2 & Hreset2).
      exists p2. split; [done|].
      destruct (decide (i < i)); [lia|]. rewrite decide_True by lia.
      by apply (coordinates_reset_trans _ p p1).
    + exists p1. rewrite Hother by done. split; [done|].
      destruct (decide (j < i)).
      * by rewrite decide_True by lia.
      * by rewrite decide_False by lia.
Qed.

(** X16. [SetSensitivity] takes the coordinates of the mesh points off the
    tape.  On well-formed inputs it returns, and in the mesh it leaves
    every coordinate of every point of the solver has its value and the
    passive handle; the coordinates past the dimension, the other members
    of the points and the boundary vertices are as they were. *)
Theorem SetSensitivity_resets_the_coordinate_handles
    (b : build) (Allreduce : su2double -> su2double) (tp : AD.tape)
    (geometry : CGeometry.t) (config : CConfig.t) (solver : CDiscAdjSolver.t) :
  wf_points geometry solver ->
  wf_surface geometry config solver ->
  exists geometry' solver',
    SetSensitivity b Allreduce tp geometry config solver
    = Returns (geometry', solver') /\
    CGeometry.vertex geometry' = CGeometry.vertex geometry /\
    forall iPoint p,
      iPoint < CDiscAdjSolver.nPoint solver ->
      CGeometry.node geometry !! iPoint = Some p ->
      exists p',
        CGeometry.node geometry' !! iPoint = Some p' /\
        CPoint.GlobalIndex p' = CPoint.GlobalIndex p /\
        CPoint.SharpEdge_Distance p' = CPoint.SharpEdge_Distance p /\
        CPoint.Flip_Orientation p' = CPoint.Flip_Orientation p /\
        CPoint.Domain p' = CPoint.Domain p /\
        (forall iDim c,
           iDim < CDiscAdjSolver.nDim solver ->
           CPoint.Coord p !! iDim = Some c ->
           CPoint.Coord p' !! iDim = Some (AD.Var (AD.value c) AD.passive)) /\
        (forall iDim,
           CDiscAdjSolver.nDim solver <= iDim ->
           CPoint.Coord p' !! iDim = CPoint.Coord p !! iDim).
Proof.
  intros Hpoints Hsurface.
  destruct (SetSensitivity_total b Allreduce tp _ _ _ Hpoints Hsurface)
    as ([g' s'] & Hrun).
  exists g', s'. split; [exact Hrun|].
  unfold SetSensitivity in Hrun.
  apply bind_Returns in Hrun as ([g1 s1] & Hloops & Hrun).
  apply bind_Returns in Hrun as (s2 & _ & Hrun).
  injection Hrun as <- <-.
  destruct (SetSensitivity_points_total config tp _ _ Hpoints)
    as (st' & Hloops' & Hshape).
  rewrite Hloops in Hloops'. injection Hloops' as <-.
  destruct Hshape as (Hvertex & _). split; [exact Hvertex|].
  intros i p Hi Hp.
  destruct (SetSensitivity_points_geometry _ _ _ _ _ _ Hloops i p Hp)
    as (p' & Hp' & H1 & H2 & H3 & H4 & H5).
  rewrite decide_True in H5 by done.
  exists p'. repeat split; auto.
  - intros d c Hd Hc. rewrite H5, decide_True by done. by rewrite Hc.
  - intros d Hd. rewrite H5, decide_False by lia. done.
Qed.

(** The first coordinate of point 1 of [geometry0] had the value 1 and the
    handle 13. *)
Lemma SetSensitivity_resets_the_coordinate_handles_witness :
  SetSensitivity Serial id Example.tape0 Example.geometry0 Example.config0
    Example.solver0 = Returns Example.sensitized /\
  exists p',
    CGeometry.node Example.sensitized.1 !! 1 = Some p' /\
    CPoint.Coord p' !! 0 = Some (AD.Var Double.one AD.passive).
Proof.
  destruct (SetSensitivity_resets_the_coordinate_handles Serial id
              Example.tape0 Example.geometry0 Example.config0 Example.solver0
              wf_points_example wf_surface_example)
    as (g' & s' & Hrun & _ & Hpoints).
  assert ((g', s') = Example.sensitized) as Heq
    by (vm_compute in Hrun; injection Hrun as <- <-; reflexivity).
  rewrite Heq in Hrun. split; [exact Hrun|].
  destruct (Hpoints 1 _ ltac:(vm_compute; lia) eq_refl)
    as (p' & Hp' & _ & _ & _ & _ & Hcoord & _).
  exists p'. split.
  - rewrite <- Heq. exact Hp'.
  - exact (Hcoord 0 _ ltac:(vm_compute; lia) eq_refl).
Defined.

Lemma wf_points_points_shape geometry solver geometry' solver' :
  points_shape (geometry, solver) (geometry', solver') ->
  wf_points geometry solver -> wf_points geometry' solver'.
Proof.
  intros (_ & Hg & Hs & HnP & HnD & _) (H1 & H2 & HCoord & HSens).
  cbn [fst snd] in *. unfold wf_points. rewrite HnP, HnD.
  rewrite <- (Forall2_length _ _ _ Hg), <- (Forall2_length _ _ _ Hs).
  split; [done|]. split; [done|]. split.
  - apply Forall_lookup. intros i p' Hp'.
    destruct (Forall2_lookup_r _ _ _ _ _ Hg Hp') as (p & Hp & Hlen).
    pose proof (Forall_lookup_1 _ _ _ _ HCoord Hp) as H. simpl in *. lia.
  - apply Forall_lookup. intros i v' Hv'.
    destruct (Forall2_lookup_r _ _ _ _ _ Hs Hv') as (v & Hv & Hlen).
    pose proof (Forall_lookup_1 _ _ _ _ HSens Hv) as H. simpl in *. lia.
Qed.

Lemma surface_vertex_nPoint geometry iMarker iVertex solver solver' :
  surface_vertex geometry iMarker iVertex solver = Returns solver' ->
  CDiscAdjSolver.nPoint solver' = CDiscAdjSolver.nPoint solver.
Proof.
  intros Hrun. unfold surface_vertex in Hrun.
  apply bind_Returns in Hrun as (vs & _ & Hrun).
  apply bind_Returns in Hrun as (vertex & _ & Hrun).
  apply bind_Returns in Hrun as ([P A] & _ & Hrun).
  apply bind_Returns in Hrun as (s1 & H1 & Hrun).
  apply bind_Returns in Hrun as (p & _ & Hrun).
  apply bind_Returns in Hrun as (s2 & H2 & Hrun).
  assert (Hs1 : CDiscAdjSolver.nPoint s1 = CDiscAdjSolver.nPoint solver).
  { unfold store_CSensitivity in H1. inv_outcome. reflexivity. }
  assert (Hs2 : CDiscAdjSolver.nPoint s2 = CDiscAdjSolver.nPoint s1).
  { destruct (CPoint.Flip_Orientation p); [|by injection H2 as <-].
    apply bind_Returns in H2 as (c & _ & H2).
    unfold store_CSensitivity in H2. inv_outcome. reflexivity. }
  destruct (CPoint.Domain p); inv_outcome; simpl; congruence.
Qed.

Lemma SetSurface_Sensitivity_nPoint b Allreduce geometry config solver
    solver' :
  SetSurface_Sensitivity b Allreduce geometry config solver = Returns solver' ->
  CDiscAdjSolver.nPoint solver' = CDiscAdjSolver.nPoint solver.
Proof.
  intros Hrun. unfold SetSurface_Sensitivity in Hrun.
  apply bind_Returns in Hrun as ([s1 t] & Hlocal & Hrun).
  injection Hrun as <-. simpl.
  unfold SetSurface_Sensitivity_local in Hlocal.
  apply (for_loop_inv
    (fun _ (st : CDiscAdjSolver.t * su2double) =>
       CDiscAdjSolver.nPoint st.1 = CDiscAdjSolver.nPoint solver))
    in Hlocal; [exact Hlocal | reflexivity |].
  intros m [s2 t2] [s3 t3] _ IH Hbody. cbn [fst] in *.
  unfold surface_marker in Hbody.
  apply bind_Returns in Hbody as (SG & _ & Hbody).
  apply bind_Returns in Hbody as (kind & _ & Hbody).
  destruct (is_wall_of_interest kind); [|by injection Hbody as <- _].
  apply bind_Returns in Hbody as (vs & _ & Hbody).
  apply bind_Returns in Hbody as (s4 & Hloop & Hbody).
  apply bind_Returns in Hbody as (g & _ & Hbody).
  injection Hbody as <- _.
  apply (for_loop_inv
    (fun _ (s : CDiscAdjSolver.t) =>
       CDiscAdjSolver.nPoint s = CDiscAdjSolver.nPoint solver))
    in Hloop; [exact Hloop | exact IH |].
  intros i s5 s6 _ IH5 Hvertex.
  apply surface_vertex_nPoint in Hvertex. congruence.
Qed.

(** X17. The derivative of a coordinate can be extracted once.  On
    well-formed inputs a second [SetSensitivity], run on the mesh and the
    solver the first has left, returns, and the sensitivity it stores for
    every point and dimension is no longer what its tape holds for the
    coordinate, but what it holds under the passive handle (filtered by
    the sharp-edge test as before). *)
Theorem SetSensitivity_reads_a_coordinate_once
    (b : build) (Allreduce : su2double -> su2double) (tp tp2 : AD.tape)
    (geometry : CGeometry.t) (config : CConfig.t) (solver : CDiscAdjSolver.t) :
  wf_points geometry solver ->
  wf_surface geometry config solver ->
  exists geometry1 solver1 geometry2 solver2,
    SetSensitivity b Allreduce tp geometry config solver
    = Returns (geometry1, solver1) /\
    SetSensitivity b Allreduce tp2 geometry1 config solver1
    = Returns (geometry2, solver2) /\
    forall iPoint iDim p,
      iPoint < CDiscAdjSolver.nPoint solver ->
      iDim < CDiscAdjSolver.nDim solver ->
      CGeometry.node geometry !! iPoint = Some p ->
      exists v,
        CDiscAdjSolver.node solver2 !! iPoint = Some v /\
        CVariable.Sensitivity v !! iDim
        = Some (sharp_edge_filter config p (AD.adjoint tp2 AD.passive)).
Proof.
  intros Hpoints Hsurface.
  destruct (SetSensitivity_points_total config tp _ _ Hpoints)
    as ([g1 s1'] & Hloops1 & Hshape1).
  pose proof (wf_surface_points_shape _ config _ _ _ Hshape1 Hsurface)
    as Hsurface1'.
  pose proof (wf_points_points_shape _ _ _ _ Hshape1 Hpoints) as Hpoints1'.
  destruct (SetSurface_Sensitivity_shape b Allreduce _ _ _ Hsurface1')
    as (s1 & Hsurf1 & Hsame1).
  pose proof (SetSurface_Sensitivity_nPoint _ _ _ _ _ _ Hsurf1) as HnP1.
  pose proof (wf_surface_shape _ _ _ _ Hsame1 Hsurface1') as Hsurface1.
  destruct Hshape1 as (_ & _ & _ & HnP & HnD & _). cbn [fst snd] in *.
  destruct Hsame1 as (Hnode1 & Hdim1 & _).
  assert (Hpoints1 : wf_points g1 s1).
  { destruct Hpoints1' as (H1 & H2 & H3 & H4).
    unfold wf_points. rewrite HnP1, Hnode1, Hdim1. auto. }
  destruct (SetSensitivity_total b Allreduce tp2 _ _ _ Hpoints1 Hsurface1)
    as ([g2 s2] & Hrun2).
  exists g1, s1, g2, s2. split.
  { unfold SetSensitivity. rewrite Hloops1. simpl. by rewrite Hsurf1. }
  split; [exact Hrun2|]. intros i d p Hi Hd Hp.
  destruct (SetSensitivity_points_geometry _ _ _ _ _ _ Hloops1 i p Hp)
    as (p1 & Hp1 & _ & Hdist & _ & _ & Hcoord).
  rewrite decide_True in Hcoord by done.
  unfold SetSensitivity in Hrun2.
  apply bind_Returns in Hrun2 as ([g2' s2'] & Hloops2 & Hrun2).
  apply bind_Returns in Hrun2 as (s3 & Hsurf2 & Hrun2).
  injection Hrun2 as <- <-.
  destruct (SetSensitivity_points_spec _ _ _ _ _ _ Hloops2 i d)
    as (q & c & v' & Hq & Hc & Hv' & HS); [lia | lia|].
  rewrite Hp1 in Hq. injection Hq as <-.
  rewrite Hcoord, decide_True in Hc by done.
  destruct (CPoint.Coord p !! d) as [c0|]; [|done]. injection Hc as <-.
  unfold SetSurface_Sensitivity in Hsurf2.
  apply bind_Returns in Hsurf2 as ([s4 t] & Hlocal & Hsurf2).
  injection Hsurf2 as <-.
  apply SetSurface_Sensitivity_local_spec in Hlocal as (Hnode & _).
  exists v'. split; [simpl; by rewrite Hnode|].
  rewrite HS. f_equal. by apply sharp_edge_filter_distance.
Qed.

(** [tape0] holds 13 for the first coordinate of point 1 and 0 under the
    passive handle: the second extraction stores 0. *)
Lemma SetSensitivity_reads_a_coordinate_once_witness :
  exists geometry2 solver2 v,
    SetSensitivity Serial id Example.tape0 Example.sensitized.1
      Example.config0 Example.sensitized.2 = Returns (geometry2, solver2) /\
    CDiscAdjSolver.node solver2 !! 1 = Some v /\
    CVariable.Sensitivity v !! 0 = Some Double.zero.
Proof.
  destruct (SetSensitivity_reads_a_coordinate_once Serial id Example.tape0
              Example.tape0 Example.geometry0 Example.config0
              Example.solver0 wf_points_example wf_surface_example)
    as (g1 & s1 & g2 & s2 & Hrun1 & Hrun2 & Hread).
  assert ((g1, s1) = Example.sensitized) as Heq
    by (vm_compute in Hrun1; injection Hrun1 as <- <-; reflexivity).
  destruct (Hread 1 0 _ ltac:(vm_compute; lia) ltac:(vm_compute; lia)
              eq_refl) as (v & Hv & HS).
  exists g2, s2, v. rewrite <- Heq. split; [exact Hrun2|].
  split; [exact Hv|]. rewrite HS. reflexivity.
Defined.

(** * The seed and the registered objective *)

(** X18. Registration and seeding of the objective compose: after
    [RegisterObj_Func] with a recognized selector, [SetAdj_ObjFunc] writes
    the seed under the handle of the variable the accessor of the primal
    solver has returned, 1 on the master rank and 0 on the others; on the
    master rank this handle is the last output of the tape; and the
    derivative kept under any other handle is what it was. *)
Theorem seed_lands_on_the_registered_objective
    (b : build) (r : nat) (config : CConfig.t) (direct_solver : CSolver.t)
    (solver : CDiscAdjSolver.t) (tp : AD.tape) (acc : accessor) :
  accessor_of (CConfig.Kind_ObjFunc config) = Some acc ->
  let '(_, solver', tp') :=
    RegisterObj_Func b r config direct_solver solver tp in
  let tp'' := SetAdj_ObjFunc b r solver' tp' in
  let objective := CSolver.scalar direct_solver acc in
  AD.GetDerivative tp'' objective
  = (if decide (get_rank b r = MASTER_NODE) then Double.one
     else Double.zero) /\
  (get_rank b r = MASTER_NODE ->
   last (AD.outputs tp'') = Some (AD.index objective)) /\
  (get_rank b r <> MASTER_NODE -> AD.outputs tp'' = AD.outputs tp) /\
  forall x, AD.index x <> AD.index objective ->
    AD.GetDerivative tp'' x = AD.GetDerivative tp x.
Proof.
  intros Hacc. unfold RegisterObj_Func, SetAdj_ObjFunc.
  destruct (CConfig.Kind_ObjFunc config); simpl in Hacc;
    try discriminate Hacc; injection Hacc as <-; simpl;
    (destruct (decide (get_rank b r = MASTER_NODE)) as [Hr|Hr]; simpl;
     (split; [apply GetDerivative_SetDerivative|]);
     (split; [intros; try done; by rewrite last_snoc|]);
     (split; [intros; try done|]);
     intros x Hx; unfold AD.GetDerivative; simpl;
     by destruct (decide (AD.index x = _))).
Qed.

(** * A boundary vertex with a zero normal *)

Lemma mul_zero_finite (n x : su2double) :
  is_zero n = true -> is_finite x = true -> is_zero (n * x)%D = true.
Proof. by destruct n as [[]| | |], x as [[]|[]| |[]]. Qed.

Lemma add_zero_zero (x : su2double) :
  is_zero x = true -> (Double.zero + x)%D = Double.zero.
Proof. by destruct x as [[]| | |]. Qed.

Lemma dot_zero_normal (nDim : nat) (Normal v : list su2double) :
  Forall (fun n => is_zero n = true) (take nDim Normal) ->
  Forall (fun x => is_finite x = true) (take nDim v) ->
  dot nDim Normal v = Double.zero.
Proof.
  unfold dot. generalize (take nDim Normal) (take nDim v). clear.
  intros ns. induction ns as [|n ns IH]; intros [|x xs] Hn Hx;
    try reflexivity.
  apply Forall_cons in Hn as [Hn Hns]. apply Forall_cons in Hx as [Hx Hxs].
  simpl. rewrite add_zero_zero by (by apply mul_zero_finite).
  by apply IH.
Qed.

(** X19. A boundary vertex whose normal is zero is not trapped.  When the
    components of the normal of a vertex of a selected marker are zeros and
    the sensitivities of its point are finite, the scalar product and the
    area are both zero, and [SetSurface_Sensitivity] stores the quotient
    0/0, a NaN, as the sensitivity of the vertex. *)
Theorem zero_normal_gives_a_NaN
    (b : build) (Allreduce : su2double -> su2double)
    (geometry : CGeometry.t) (config : CConfig.t) (solver : CDiscAdjSolver.t)
    (iMarker iVertex : nat) (vertex : CVertex.t) :
  wf_surface geometry config solver ->
  iMarker < CDiscAdjSolver.nMarker solver ->
  selected config iMarker = true ->
  vertices_of geometry iMarker !! iVertex = Some vertex ->
  Forall (fun n => is_zero n = true)
         (take (CDiscAdjSolver.nDim solver) (CVertex.Normal vertex)) ->
  Forall (fun x => is_finite x = true)
         (take (CDiscAdjSolver.nDim solver)
               (point_Sensitivity solver (CVertex.Node vertex))) ->
  exists solver' row,
    SetSurface_Sensitivity b Allreduce geometry config solver
    = Returns solver' /\
    CDiscAdjSolver.CSensitivity solver' !! iMarker = Some row /\
    row !! iVertex = Some (S754_nan : su2double).
Proof.
  intros Hwf Hm Hsel Hvertex Hzero Hfinite.
  destruct (SetSurface_Sensitivity_shape b Allreduce _ _ _ Hwf)
    as (solver' & Hrun & _).
  destruct (SetSurface_Sensitivity_rows _ _ _ _ _ _ Hrun iMarker iVertex
              vertex Hm Hsel Hvertex) as (row & Hrow & Hc).
  exists solver', row. split; [exact Hrun|]. split; [exact Hrow|].
  etrans; [exact Hc|]. f_equal.
  unfold vertex_CSensitivity, vertex_Sens, projection.
  rewrite (dot_zero_normal _ _ _ Hzero Hfinite).
  rewrite (dot_zero_normal _ _ _ Hzero).
  - by destruct (flipped geometry vertex).
  - eapply Forall_impl; [exact Hzero|]. by intros [[]| | |].
Qed.

(** In a serial run for the drag coefficient the derivative of the drag
    variable of the primal solver is 1 after the two calls. *)
Lemma seed_lands_on_the_registered_objective_witness :
  let '(_, solver', tp') :=
    RegisterObj_Func Serial 0 Example.config0 Example.direct0
      Example.solver0 Example.tape0 in
  AD.GetDerivative (SetAdj_ObjFunc Serial 0 solver' tp')
                   (CSolver.scalar Example.direct0 GetTotal_CDrag)
  = Double.one.
Proof.
  pose proof (seed_lands_on_the_registered_objective Serial 0 Example.config0
                Example.direct0 Example.solver0 Example.tape0 GetTotal_CDrag
                eq_refl) as H.
  destruct (RegisterObj_Func Serial 0 Example.config0 Example.direct0
              Example.solver0 Example.tape0) as [[invoked solver'] tp'].
  destruct H as [H _]. exact H.
Defined.

Lemma wf_surface_example_flat :
  wf_surface Example.geometry_flat Example.config0 Example.solver0.
Proof.
  split; [simpl; lia|]. split; [simpl; lia|].
  intros [|[|m]] Hm Hsel; [|discriminate Hsel | simpl in Hm; lia].
  eexists _, _. split; [reflexivity|]. split; [reflexivity|].
  split; [simpl; lia|].
  repeat constructor; simpl; try lia.
  eexists. split; [reflexivity | simpl; lia].
Defined.

(** The wall vertex of [geometry_flat] has the normal (0, 0) and its point
    the sensitivities (1, 0). *)
Lemma zero_normal_gives_a_NaN_witness :
  exists solver' row,
    SetSurface_Sensitivity Serial id Example.geometry_flat Example.config0
      Example.solver0 = Returns solver' /\
    CDiscAdjSolver.CSensitivity solver' !! 0 = Some row /\
    row !! 0 = Some (S754_nan : su2double).
Proof.
  apply (zero_normal_gives_a_NaN Serial id Example.geometry_flat
           Example.config0 Example.solver0 0 0
           (CVertex.Build 0 [Double.zero; Double.zero])
           wf_surface_example_flat).
  - vm_compute. lia.
  - reflexivity.
  - reflexivity.
  - repeat constructor.
  - repeat constructor.
Defined.
